(** * SSAScoutTool: the synchronisation and reconciliation core

    A shallow embedding of [base_scraper.py] ([make_request], [clean_text],
    [parse_number]), [database_manager.py] (response cache and sync ledger)
    and [data_aggregator.py] (match key, field merger, persistence, coverage
    report, sync orchestration), followed by the properties checked against
    the specification (C1 to C10) and further properties of the same code
    (X1 to X25).

    Conventions of the embedding.
    - A Python [str] is a list of Unicode code points ([list N]); dict keys
      that are literals in the source (field names, source names, status
      words) are Rocq [string]s.  The digit and white-space classes are those
      of Unicode 14.0 (CPython 3.11); lower-casing is modelled for Basic
      Latin and Latin-1 only.
    - A Python [float] is idealised as an exact rational ([Q], kept reduced),
      the decimal number it stands for: no NaN, no infinities, no binary
      rounding.  [round(x, 1)] is rounding to the nearest tenth, ties to
      even, as Python rounds a tie that is exact in binary; where Python
      decides by the binary value of the float, the theorems leave the
      choice open.  [repr] of a float is a parameter.
    - A raised exception is a value of [exn]; fallible code lives in the
      error monad [result].
    - [datetime.now()] and SQLite's [CURRENT_TIMESTAMP] are read from an
      explicit clock argument, in microseconds.
    - The statements the aggregator itself sends to the database go through
      ([log_sync], the commit), but for a row SQLite refuses in
      [_save_players_to_db], where the code catches the failure;
      [hashlib.md5] is taken to be free of collisions.
    - What lies outside the aggregator during a sync (the adapters' fetches
      and the cache rows they write, the driver shutdown, the progress
      callback) is given as data: what each call returns or raises. *)

From Stdlib Require Import ZArith NArith QArith Qround Qabs Lqa Lia String Ascii List
  DecimalString.
From stdpp Require Import base option list strings gmap fin_maps.
Import ListNotations.

#[local] Open Scope Z_scope.

(** ** Python values, strings and exceptions *)

Module Py.

Inductive exn : Type :=
| ValueError
| IndexError
| AttributeError
| TypeError
| WebDriverException
| OtherException (name : string).

Inductive result (A : Type) : Type :=
| Ok (a : A)
| Raise (e : exn).
Arguments Ok {A} a.
Arguments Raise {A} e.

#[export] Instance result_ret : MRet result := fun A a => Ok a.
#[export] Instance result_bind : MBind result := fun A B k r =>
  match r with
  | Ok a => k a
  | Raise e => Raise e
  end.

#[export] Instance result_fmap : FMap result := fun A B f r =>
  match r with
  | Ok a => Ok (f a)
  | Raise e => Raise e
  end.

#[export] Instance exn_eq_dec : EqDecision exn.
Proof. solve_decision. Defined.

#[export] Instance result_eq_dec {A : Type} `{EqDecision A} : EqDecision (result A).
Proof. solve_decision. Defined.

(** [u "abc"] is the Python string whose code points are the bytes of an
    ASCII literal. *)
Definition u (s : string) : list N :=
  List.map N_of_ascii (list_ascii_of_string s).

(** The values the scrapers put into a record: [None], [int], [float], [str]. *)
Inductive value : Type :=
| VNone
| VInt (z : Z)
| VFloat (q : Q)
| VStr (s : list N).

#[export] Instance Q_eq_dec : EqDecision Q.
Proof. solve_decision. Defined.

#[export] Instance value_eq_dec : EqDecision value.
Proof. solve_decision. Defined.

(** [v is None] *)
Definition is_none (v : value) : bool :=
  match v with VNone => true | _ => false end.

(** Truth value of [v], as [if v:] tests it. *)
Definition truthy (v : value) : bool :=
  match v with
  | VNone => false
  | VInt z => negb (z =? 0)
  | VFloat q => negb (Qeq_bool q 0)
  | VStr s => match s with [] => false | _ => true end
  end.

(** The number an [int] or a [float] stands for. *)
Definition num (v : value) : option Q :=
  match v with
  | VInt z => Some (inject_Z z)
  | VFloat q => Some q
  | _ => None
  end.

(** [s.encode()] succeeds: the string holds no surrogate code point. *)
Definition encodable (s : list N) : bool :=
  forallb (fun c => negb ((55296 <=? c)%N && (c <=? 57343)%N)) s.

Section Format.

(** [repr] of a [float], which the model does not compute: any function. *)
Variable float_repr : Q -> list N.

(** The text an f-string puts for [{v}]: [str(v)]. *)
Definition py_format (v : value) : list N :=
  match v with
  | VNone => u "None"
  | VInt z => u (NilZero.string_of_int (Z.to_int z))
  | VFloat q => float_repr q
  | VStr s => s
  end.

End Format.

(** [s < t] on strings: lexicographic on code points. *)
Fixpoint str_ltb (s t : list N) : bool :=
  match s, t with
  | _, [] => false
  | [], _ :: _ => true
  | a :: s', b :: t' => (a <? b)%N || ((a =? b)%N && str_ltb s' t')
  end.

(** [x > y]: numbers compare by value, strings lexicographically, any other
    pairing raises [TypeError]. *)
Definition py_gt (x y : value) : result bool :=
  match x, y with
  | VStr s, VStr t => Ok (str_ltb t s)
  | _, _ =>
      match num x, num y with
      | Some p, Some q => Ok (negb (Qle_bool p q))
      | _, _ => Raise TypeError
      end
  end.

(** [max(a, b)]: [b] when [b > a], else [a]. *)
Definition py_max (a b : value) : result value :=
  g ← py_gt b a; Ok (if g : bool then b else a).

(** Nearest integer, ties to the even one. *)
Definition round_half_even (q : Q) : Z :=
  let f := Qfloor q in
  match Qcompare (q - inject_Z f) (1 # 2) with
  | Lt => f
  | Gt => f + 1
  | Eq => if Z.even f then f else f + 1
  end.

(** [round(x, 1)] on a float. *)
Definition round1 (x : Q) : Q := Qred (round_half_even (x * 10) # 10).

(** Insertion-ordered dict: a key that is present keeps its place when it is
    assigned again, a new key goes to the end. *)
Fixpoint dict_get {K V : Type} `{EqDecision K} (k : K) (d : list (K * V)) : option V :=
  match d with
  | [] => None
  | (k', v) :: d' => if decide (k = k') then Some v else dict_get k d'
  end.

Fixpoint dict_set {K V : Type} `{EqDecision K} (k : K) (v : V) (d : list (K * V)) : list (K * V) :=
  match d with
  | [] => [(k, v)]
  | (k', v') :: d' =>
      if decide (k = k') then (k, v) :: d' else (k', v') :: dict_set k v d'
  end.

(** Left fold of a step that may raise. *)
Fixpoint fold_result {A B : Type} (f : A -> B -> result A) (l : list B) (a : A) : result A :=
  match l with
  | [] => Ok a
  | b :: l' => a' ← f a b; fold_result f l' a'
  end.

(** *** Character classes *)

(** First code point of each of the 66 blocks of ten decimal digits
    (category Nd) of Unicode 14.0, the character database of CPython 3.11:
    from Basic Latin, Arabic-Indic and Devanagari to the five mathematical
    digit alphabets and the segmented digits. *)
Definition decimal_zeros : list N :=
  [48; 1632; 1776; 1984; 2406; 2534; 2662; 2790; 2918; 3046; 3174; 3302;
   3430; 3558; 3664; 3792; 3872; 4160; 4240; 6112; 6160; 6470; 6608; 6784;
   6800; 6992; 7088; 7232; 7248; 42528; 43216; 43264; 43472; 43504; 43600;
   44016; 65296; 66720; 68912; 69734; 69872; 69942; 70096; 70384; 70736;
   70864; 71248; 71360; 71472; 71904; 72016; 72784; 73040; 73120; 92768;
   92864; 93008; 120782; 120792; 120802; 120812; 120822; 123200; 123632;
   125264; 130032]%N.

(** The digit a decimal code point stands for, as [int] reads it. *)
Definition decimal_value (c : N) : option N :=
  match List.find (fun z => (z <=? c)%N && (c <? z + 10)%N) decimal_zeros with
  | Some z => Some (c - z)%N
  | None => None
  end.

(** The 128 code points of Unicode 14.0 with Numeric_Type=Digit that are
    not decimal digits, as inclusive ranges: superscripts and subscripts,
    Ethiopic and New Tai Lue digits, circled, parenthesised, full-stop and
    dingbat digits, Kharoshthi, Rumi and Brahmi digits, digits with a comma.
    [str.isdigit] accepts them, [int] does not. *)
Definition digit_only_ranges : list (N * N) :=
  [(178, 179); (185, 185); (4969, 4977); (6618, 6618); (8304, 8304);
   (8308, 8313); (8320, 8329); (9312, 9320); (9332, 9340); (9352, 9360);
   (9450, 9450); (9461, 9469); (9471, 9471); (10102, 10110); (10112, 10120);
   (10122, 10130); (68160, 68163); (69216, 69224); (69714, 69722);
   (127232, 127242)]%N.

Definition digit_only (c : N) : bool :=
  existsb (fun r => (r.1 <=? c)%N && (c <=? r.2)%N) digit_only_ranges.

(** [ch.isdigit()] *)
Definition isdigit (c : N) : bool :=
  match decimal_value c with
  | Some _ => true
  | None => digit_only c
  end.

(** [ch.isspace()]: the white space [str.strip] and [str.split] remove. *)
Definition isspace (c : N) : bool :=
  ((9 <=? c)%N && (c <=? 13)%N) || ((28 <=? c)%N && (c <=? 32)%N)
  || (c =? 133)%N || (c =? 160)%N || (c =? 5760)%N
  || ((8192 <=? c)%N && (c <=? 8202)%N)
  || (c =? 8232)%N || (c =? 8233)%N || (c =? 8239)%N || (c =? 8287)%N
  || (c =? 12288)%N.

(** Lower-casing of one code point, for Basic Latin and Latin-1; other code
    points are left as they are. *)
Definition lower_cp (c : N) : N :=
  if ((65 <=? c)%N && (c <=? 90)%N)
     || ((192 <=? c)%N && (c <=? 222)%N && negb (c =? 215)%N)
  then (c + 32)%N else c.

(** [s.lower()] *)
Definition lower (s : list N) : list N := List.map lower_cp s.

Fixpoint dropwhile {A : Type} (p : A -> bool) (l : list A) : list A :=
  match l with
  | [] => []
  | x :: l' => if p x then dropwhile p l' else l
  end.

(** [s.strip()] *)
Definition lstrip (s : list N) : list N := dropwhile isspace s.
Definition rstrip (s : list N) : list N := rev (dropwhile isspace (rev s)).
Definition strip (s : list N) : list N := rstrip (lstrip s).

(** [s.split()]: maximal runs of non-blank code points.  [cur] is the token
    being read, in reverse. *)
Fixpoint split_from (cur : list N) (s : list N) : list (list N) :=
  match s with
  | [] => match cur with [] => [] | _ => [rev cur] end
  | c :: s' =>
      if isspace c
      then match cur with
           | [] => split_from [] s'
           | _ => rev cur :: split_from [] s'
           end
      else split_from (c :: cur) s'
  end.

Definition split (s : list N) : list (list N) := split_from [] s.

(** [sep.join(parts)] *)
Fixpoint join (sep : list N) (parts : list (list N)) : list N :=
  match parts with
  | [] => []
  | [p] => p
  | p :: ps => p ++ sep ++ join sep ps
  end.

(** *** [int] on a string of digits *)

Section Int.

(** [sys.get_int_max_str_digits()]: the longest digit string [int] converts;
    [0] switches the guard off (and stands for interpreters without it). *)
Variable max_str_digits : N.

(** The number a list of decimal digits denotes in base ten. *)
Definition digits_value (ds : list N) : Z :=
  fold_left (fun acc d => 10 * acc + Z.of_N d) ds 0.

(** [int(s)] for a non-empty [s] made of [isdigit] code points, the only
    strings [parse_number] passes to it: every code point must be a decimal
    digit and the string must respect the length guard. *)
Definition int_of_digits (s : list N) : result Z :=
  match mapM decimal_value s with
  | None => Raise ValueError
  | Some ds =>
      if negb (max_str_digits =? 0)%N && (max_str_digits <? N.of_nat (length s))%N
      then Raise ValueError
      else match ds with
           | [] => Raise ValueError
           | _ => Ok (digits_value ds)
           end
  end.

End Int.

End Py.

(** ** base_scraper.py *)

Module BaseScraper.
Import Py.

(** [clean_text(self, text)]: [' '.join(text.split())] *)
Definition clean_text (text : list N) : list N := join (u " ") (split text).

Section ParseNumber.

Variable max_str_digits : N.

(** The body of the [try] block of [parse_number]. *)
Definition parse_number_try (text : list N) (default : Z) : result Z :=
  let cleaned := List.filter isdigit text in
  match cleaned with
  | [] => Ok default
  | _ => int_of_digits max_str_digits cleaned
  end.

(** [parse_number(self, text, default=0)] *)
Definition parse_number (text : list N) (default : Z) : Z :=
  match parse_number_try text default with
  | Ok z => z
  | Raise _ => default
  end.

End ParseNumber.

End BaseScraper.

(** ** database_manager.py *)

Module DatabaseManager.
Import Py.

(** A row of table [cache]; [key] is the primary key. *)
Record cache_row : Type := {
  cache_value : list N;
  expiry : Z;
  created_at : Z
}.

(** A row of table [sync_history]; [error_message] keeps the exception whose
    text [str(e)] the column stores. *)
Record sync_row : Type := {
  row_id : Z;
  row_league : list N;
  row_source : string;
  row_status : string;
  records_synced : Z;
  error_message : option exn;
  started_at : Z;
  completed_at : Z
}.

(** The identifier of a stored player: [Md5 text] stands for
    [hashlib.md5(text.encode()).hexdigest()].  MD5 is taken to be free of
    collisions: two identifiers are the same when their texts are. *)
Inductive external_id : Type :=
| Md5 (text : list N).

#[export] Instance external_id_eq_dec : EqDecision external_id.
Proof. solve_decision. Defined.

(** A row of table [players]: the bound column values, the league and the
    time of the write. *)
Record player_row : Type := {
  columns : gmap string Py.value;
  player_league : list N;
  last_updated : Z
}.

(** The database file: the three tables the core writes. *)
Record db : Type := {
  cache : gmap (list N) cache_row;
  sync_history : list sync_row;
  players : list (external_id * player_row)
}.

Definition empty_db : db :=
  {| cache := ∅; sync_history := []; players := [] |}.

(** [cache_get(self, key)], read at time [now]:
    [SELECT value FROM cache WHERE key = ? AND expiry > ?]. *)
Definition cache_get (d : db) (key : list N) (now : Z) : option (list N) :=
  match cache d !! key with
  | Some row => if now <? expiry row then Some (cache_value row) else None
  | None => None
  end.

(** [cache_set(self, key, value, ttl_seconds=3600)]; [now] is
    [datetime.now()], [ts] is [CURRENT_TIMESTAMP]. *)
Definition cache_set (d : db) (key val : list N) (ttl_seconds : Z) (now ts : Z) : db :=
  let expiry := now + ttl_seconds * 1000000 in
  {| cache := <[key := {| cache_value := val; expiry := expiry; created_at := ts |}]> (cache d);
     sync_history := sync_history d;
     players := players d |}.

(** [clear_expired_cache(self)]: [DELETE FROM cache WHERE expiry < ?]; returns
    the number of rows deleted. *)
Definition clear_expired_cache (d : db) (now : Z) : db * nat :=
  let kept := filter (fun kv => ¬ (expiry kv.2 < now)) (cache d) in
  ({| cache := kept; sync_history := sync_history d; players := players d |},
   size (cache d) - size kept)%nat.

(** [log_sync(self, league, source, status, records=0, error=None)]: one
    [INSERT INTO sync_history], both timestamps [CURRENT_TIMESTAMP]; returns
    [cursor.lastrowid].  No statement deletes from the table, so the next
    AUTOINCREMENT id is the number of rows plus one. *)
Definition log_sync (d : db) (lg : list N) (src st : string) (records : Z)
    (error : option exn) (ts : Z) : db * Z :=
  let sync_id := Z.of_nat (length (sync_history d)) + 1 in
  let row := {| row_id := sync_id; row_league := lg; row_source := src;
                row_status := st;
                records_synced := records; error_message := error;
                started_at := ts; completed_at := ts |} in
  ({| cache := cache d; sync_history := sync_history d ++ [row];
      players := players d |}, sync_id).

End DatabaseManager.

(** ** base_scraper.py, continued: the request path, which goes through the
    cache *)

Module Fetching.
Import Py.
Import DatabaseManager.

(** What [self.session.get(url, ...)] followed by [raise_for_status()] comes
    to: a response body, or a [requests.RequestException]. *)
Inductive response : Type :=
| Body (text : list N)
| RequestException.

(** The clock readings of one [make_request]: [datetime.now()] in
    [cache_get], then [datetime.now()] and [CURRENT_TIMESTAMP] in
    [cache_set]. *)
Record request_clock : Type := {
  t_read : Z;
  t_write : Z;
  t_write_db : Z
}.

(** [make_request(self, url, use_cache=True)], with [CACHE_TTL_SECONDS] and
    what the network would answer as arguments.  [if cached:] lets only a
    non-empty cached text through. *)
Definition make_request (cache_ttl_seconds : Z) (d : db) (url : list N)
    (use_cache : bool) (net : response) (clk : request_clock)
    : db * option (list N) :=
  let cached := if use_cache then cache_get d url (t_read clk) else None in
  match cached with
  | Some (c :: text) => (d, Some (c :: text))
  | _ =>
      match net with
      | Body text =>
          ((if use_cache
            then cache_set d url text cache_ttl_seconds (t_write clk) (t_write_db clk)
            else d),
           Some text)
      | RequestException => (d, None)
      end
  end.

End Fetching.

(** ** data_aggregator.py *)

Module DataAggregator.
Import Py.
Import DatabaseManager.

(** A candidate record as a scraper returns it: a dict from field name to
    value. *)
Abbreviation player := (gmap string value).

(** One entry of [merged_players]: the keys ['league'], ['sources'] and
    ['last_updated'] set when the entry is created, and every other key of the
    dict in [m_fields]. *)
Record merged : Type := {
  m_league : list N;
  m_sources : list (string * player);
  m_last_updated : Z;
  m_fields : gmap string value
}.

(** [_generate_player_key(self, name, club)].  [name.lower()] and
    [club.lower()] need strings; [n[0]] needs a token. *)
Definition generate_player_key (name club : value) : result (list N) :=
  match name with
  | VStr nm =>
      let n := split (strip (lower nm)) in
      key_name ← (if (1 <? length n)%nat
                  then match head n, last n with
                       | Some first, Some final => Ok (first ++ u "_" ++ final)
                       | _, _ => Raise IndexError
                       end
                  else match head n with
                       | Some first => Ok first
                       | None => Raise IndexError
                       end);
      match club with
      | VStr c => Ok (key_name ++ u "_" ++ strip (lower c))
      | _ => Raise AttributeError
      end
  | _ => Raise AttributeError
  end.

Definition fields : list string :=
  ["name"; "age"; "position"; "club"; "nationality"; "market_value";
   "rating"; "goals"; "assists"; "matches"; "minutes_played";
   "yellow_cards"; "red_cards"]%string.

Definition id_fields : list string :=
  ["fbref_id"; "transfermarkt_id"; "sofascore_id"; "asa_id"]%string.

Definition stats : list string :=
  ["xg"; "xa"; "xg_per_90"; "xa_per_90"; "key_passes"; "dribbles"]%string.

(** [round((a + b) / 2, 1)]: both operands must be numbers. *)
Definition rating_mean (a b : value) : result value :=
  match num a, num b with
  | Some p, Some q => Ok (VFloat (round1 ((p + q) / 2)))
  | _, _ => Raise TypeError
  end.

(** One turn of the loop over [fields] in [_merge_player_info]. *)
Definition merge_field (new_data : player) (m : gmap string value) (f : string)
    : result (gmap string value) :=
  match new_data !! f with
  | Some v =>
      if is_none v then Ok m
      else if String.eqb f "market_value" && bool_decide (is_Some (m !! f)) then
        w ← py_max (default (VInt 0) (m !! f)) v; Ok (<[f := w]> m)
      else if String.eqb f "rating" && bool_decide (is_Some (m !! f)) then
        w ← rating_mean (default (VInt 0) (m !! f)) v; Ok (<[f := w]> m)
      else
        match m !! f with
        | None | Some VNone => Ok (<[f := v]> m)
        | Some _ => Ok m
        end
  | None => Ok m
  end.

(** One turn of the loop over the id fields. *)
Definition merge_id (new_data : player) (m : gmap string value) (idf : string)
    : gmap string value :=
  match new_data !! idf with
  | Some v => if truthy v then <[idf := v]> m else m
  | None => m
  end.

(** One turn of the loop over [stats]. *)
Definition merge_stat (new_data : player) (m : gmap string value) (s : string)
    : gmap string value :=
  match new_data !! s with
  | Some v => if is_none v then m else <[s := v]> m
  | None => m
  end.

(** [_merge_player_info(self, merged, new_data, source)]; the in-place update
    of [merged] is returned as the new record. *)
Definition merge_player_info (mg : merged) (new_data : player) (source : string)
    : result merged :=
  let srcs := dict_set source new_data (m_sources mg) in
  fs ← fold_result (merge_field new_data) fields (m_fields mg);
  let fs := fold_left (merge_id new_data) id_fields fs in
  let fs := fold_left (merge_stat new_data) stats fs in
  Ok {| m_league := m_league mg; m_sources := srcs;
        m_last_updated := m_last_updated mg; m_fields := fs |}.

(** The body of the inner loop of [_merge_player_data]: one candidate of
    [source] goes into its cluster.  [now] gives the [datetime.now()] read by
    the n-th cluster created. *)
Definition merge_one (lg : list N) (now : nat -> Z) (source : string)
    (merged_players : list (list N * merged)) (p : player)
    : result (list (list N * merged)) :=
  key ← generate_player_key (default (VStr []) (p !! "name"))
                            (default (VStr []) (p !! "club"));
  let entry :=
    match dict_get key merged_players with
    | Some mg => mg
    | None => {| m_league := lg; m_sources := [];
                 m_last_updated := now (length merged_players);
                 m_fields := ∅ |}
    end in
  mg' ← merge_player_info entry p source;
  Ok (dict_set key mg' merged_players).

(** The first loop nest of [_merge_player_data]. *)
Definition merge_clusters (source_data : list (string * list player))
    (lg : list N) (now : nat -> Z) : result (list (list N * merged)) :=
  fold_result
    (fun acc '(source, ps) => fold_result (merge_one lg now source) ps acc)
    source_data [].

(** [sum(ratings)], from [0]. *)
Definition py_sum (vs : list value) : result Q :=
  fold_result
    (fun acc v => match num v with Some q => Ok (acc + q)%Q | None => Raise TypeError end)
    vs 0%Q.

(** The rating back-fill of the second loop of [_merge_player_data]. *)
Definition backfill_rating (pdata : merged) : result merged :=
  if bool_decide (m_fields pdata !! "rating" = None)
     && negb (bool_decide (m_sources pdata = [])) then
    let ratings :=
      omap (fun '(_, s) =>
              match (s : player) !! "rating" with
              | Some r => if truthy r then Some r else None
              | None => None
              end) (m_sources pdata) in
    match ratings with
    | [] => Ok pdata
    | _ =>
        total ← py_sum ratings;
        Ok {| m_league := m_league pdata; m_sources := m_sources pdata;
              m_last_updated := m_last_updated pdata;
              m_fields := <["rating" :=
                VFloat (round1 (total / inject_Z (Z.of_nat (length ratings))))]>
                (m_fields pdata) |}
    end
  else Ok pdata.

(** [_merge_player_data(self, source_data, league)] *)
Definition merge_player_data (source_data : list (string * list player))
    (lg : list N) (now : nat -> Z) : result (list merged) :=
  merged_players ← merge_clusters source_data lg now;
  fold_result (fun final_list '(_, pdata) =>
                 pdata' ← backfill_rating pdata; Ok (final_list ++ [pdata']))
              merged_players [].

(** Columns bound with [p.get(col)] and with [p.get(col, 0)] in
    [_save_players_to_db]. *)
Definition null_columns : list string :=
  ["name"; "age"; "position"; "club"; "nationality"; "pass_accuracy";
   "shots_per_game"; "key_passes"; "dribbles"; "aerial_duels"; "tackles";
   "interceptions"; "clearances"; "fbref_id"; "transfermarkt_id"; "asa_id";
   "sofascore_id"]%string.

Definition zero_columns : list string :=
  ["market_value"; "rating"; "goals"; "assists"; "matches"; "minutes_played";
   "yellow_cards"; "red_cards"]%string.

Definition player_columns (p : merged) : gmap string value :=
  list_to_map
    (List.map (fun c => (c, default VNone (m_fields p !! c))) null_columns
     ++ List.map (fun c => (c, default (VInt 0) (m_fields p !! c))) zero_columns).

(** SQLite binds [None], every [float], an [int] of 64 bits and a [str]
    that encodes to UTF-8. *)
Definition bindable (v : value) : bool :=
  match v with
  | VInt z => (- 2 ^ 63 <=? z) && (z <? 2 ^ 63)
  | VStr s => encodable s
  | _ => true
  end.

(** Whether the [INSERT OR REPLACE] of a row goes through: the league and
    every column value bind, and [name], declared [NOT NULL], is not
    [None]. *)
Definition insert_ok (lg : list N) (cols : gmap string value) : bool :=
  encodable lg
  && bool_decide (map_Forall (fun _ v => bindable v = true) cols)
  && negb (is_none (default VNone (cols !! "name"))).

Section Interpreter.

Variable float_repr : Q -> list N.

(** [f"{p.get('name','')}_{p.get('club','')}_{league}"] *)
Definition ext_id_text (lg : list N) (p : merged) : list N :=
  py_format float_repr (default (VStr []) (m_fields p !! "name")) ++ u "_"
  ++ py_format float_repr (default (VStr []) (m_fields p !! "club")) ++ u "_"
  ++ lg.

(** The loop of [_save_players_to_db(self, players, league)] from its
    [i]-th turn on; [ts i] is the [CURRENT_TIMESTAMP] of the i-th statement.
    A record whose text does not encode or whose row is refused raises inside
    the [try] and is skipped.  ([str] of an [int] beyond the conversion limit
    raises as well; such an [int] does not bind either.  The handler puts the
    name into its log line: a name that is such an [int] makes the handler
    raise in turn, which is not followed here; the merger yields no such
    name, and the properties of this function exclude it where they depend
    on it, see [loggable].)  Returns the table and [saved]. *)
Fixpoint save_players_from (i : nat) (ts : nat -> Z) (lg : list N)
    (ps : list merged) (table : list (external_id * player_row)) (saved : nat)
    : list (external_id * player_row) * nat :=
  match ps with
  | [] => (table, saved)
  | p :: ps' =>
      let text := ext_id_text lg p in
      let cols := player_columns p in
      if encodable text && insert_ok lg cols then
        let ext_id := Md5 text in
        let row := {| columns := cols; player_league := lg; last_updated := ts i |} in
        save_players_from (S i) ts lg ps'
          (List.filter (fun kv => negb (bool_decide (kv.1 = ext_id))) table
           ++ [(ext_id, row)])
          (S saved)
      else save_players_from (S i) ts lg ps' table saved
  end.

Definition save_players_to_db (d : db) (ps : list merged) (lg : list N)
    (ts : nat -> Z) : db * nat :=
  let '(table, saved) := save_players_from 0 ts lg ps (players d) 0%nat in
  ({| cache := cache d; sync_history := sync_history d; players := table |}, saved).

(** What a source adapter's [scrape_league] does when called. *)
Inductive fetch_outcome : Type :=
| Fetched (data : list player)
| FetchRaised (e : list N).

(** [_fetch_with_error_handling(self, fetch_func, league, source_name)].
    The error [(source_name, e)] stands for the text
    [f"Failed to fetch from {source_name}: {e}"]. *)
Definition fetch_with_error_handling (fetch : fetch_outcome) (source_name : string)
    : list player * option (string * list N) :=
  match fetch with
  | Fetched data => (data, None)
  | FetchRaised e => ([], Some (source_name, e))
  end.

(** An entry of [results['errors']]: [FetchError source source_name e] stands
    for [f"{source}: Failed to fetch from {source_name}: {e}"] and
    [SyncFailed e] for [f"Sync failed: {e}"]. *)
Inductive message : Type :=
| FetchError (source source_name : string) (e : list N)
| SyncFailed (e : exn).

(** The dict [sync_league_data] returns; the keys ['completed_at'] and
    ['duration'] are absent until they are assigned. *)
Record results : Type := {
  r_league : list N;
  r_started_at : Z;
  r_sources : list (string * nat);
  r_total_players : nat;
  r_errors : list message;
  r_completed_at : option Z;
  r_duration : option Q
}.

(** What a sync run meets outside the aggregator: the configuration
    ([MAX_CONCURRENT_REQUESTS], whether [ASA_API_KEY] is set), what every
    adapter's fetch does, the rows the adapters' [make_request] calls write
    into the cache in the order the database takes them, and whether closing
    the Selenium driver raises. *)
Record env : Type := {
  max_concurrent_requests : Z;
  asa_configured : bool;
  scrape_league : string -> fetch_outcome;
  cache_writes : list (list N * cache_row);
  close_driver : option exn
}.

(** The clock readings of a run, in program order. *)
Record clock : Type := {
  t_log_started : Z;
  t_started : Z;
  t_merge : nat -> Z;
  t_save : nat -> Z;
  t_log_completed : Z;
  t_completed : Z;
  t_log_failed : Z
}.

(** The occasions on which [sync_league_data] calls [progress_callback]; the
    fraction and the message it passes are fixed by the occasion. *)
Inductive progress : Type :=
| Starting
| FetchedSource (source : string) (completed total_sources : nat)
| Merging
| Saving
| Finished (total_players : nat)
| Failing (x : exn).

(** A progress callback: for each call, whether it returns or raises.  It
    is handed a fraction and a text and does not reach the database. *)
Definition callback : Type := progress -> option exn.

(** [if progress_callback: progress_callback(...)] *)
Definition notify (progress_callback : option callback) (p : progress) : option exn :=
  match progress_callback with
  | Some f => f p
  | None => None
  end.

(** The futures submitted, in dict order: key and display name. *)
Definition adapters (e : env) : list (string * string) :=
  [("fbref", "FBref"); ("transfermarkt", "Transfermarkt");
   ("sofascore", "Sofascore")]%string
  ++ (if asa_configured e then [("asa", "ASA")]%string else []).

(** The database once the submitted fetches have run: the adapters write
    cache rows and nothing else. *)
Definition after_fetches (e : env) (d : db) : db :=
  {| cache := fold_left (fun c kr => <[kr.1 := kr.2]> c) (cache_writes e) (cache d);
     sync_history := sync_history d;
     players := players d |}.

(** The assignments [sync_league_data] makes to [results]. *)
Definition with_source (r : results) (source : string) (n : nat) : results :=
  {| r_league := r_league r; r_started_at := r_started_at r;
     r_sources := dict_set source n (r_sources r);
     r_total_players := r_total_players r; r_errors := r_errors r;
     r_completed_at := r_completed_at r; r_duration := r_duration r |}.

Definition with_error (r : results) (m : message) : results :=
  {| r_league := r_league r; r_started_at := r_started_at r;
     r_sources := r_sources r; r_total_players := r_total_players r;
     r_errors := r_errors r ++ [m];
     r_completed_at := r_completed_at r; r_duration := r_duration r |}.

Definition with_total_players (r : results) (n : nat) : results :=
  {| r_league := r_league r; r_started_at := r_started_at r;
     r_sources := r_sources r; r_total_players := n;
     r_errors := r_errors r;
     r_completed_at := r_completed_at r; r_duration := r_duration r |}.

(** [completed_at] and [duration], the latter in seconds. *)
Definition with_completion (r : results) (now : Z) : results :=
  {| r_league := r_league r; r_started_at := r_started_at r;
     r_sources := r_sources r; r_total_players := r_total_players r;
     r_errors := r_errors r;
     r_completed_at := Some now;
     r_duration := Some (Qred ((now - r_started_at r) # 1000000)) |}.

(** The assignments of one turn of [for source, future in futures.items()]. *)
Definition gather (e : env) (acc : list (string * list player) * results)
    (a : string * string) : list (string * list player) * results :=
  let '(source_data, r) := acc in
  let '(data, error) := fetch_with_error_handling (scrape_league e a.1) a.2 in
  (dict_set a.1 data source_data,
   match error with
   | Some (source_name, msg) => with_error r (FetchError a.1 source_name msg)
   | None => with_source r a.1 (length data)
   end).

(** The loop [for source, future in futures.items()] over the futures still
    to be read, [completed] of [total_sources] having been read: each turn
    ends with a call of the callback, and a call that raises ends the
    loop. *)
Fixpoint gather_from (e : env) (progress_callback : option callback)
    (total_sources : nat) (l : list (string * string)) (completed : nat)
    (acc : list (string * list player) * results)
    : list (string * list player) * results * option exn :=
  match l with
  | [] => (acc, None)
  | a :: l' =>
      let acc' := gather e acc a in
      match notify progress_callback
              (FetchedSource a.1 (S completed) total_sources) with
      | Some x => (acc', Some x)
      | None => gather_from e progress_callback total_sources l' (S completed) acc'
      end
  end.

(** The [try] block of [sync_league_data]: the database and the results as
    they stand when the block ends, and the exception that ended it, if
    any.  [ThreadPoolExecutor] refuses a worker count below one; once it is
    built every fetch is submitted and has run when the [with] block is
    left, also when the block is left by an exception. *)
Definition sync_try (e : env) (clk : clock) (d : db) (lg : list N) (r : results)
    (progress_callback : option callback) : db * results * option exn :=
  match notify progress_callback Starting with
  | Some x => (d, r, Some x)
  | None =>
  if max_concurrent_requests e <=? 0 then (d, r, Some ValueError)
  else
    let d1 := after_fetches e d in
    match gather_from e progress_callback (length (adapters e)) (adapters e) 0 ([], r) with
    | (_, r1, Some x) => (d1, r1, Some x)
    | (source_data, r1, None) =>
    match notify progress_callback Merging with
    | Some x => (d1, r1, Some x)
    | None =>
    match merge_player_data source_data lg (t_merge clk) with
    | Raise x => (d1, r1, Some x)
    | Ok merged_players =>
        let r2 := with_total_players r1 (length merged_players) in
        match notify progress_callback Saving with
        | Some x => (d1, r2, Some x)
        | None =>
        let d2 := (save_players_to_db d1 merged_players lg (t_save clk)).1 in
        let d3 := (log_sync d2 lg "all" "completed"
                     (Z.of_nat (r_total_players r2)) None (t_log_completed clk)).1 in
        match close_driver e with
        | Some x => (d3, r2, Some x)
        | None =>
        match notify progress_callback (Finished (r_total_players r2)) with
        | Some x => (d3, r2, Some x)
        | None => (d3, with_completion r2 (t_completed clk), None)
        end
        end
        end
    end
    end
    end
  end.

(** The handler of the [try] block, for the exception [x]: the failed record,
    the entry of [errors], and a call of the callback that is not guarded by
    any [try]; when that call raises, the exception leaves
    [sync_league_data]. *)
Definition sync_except (clk : clock) (lg : list N)
    (progress_callback : option callback) (d : db) (r : results) (x : exn)
    : db * result results :=
  let d' := (log_sync d lg "all" "failed" 0 (Some x) (t_log_failed clk)).1 in
  let r' := with_error r (SyncFailed x) in
  match notify progress_callback (Failing x) with
  | Some y => (d', Raise y)
  | None => (d', Ok r')
  end.

(** [sync_league_data(self, league, progress_callback=None)]: the database
    it leaves and what the call comes to, the dict it returns or the
    exception that escapes it. *)
Definition sync_league_data (e : env) (clk : clock) (d : db) (lg : list N)
    (progress_callback : option callback) : db * result results :=
  let '(d1, sync_id) := log_sync d lg "all" "started" 0 None (t_log_started clk) in
  let r0 := {| r_league := lg; r_started_at := t_started clk; r_sources := [];
               r_total_players := 0; r_errors := [];
               r_completed_at := None; r_duration := None |} in
  match sync_try e clk d1 lg r0 progress_callback with
  | (d2, r, None) => (d2, Ok r)
  | (d2, r, Some x) => sync_except clk lg progress_callback d2 r x
  end.

End Interpreter.

(** The id columns [get_data_coverage_report] counts, with the display name
    of their source. *)
Definition coverage_sources : list (string * string) :=
  [("fbref_id", "FBref"); ("transfermarkt_id", "Transfermarkt");
   ("sofascore_id", "Sofascore"); ("asa_id", "ASA")]%string.

(** [SELECT COUNT( * ) FROM players WHERE league = ?] *)
Definition count_league (d : db) (lg : list N) : nat :=
  length (List.filter (fun kr => bool_decide (player_league kr.2 = lg)) (players d)).

(** [SELECT COUNT( * ) FROM players WHERE league = ? AND idf IS NOT NULL] *)
Definition count_league_with (d : db) (lg : list N) (idf : string) : nat :=
  length (List.filter
            (fun kr => bool_decide (player_league kr.2 = lg)
                       && negb (is_none (default VNone (columns kr.2 !! idf))))
            (players d)).

(** [round((count / total * 100) if total else 0, 1)] *)
Definition coverage_percentage (count total : nat) : value :=
  match total with
  | O => VInt 0
  | _ => VFloat (round1 (inject_Z (Z.of_nat count) / inject_Z (Z.of_nat total) * 100))
  end.

(** The dict [get_data_coverage_report] returns; an entry of [cov_sources]
    is the source name with its ['count'] and ['percentage']. *)
Record coverage_report : Type := {
  cov_league : list N;
  cov_total_players : nat;
  cov_sources : list (string * (nat * value))
}.

(** [get_data_coverage_report(self, league)] *)
Definition get_data_coverage_report (d : db) (lg : list N) : coverage_report :=
  let total := count_league d lg in
  {| cov_league := lg;
     cov_total_players := total;
     cov_sources :=
       fold_left
         (fun coverage '(idf, name) =>
            let count := count_league_with d lg idf in
            dict_set name (count, coverage_percentage count total) coverage)
         coverage_sources [] |}.

End DataAggregator.

(** ** Vocabulary of the properties *)

Import Py BaseScraper DatabaseManager Fetching DataAggregator.

(** A code point that [isdigit] keeps and [int] cannot read. *)
Definition undecodable (c : N) : bool :=
  isdigit c && negb (bool_decide (is_Some (decimal_value c))).

(** [parse_number] as the specification words it: the ASCII digits of the
    text, concatenated in order and read in base ten; the default when there
    is none. *)
Definition parse_number_claimed (text : list N) (default : Z) : Z :=
  match List.filter (fun c => (48 <=? c)%N && (c <=? 57)%N) text with
  | [] => default
  | ds => digits_value (List.map (fun c => (c - 48)%N) ds)
  end.

(** A write to the cache: [cache_set] or [clear_expired_cache]. *)
Inductive cache_op : Type :=
| CacheSet (key val : list N) (ttl_seconds now ts : Z)
| CacheSweep (now : Z).

Definition run_cache_op (d : db) (op : cache_op) : db :=
  match op with
  | CacheSet key val ttl now ts => cache_set d key val ttl now ts
  | CacheSweep now => (clear_expired_cache d now).1
  end.

(** An operation that may come between a [cache_set] of [key] and a read at
    time [t]: a [cache_set] of another key, or a sweep that ran no later than
    the read. *)
Definition intervening (key : list N) (t : Z) (op : cache_op) : Prop :=
  match op with
  | CacheSet k _ _ _ _ => k <> key
  | CacheSweep now => now <= t
  end.

(** The ledger row [log_sync] writes into a ledger that holds [n] rows. *)
Definition ledger_row (n : nat) (lg : list N) (st : string) (records : Z)
    (error : option exn) (ts : Z) : sync_row :=
  {| row_id := Z.of_nat n + 1; row_league := lg; row_source := "all";
     row_status := st; records_synced := records; error_message := error;
     started_at := ts; completed_at := ts |}.

(** The entries the fetch stage puts into [results['errors']]. *)
Definition fetch_errors (e : env) (l : list (string * string)) : list message :=
  omap (fun a => match scrape_league e a.1 with
                 | FetchRaised msg => Some (FetchError a.1 a.2 msg)
                 | Fetched _ => None
                 end) l.

(** An entry of [errors] written by the fetch stage. *)
Definition is_fetch_error (m : message) : Prop :=
  match m with FetchError _ _ _ => True | SyncFailed _ => False end.

(** What the adapters that succeeded returned, in dict order. *)
Definition fetched_data (e : env) : list (string * list player) :=
  omap (fun a => match scrape_league e a.1 with
                 | Fetched data => Some (a.1, data)
                 | FetchRaised _ => None
                 end) (adapters e).

(** The list an adapter leaves in [source_data]. *)
Definition data_of (e : env) (a : string * string) : list player :=
  (fetch_with_error_handling (scrape_league e a.1) a.2).1.

(** What one turn of the loop over [fields] leaves under key [f], from what
    the merged record and the candidate hold there. *)
Definition field_step (f : string) (old new : option value) : result (option value) :=
  match new with
  | Some v =>
      if is_none v then Ok old
      else match old with
           | None => Ok (Some v)
           | Some o =>
               if String.eqb f "market_value" then Some <$> py_max o v
               else if String.eqb f "rating" then Some <$> rating_mean o v
               else Ok (Some (if is_none o then v else o))
           end
  | None => Ok old
  end.

(** What the loop over [stats] leaves under a key of [stats]. *)
Definition stat_step (old new : option value) : option value :=
  match new with
  | Some v => if is_none v then old else Some v
  | None => old
  end.

(** Every candidate of a sync with its source, in the order the merger
    folds them. *)
Definition candidates (sd : list (string * list player)) : list (string * player) :=
  flat_map (fun sp => List.map (pair sp.1) sp.2) sd.

(** The match key of a candidate, as [_merge_player_data] asks for it. *)
Definition player_key (p : player) : result (list N) :=
  generate_player_key (default (VStr []) (p !! "name"))
                      (default (VStr []) (p !! "club")).

(** The candidates that share a match key. *)
Definition cluster (key : list N) (cands : list (string * player)) : list (string * player) :=
  List.filter (fun sp => bool_decide (player_key sp.2 = Ok key)) cands.

(** The record a new key starts from. *)
Definition new_entry (lg : list N) (t : Z) : merged :=
  {| m_league := lg; m_sources := []; m_last_updated := t; m_fields := ∅ |}.

(** The fold of the candidates of one cluster into its record. *)
Definition fold_cluster (mg : merged) (cands : list (string * player)) : result merged :=
  fold_result (fun m sp => merge_player_info m sp.2 sp.1) cands mg.

(** Every stored source record that reports a rating has put one into the
    merged record. *)
Definition rated_covered (m : merged) : Prop :=
  forall sp r, sp ∈ m_sources m -> (sp.2 : player) !! "rating" = Some r ->
               is_none r = false -> is_Some (m_fields m !! "rating").

(** The value a dict holds under a key, when there is one and it is not
    [None]. *)
Definition non_null (o : option value) : option value :=
  match o with
  | Some v => if is_none v then None else Some v
  | None => None
  end.

(** The non-null values the candidates of a cluster report for a field, in
    fold order. *)
Definition non_null_values (f : string) (cands : list (string * player)) : list value :=
  omap (fun sp => non_null ((sp.2 : player) !! f)) cands.

(** The fields of [fields] other than [market_value] and [rating]. *)
Definition first_wins_fields : list string :=
  ["name"; "age"; "position"; "club"; "nationality"; "goals"; "assists";
   "matches"; "minutes_played"; "yellow_cards"; "red_cards"]%string.




(** A token: a non-empty run of code points none of which is a blank. *)
Definition is_token (t : list N) : Prop :=
  t <> [] /\ Forall (fun c => isspace c = false) t.

(** A text with no blank at either end. *)
Definition trimmed (s : list N) : Prop := lstrip s = s /\ rstrip s = s.

(** A text of Basic Latin and Latin-1 code points, the range on which
    [lower_cp] is the lower-casing of [str.lower]. *)
Definition latin1 (s : list N) : Prop := Forall (fun c => (c < 256)%N) s.

(** What the key is made of: the first and last lower-cased tokens of the
    name, whether there is more than one, and the normalised club. *)
Definition key_parts (name club : list N)
    : option (list N) * option (list N) * bool * list N :=
  let n := List.map lower (split name) in
  (head n, last n, (1 <? length n)%nat, strip (lower club)).

(** The identifier [_save_players_to_db] computes for a merged record. *)
Definition ext_id_of (float_repr : Q -> list N) (lg : list N) (p : merged)
    : external_id :=
  Md5 (ext_id_text float_repr lg p).

(** The merged records that [_save_players_to_db] stores: the text of the
    identifier encodes and the [INSERT OR REPLACE] goes through. *)
Definition insertable (float_repr : Q -> list N) (lg : list N) (p : merged) : bool :=
  encodable (ext_id_text float_repr lg p) && insert_ok lg (player_columns p).

(** A record whose name the handler of [_save_players_to_db] can put into
    its log line: any name but an [int] too long for [str].  An [int] of up
    to 640 digits is printed whatever the conversion limit is set to. *)
Definition loggable (p : merged) : bool :=
  match m_fields p !! "name" with
  | Some (VInt z) => Z.abs z <? 10 ^ 640
  | _ => true
  end.

(** One [INSERT OR REPLACE INTO players]. *)
Definition upsert (table : list (external_id * player_row)) (k : external_id)
    (row : player_row) : list (external_id * player_row) :=
  List.filter (fun kv => negb (bool_decide (kv.1 = k))) table ++ [(k, row)].

(** What the loop over the id fields leaves under one of them. *)
Definition id_step (old new : option value) : option value :=
  match new with
  | Some v => if truthy v then Some v else old
  | None => old
  end.

(** The truthy values the candidates of a cluster report for a field, in
    fold order. *)
Definition truthy_values (f : string) (cands : list (string * player)) : list value :=
  omap (fun sp => match (sp.2 : player) !! f with
                  | Some v => if truthy v then Some v else None
                  | None => None
                  end) cands.

(** The records one source contributes to a list of candidates. *)
Definition records_of (src : string) (cands : list (string * player)) : list player :=
  List.map snd (List.filter (fun sp => bool_decide (sp.1 = src)) cands).

(** Every key [_merge_player_info] may assign. *)
Definition merged_keys : list string := fields ++ id_fields ++ stats.

(** Every entry of a merged record sits under a key of the three lists, is
    not [None] and, unless it is the rating, is a value that a candidate of
    [cands] reports under the same key. *)
Definition reported_by (cands : list (string * player)) (m : gmap string value) : Prop :=
  forall k v, m !! k = Some v ->
    k ∈ merged_keys /\ is_none v = false
    /\ (k <> "rating"%string -> exists sp, sp ∈ cands /\ (sp.2 : player) !! k = Some v).

(** A number between two integer bounds. *)
Definition number_between (lo hi : Z) (w : value) : Prop :=
  exists q, num w = Some q /\ (inject_Z lo <= q)%Q /\ (q <= inject_Z hi)%Q.

(** A candidate whose rating, when it reports one, is a number between two
    integer bounds. *)
Definition rating_between (lo hi : Z) (p : player) : Prop :=
  forall w, p !! "rating" = Some w -> is_none w = false -> number_between lo hi w.

(** The entry of [results['sources']] for every adapter that answered. *)
Definition source_counts (e : env) : list (string * nat) :=
  List.map (fun sp => (sp.1, length sp.2)) (fetched_data e).

(** A callback that never raises; no callback is one. *)
Definition quiet (progress_callback : option callback) : Prop :=
  forall p, notify progress_callback p = None.

(** The exception a result stands for, if it is one. *)
Definition raised {A : Type} (r : result A) : option exn :=
  match r with
  | Ok _ => None
  | Raise x => Some x
  end.

(** What [_merge_player_data] returns for the fetched records of a run; the
    empty list when it raises. *)
Definition merged_of (e : env) (clk : clock) (lg : list N) : list merged :=
  match merge_player_data (fetched_data e) lg (t_merge clk) with
  | Ok merged_players => merged_players
  | Raise _ => []
  end.

(** The results as [sync_league_data] sets them up, and as they stand once
    every future has been read. *)
Definition initial_results (clk : clock) (lg : list N) : results :=
  {| r_league := lg; r_started_at := t_started clk; r_sources := [];
     r_total_players := 0; r_errors := [];
     r_completed_at := None; r_duration := None |}.

Definition fetched_results (e : env) (clk : clock) (lg : list N) : results :=
  {| r_league := lg; r_started_at := t_started clk;
     r_sources := List.map (fun sp => (sp.1, length sp.2)) (fetched_data e);
     r_total_players := 0; r_errors := fetch_errors e (adapters e);
     r_completed_at := None; r_duration := None |}.

(** The callback's calls in the loop over the futures, in order. *)
Definition fetch_calls (e : env) : list progress :=
  imap (fun i a => FetchedSource a.1 (S i) (length (adapters e))) (adapters e).

(** The steps of the [try] block that can raise, in program order, each
    with the exception it raises in this run.  Up to the end of the loop
    over the futures: the first call of the callback, the construction of the
    executor, the callback's call for each future. *)
Definition steps_of_fetch (e : env) (progress_callback : option callback)
    : list (option exn) :=
  [notify progress_callback Starting;
   if max_concurrent_requests e <=? 0 then Some ValueError else None]
  ++ List.map (notify progress_callback) (fetch_calls e).

(** From there to the save: the callback's call before the merge, the merge,
    the callback's call before the save. *)
Definition steps_of_merge (e : env) (clk : clock) (lg : list N)
    (progress_callback : option callback) : list (option exn) :=
  [notify progress_callback Merging;
   raised (merge_player_data (fetched_data e) lg (t_merge clk));
   notify progress_callback Saving].

Definition steps_before_save (e : env) (clk : clock) (lg : list N)
    (progress_callback : option callback) : list (option exn) :=
  steps_of_fetch e progress_callback ++ steps_of_merge e clk lg progress_callback.

(** The steps that can raise once the players are saved and the completed
    record is written: the driver shutdown and the callback's last call. *)
Definition steps_after_save (e : env) (clk : clock) (lg : list N)
    (progress_callback : option callback) : list (option exn) :=
  [close_driver e;
   notify progress_callback (Finished (length (merged_of e clk lg)))].

(** The exception of the first step that raises. *)
Definition first_raised (steps : list (option exn)) : option exn :=
  head (omap id steps).

(** *** Sample data *)

(** Sample records: one player seen by three sources. *)
Definition smith (extra : list (string * value)) : player :=
  list_to_map ([("name", VStr (u "John Smith")); ("club", VStr (u "FC X"))]%string ++ extra).

Definition smith_fbref : player :=
  smith [("market_value", VInt 100); ("age", VInt 24); ("rating", VFloat 7);
         ("xg", VInt 1)]%string.

Definition smith_transfermarkt : player :=
  smith [("market_value", VInt 200); ("age", VNone); ("rating", VFloat (15 # 2));
         ("xg", VInt 2)]%string.

Definition smith_sofascore : player :=
  smith [("market_value", VInt 150); ("age", VInt 25)]%string.

Definition sample_sources : list (string * list player) :=
  [("fbref", [smith_fbref]); ("transfermarkt", [smith_transfermarkt]);
   ("sofascore", [smith_sofascore])]%string.

(** The merged record after the first and after the second sample fold. *)
Definition sample_first : merged :=
  match merge_player_info (new_entry (u "MLS") 3) smith_fbref "fbref" with
  | Ok m => m
  | Raise _ => new_entry (u "MLS") 3
  end.

Definition sample_second : merged :=
  match merge_player_info sample_first smith_transfermarkt "transfermarkt" with
  | Ok m => m
  | Raise _ => sample_first
  end.

Definition sample_clock : clock :=
  {| t_log_started := 1; t_started := 2; t_merge := fun _ => 3;
     t_save := fun _ => 4; t_log_completed := 5; t_completed := 6;
     t_log_failed := 7 |}.

(** The record the sample sources merge into. *)
Definition sample_merged : list merged :=
  match merge_player_data sample_sources (u "MLS") (t_merge sample_clock) with
  | Ok finals => finals
  | Raise _ => []
  end.

(** Merged records whose names and clubs join to the same text, and one
    whose name cannot be encoded. *)
Definition named (name club : list N) : merged :=
  {| m_league := u "MLS"; m_sources := []; m_last_updated := 3;
     m_fields := {[ "name"%string := VStr name; "club"%string := VStr club ]} |}.

Definition underscore_name : merged := named (u "a_b") (u "c").
Definition underscore_club : merged := named (u "a") (u "b_c").
Definition surrogate_name : merged := named [55296%N] (u "c").

(** A cache row an adapter writes while it fetches. *)
Definition sample_page : cache_row :=
  {| cache_value := u "<html>"; expiry := 21600000002; created_at := 2 |}.

(** [repr] of a float as the samples need it: no sample name or club is a
    float. *)
Definition sample_repr (q : Q) : list N := u "0.0".

(** A callback that never raises, as the application passes one; one that
    raises when it is told of a failure; one that raises at its first
    call. *)
Definition silent_callback : callback := fun _ => None.

Definition failing_callback : callback :=
  fun p => match p with Failing _ => Some (OtherException "StreamlitAPIException") | _ => None end.

Definition raising_callback : callback :=
  fun p => match p with Starting => Some (OtherException "StreamlitAPIException") | _ => None end.

(** A run in which FBref fails and the other two adapters answer. *)
Definition one_failure_env (shutdown : option exn) : env :=
  {| max_concurrent_requests := 3;
     asa_configured := false;
     scrape_league := fun s =>
       if String.eqb s "fbref" then FetchRaised (u "timed out")
       else match dict_get s sample_sources with
            | Some data => Fetched data
            | None => Fetched []
            end;
     cache_writes := [(u "https://fbref.com/en/comps/22", sample_page)];
     close_driver := shutdown |}.

(** The one record the sample sources merge into. *)
Definition sample_record : merged :=
  match sample_merged with
  | m :: _ => m
  | [] => new_entry (u "MLS") 3
  end.

(** What the two sources that answered merge into. *)
Definition surviving_merged : list merged :=
  match merge_player_data (List.tail sample_sources) (u "MLS") (t_merge sample_clock) with
  | Ok finals => finals
  | Raise _ => []
  end.

(** A run in which FBref fails and Transfermarkt returns a row for which it
    found no club. *)
Definition no_club_env : env :=
  {| max_concurrent_requests := 3;
     asa_configured := false;
     scrape_league := fun s =>
       if String.eqb s "fbref" then FetchRaised (u "timed out")
       else if String.eqb s "transfermarkt"
       then Fetched [{[ "name" := VStr (u "John Smith"); "club" := VNone ]}]
       else Fetched [];
     cache_writes := [(u "https://fbref.com/en/comps/22", sample_page)];
     close_driver := None |}.

(** A run configured with [MAX_CONCURRENT_REQUESTS=0]. *)
Definition no_worker_env : env :=
  {| max_concurrent_requests := 0;
     asa_configured := false;
     scrape_league := fun _ => Fetched [];
     cache_writes := [];
     close_driver := None |}.

(** A run in which every adapter answers with an empty list. *)
Definition quiet_env : env :=
  {| max_concurrent_requests := 3;
     asa_configured := false;
     scrape_league := fun _ => Fetched [];
     cache_writes := [];
     close_driver := None |}.

Definition sample_table : db :=
  (save_players_to_db sample_repr empty_db surviving_merged (u "MLS") (fun _ => 4)).1.

(** The sample sources for the id fields: FBref lists the player twice, the
    second time with an empty Sofascore id. *)
Definition doe (extra : list (string * value)) : player :=
  list_to_map ([("name", VStr (u "Jane Doe")); ("club", VStr (u "FC Y"))]%string ++ extra).

Definition id_sources : list (string * list player) :=
  [("fbref", [doe [("fbref_id", VStr (u "a1")); ("sofascore_id", VInt 5)];
              doe [("fbref_id", VStr (u "b2")); ("sofascore_id", VStr [])]]);
   ("sofascore", [doe [("sofascore_id", VInt 77)]; smith_sofascore])]%string.

Definition id_merged : list merged :=
  match merge_player_data id_sources (u "MLS") (fun _ => 3) with
  | Ok finals => finals
  | Raise _ => []
  end.

Definition id_record : merged :=
  match id_merged with
  | m :: _ => m
  | [] => new_entry (u "MLS") 3
  end.

(** A run in which every adapter's fetch raises. *)
Definition all_fail_env : env :=
  {| max_concurrent_requests := 3;
     asa_configured := true;
     scrape_league := fun _ => FetchRaised (u "timed out");
     cache_writes := [];
     close_driver := None |}.

(** ** Properties *)

#[local] Arguments adapters : simpl never.

(** *** [parse_number] *)

Lemma isdigit_cases (c : N) :
  (exists d, decimal_value c = Some d /\ isdigit c = true /\ undecodable c = false)
  \/ (decimal_value c = None /\ isdigit c = true /\ undecodable c = true)
  \/ (decimal_value c = None /\ isdigit c = false /\ undecodable c = false).
Proof.
  unfold undecodable, isdigit.
  destruct (decimal_value c) as [d|]; [left; eauto|].
  destruct (digit_only c); [right; left | right; right]; auto.
Qed.

Lemma mapM_cleaned_decimal (text : list N) :
  existsb undecodable text = false ->
  mapM decimal_value (List.filter isdigit text) = Some (omap decimal_value text).
Proof.
  induction text as [|c text IH]; [reflexivity|].
  cbn [existsb List.filter]. rewrite orb_false_iff. intros [Hc Ht].
  destruct (isdigit_cases c) as [(d & Hd & Hi & _) | [(_ & _ & Hu) | (Hd & Hi & _)]];
    [| congruence |]; rewrite Hi.
  - cbn. rewrite Hd. cbn. rewrite (IH Ht). reflexivity.
  - cbn. rewrite Hd. exact (IH Ht).
Qed.

Lemma mapM_cleaned_undecodable (text : list N) :
  existsb undecodable text = true ->
  mapM decimal_value (List.filter isdigit text) = None.
Proof.
  induction text as [|c text IH]; [discriminate|].
  cbn [existsb List.filter]. rewrite orb_true_iff.
  destruct (isdigit_cases c) as [(d & Hd & Hi & Hu) | [(Hd & Hi & _) | (Hd & Hi & Hu)]];
    rewrite Hi.
  - intros [Hc|Ht]; [congruence|]. cbn. rewrite Hd. cbn. rewrite (IH Ht). reflexivity.
  - intros _. cbn. rewrite Hd. reflexivity.
  - intros [Hc|Ht]; [congruence|]. exact (IH Ht).
Qed.

Lemma digits_value_from (ds : list N) (a : Z) :
  0 <= a -> 0 <= fold_left (fun acc d => 10 * acc + Z.of_N d) ds a.
Proof.
  revert a. induction ds as [|d ds IH]; simpl; intros a Ha; [exact Ha|].
  apply IH. lia.
Qed.

Lemma cleaned_nil (text : list N) :
  List.filter isdigit text = [] <-> forallb (fun c => negb (isdigit c)) text = true.
Proof.
  induction text as [|c text IH]; [cbn; tauto|].
  cbn [List.filter forallb]. destruct (isdigit c); cbn [negb andb];
    [split; discriminate | exact IH].
Qed.

Lemma omap_decimal_length (text : list N) :
  existsb undecodable text = false ->
  length (omap decimal_value text) = length (List.filter isdigit text).
Proof.
  intros H. pose proof (mapM_cleaned_decimal text H) as E.
  apply length_mapM in E. symmetry. exact E.
Qed.

(** C10, as the code has it.  [parse_number] never raises: it is a total
    function.  With no [isdigit] character in the text it returns the default.
    With an [isdigit] character that [int] cannot read (a superscript, a
    subscript, a circled digit), or with more digits than the interpreter's
    conversion limit allows, [int] fails and the default is returned.
    Otherwise it returns the number that the decimal digits of the text spell
    in order, every other character being ignored; that number is not
    negative. *)
Theorem parse_number_amended (lim : N) (text : list N) (default : Z) :
  let digits := omap decimal_value text in
  parse_number lim text default =
    (if forallb (fun c => negb (isdigit c)) text then default
     else if existsb undecodable text then default
     else if negb (lim =? 0)%N && (lim <? N.of_nat (length digits))%N then default
     else digits_value digits)
  /\ 0 <= digits_value digits.
Proof.
  intros digits. split; [|apply digits_value_from; lia].
  unfold parse_number, parse_number_try.
  destruct (forallb (fun c => negb (isdigit c)) text) eqn:Hnone.
  - apply cleaned_nil in Hnone. rewrite Hnone. reflexivity.
  - assert (Hne : List.filter isdigit text <> []).
    { intros E. apply cleaned_nil in E. congruence. }
    destruct (List.filter isdigit text) as [|c cl] eqn:Hcl; [congruence|].
    rewrite <- Hcl. unfold int_of_digits.
    destruct (existsb undecodable text) eqn:Hbad.
    + rewrite (mapM_cleaned_undecodable _ Hbad). reflexivity.
    + rewrite (mapM_cleaned_decimal _ Hbad).
      rewrite <- (omap_decimal_length _ Hbad). fold digits.
      destruct (negb (lim =? 0)%N && (lim <? N.of_nat (length digits))%N); [reflexivity|].
      destruct digits as [|d ds] eqn:Hds; [|reflexivity].
      pose proof (omap_decimal_length _ Hbad) as L. fold digits in L.
      rewrite Hds, Hcl in L. discriminate.
Qed.

(** A minus sign and a decimal point are dropped; digits of another script
    are read by their value. *)
Lemma parse_number_examples :
  parse_number 4300 (u "-5") 0 = 5
  /\ parse_number 4300 (u "3.7") 0 = 37
  /\ parse_number 4300 (u "n/a") 9 = 9
  /\ parse_number 4300 [1635%N; 1633%N] 0 = 31.
Proof. vm_compute. repeat split. Qed.

(** C10 as worded fails on the text "5²": the only ASCII digit is 5, but
    [isdigit] keeps the superscript as well, [int] refuses it and the default
    comes back. *)
Lemma parse_number_superscript :
  parse_number 4300 (u "5" ++ [178%N]) 0 = 0
  /\ parse_number_claimed (u "5" ++ [178%N]) 0 = 5
  /\ parse_number 4300 (u "5" ++ [178%N]) 0 <> parse_number_claimed (u "5" ++ [178%N]) 0.
Proof. vm_compute. repeat split. discriminate. Qed.

(** Digits of every script are read by their value, and a digit that is
    not a decimal digit makes [int] fail, whatever its block. *)
Lemma parse_number_unicode_examples :
  parse_number 4300 [120783%N; 120784%N] 0 = 12
  /\ parse_number 4300 (u "5" ++ [9332%N]) 0 = 0
  /\ parse_number 4300 [6112%N; 6121%N] 7 = 9
  /\ parse_number 4300 [4969%N] 7 = 7.
Proof. vm_compute. repeat split. Qed.

(** *** The response cache *)

Lemma cache_get_Some (d : db) (key : list N) (now : Z) (v : list N) :
  cache_get d key now = Some v <->
  exists row, cache d !! key = Some row /\ cache_value row = v /\ now < expiry row.
Proof.
  unfold cache_get. destruct (cache d !! key) as [row|].
  - destruct (Z.ltb_spec now (expiry row)); split.
    + intros [= <-]. eauto.
    + intros (row' & [= <-] & <- & _). reflexivity.
    + discriminate.
    + intros (row' & [= <-] & _ & ?). lia.
  - split; [discriminate | intros (row & [=] & _)].
Qed.

Lemma run_ops_keeps_live (key : list N) (row : cache_row) (t : Z) (ops : list cache_op) :
  forall d,
    cache d !! key = Some row -> t < expiry row ->
    Forall (intervening key t) ops ->
    cache (fold_left run_cache_op ops d) !! key = Some row.
Proof.
  induction ops as [|op ops IH]; intros d Hrow Hlive Hops; [exact Hrow|].
  inversion Hops as [|? ? Hop Hrest]; subst. cbn [fold_left].
  apply IH; [|exact Hlive|exact Hrest].
  destruct op as [k v ttl now ts | now]; cbn in *.
  - rewrite lookup_insert_ne; [exact Hrow | exact Hop].
  - apply map_lookup_filter_Some. split; [exact Hrow|]. cbn. lia.
Qed.

Lemma run_ops_no_other_value (key : list N) (row : cache_row) (t : Z) (ops : list cache_op) :
  forall d,
    cache d !! key = Some row \/ cache d !! key = None ->
    Forall (intervening key t) ops ->
    cache (fold_left run_cache_op ops d) !! key = Some row
    \/ cache (fold_left run_cache_op ops d) !! key = None.
Proof.
  induction ops as [|op ops IH]; intros d Hrow Hops; [exact Hrow|].
  inversion Hops as [|? ? Hop Hrest]; subst. cbn [fold_left].
  apply IH; [|exact Hrest].
  destruct op as [k v ttl now ts | now]; cbn in *.
  - rewrite lookup_insert_ne; [exact Hrow | exact Hop].
  - destruct (filter (λ kv : list N * cache_row, ¬ expiry kv.2 < now) (cache d) !! key)
      as [r|] eqn:E; [|right; reflexivity].
    apply map_lookup_filter_Some in E as [E _].
    destruct Hrow as [Hrow|Hrow]; rewrite Hrow in E; [left; congruence | discriminate].
Qed.

(** C8.  A read of the cache returns a value exactly when the key has a row
    whose expiry lies strictly after the read time.  After [cache_set] of a
    key, and whatever sets of other keys and sweeps come in between, a read
    before [now + ttl] returns the value that was set, and a read at or after
    that instant reports the key absent. *)
Theorem cache_get_ttl (d : db) (key val : list N) (ttl now ts : Z)
    (ops : list cache_op) (t : Z) :
  Forall (intervening key t) ops ->
  let d' := fold_left run_cache_op ops (cache_set d key val ttl now ts) in
  (forall k v, cache_get d' k t = Some v <->
     exists row, cache d' !! k = Some row /\ cache_value row = v /\ t < expiry row)
  /\ (t < now + ttl * 1000000 -> cache_get d' key t = Some val)
  /\ (now + ttl * 1000000 <= t -> cache_get d' key t = None).
Proof.
  intros Hops d'. split; [intros k v; apply cache_get_Some|].
  set (row := {| cache_value := val; expiry := now + ttl * 1000000; created_at := ts |}).
  assert (Hset : cache (cache_set d key val ttl now ts) !! key = Some row).
  { cbn. apply lookup_insert_eq. }
  split.
  - intros Hlive. apply cache_get_Some. exists row. split; [|split; [reflexivity|exact Hlive]].
    apply run_ops_keeps_live with (t := t); [exact Hset | exact Hlive | exact Hops].
  - intros Hdead. unfold cache_get.
    destruct (run_ops_no_other_value key row t ops _ (or_introl Hset) Hops) as [E|E];
      fold d' in E; rewrite E; [|reflexivity].
    cbn. destruct (Z.ltb_spec t (now + ttl * 1000000)); [lia|reflexivity].
Qed.

(** A value set at time 10 for 60 seconds survives two sweeps and a set of
    another key, and is gone once the 60 seconds have passed. *)
Lemma cache_get_ttl_witness :
  let ops := [CacheSweep 20; CacheSet (u "other") (u "x") 1 30 30; CacheSweep 40] in
  let d' := fold_left run_cache_op ops (cache_set empty_db (u "k") (u "payload") 60 10 10) in
  cache_get d' (u "k") 50 = Some (u "payload")
  /\ cache_get d' (u "k") 60000010 = None.
Proof.
  intros ops d'.
  split.
  - refine (proj1 (proj2 (cache_get_ttl empty_db (u "k") (u "payload") 60 10 10 ops 50 _)) _).
    + repeat constructor; cbn; try lia; discriminate.
    + lia.
  - refine (proj2 (proj2 (cache_get_ttl empty_db (u "k") (u "payload") 60 10 10 ops 60000010 _)) _).
    + repeat constructor; cbn; try lia; discriminate.
    + lia.
Defined.

(** *** Dicts and fallible folds *)

Lemma fold_result_app {A B : Type} (f : A -> B -> result A) (l1 l2 : list B) (a : A) :
  fold_result f (l1 ++ l2) a = (fold_result f l1 a ≫= fold_result f l2).
Proof.
  revert a. induction l1 as [|b l1 IH]; intros a; cbn; [reflexivity|].
  destruct (f a b) as [a'|x]; cbn; [apply IH | reflexivity].
Qed.

Lemma dict_get_set_eq {K V : Type} `{EqDecision K} (k : K) (v : V) (d : list (K * V)) :
  dict_get k (dict_set k v d) = Some v.
Proof.
  induction d as [|[k' v'] d IH]; cbn.
  - destruct (decide (k = k)); [reflexivity | contradiction].
  - destruct (decide (k = k')) as [->|Hne]; cbn.
    + destruct (decide (k' = k')); [reflexivity | contradiction].
    + destruct (decide (k = k')); [contradiction | exact IH].
Qed.

Lemma dict_get_set_ne {K V : Type} `{EqDecision K} (k k' : K) (v : V) (d : list (K * V)) :
  k <> k' -> dict_get k (dict_set k' v d) = dict_get k d.
Proof.
  intros Hne. induction d as [|[k0 v0] d IH]; cbn.
  - destruct (decide (k = k')); [contradiction | reflexivity].
  - destruct (decide (k' = k0)) as [->|Hne0]; cbn.
    + destruct (decide (k = k0)); [contradiction | reflexivity].
    + destruct (decide (k = k0)); [reflexivity | exact IH].
Qed.

Lemma dict_set_fresh {K V : Type} `{EqDecision K} (k : K) (v : V) (d : list (K * V)) :
  dict_get k d = None -> dict_set k v d = d ++ [(k, v)].
Proof.
  induction d as [|[k' v'] d IH]; cbn; [reflexivity|].
  destruct (decide (k = k')); [discriminate|]. intros Hd. rewrite (IH Hd). reflexivity.
Qed.

Lemma dict_get_snoc_ne {K V : Type} `{EqDecision K} (k k' : K) (v : V) (d : list (K * V)) :
  k <> k' -> dict_get k (d ++ [(k', v)]) = dict_get k d.
Proof.
  intros Hne. induction d as [|[k0 v0] d IH]; cbn.
  - destruct (decide (k = k')); [contradiction | reflexivity].
  - destruct (decide (k = k0)); [reflexivity | exact IH].
Qed.

Lemma dict_set_elem {K V : Type} `{EqDecision K} (k : K) (v : V) (d : list (K * V)) (x : K * V) :
  x ∈ dict_set k v d -> x = (k, v) \/ x ∈ d.
Proof.
  induction d as [|[k' v'] d IH]; cbn.
  - rewrite list_elem_of_singleton. auto.
  - destruct (decide (k = k')); rewrite !elem_of_cons.
    + intros [->|?]; auto.
    + intros [->|Hx]; [auto|]. destruct (IH Hx); auto.
Qed.

Lemma dict_get_elem {K V : Type} `{EqDecision K} (k : K) (v : V) (d : list (K * V)) :
  dict_get k d = Some v -> (k, v) ∈ d.
Proof.
  induction d as [|[k' v'] d IH]; cbn; [discriminate|].
  destruct (decide (k = k')) as [->|Hne].
  - intros [= ->]. left.
  - intros Hd. right. exact (IH Hd).
Qed.

Lemma dict_set_Forall {K V : Type} `{EqDecision K} (P : K * V -> Prop) (k : K) (v : V)
    (d : list (K * V)) :
  Forall P d -> P (k, v) -> Forall P (dict_set k v d).
Proof.
  intros Hd Hv. induction Hd as [|[k' v'] d Hx Hd IH]; cbn.
  - repeat constructor. exact Hv.
  - destruct (decide (k = k')); constructor; auto.
Qed.

Lemma dict_set_NoDup {K V : Type} `{EqDecision K} (k : K) (v : V) (d : list (K * V)) :
  NoDup (List.map fst d) -> NoDup (List.map fst (dict_set k v d)).
Proof.
  induction d as [|[k' v'] d IH]; cbn; intros Hnd.
  - apply NoDup_singleton.
  - apply NoDup_cons in Hnd as [Hk' Hnd].
    destruct (decide (k = k')) as [->|Hne]; cbn; apply NoDup_cons; split; auto.
    intros Hin. apply list_elem_of_In, in_map_iff in Hin as ([k0 v0] & E & Hin).
    cbn in E. subst k0. apply list_elem_of_In, dict_set_elem in Hin as [[= -> ->]|Hin];
      [contradiction|].
    apply Hk', list_elem_of_In, in_map_iff. exists (k', v0). split; [reflexivity|].
    apply list_elem_of_In. exact Hin.
Qed.

Lemma dict_get_NoDup {K V : Type} `{EqDecision K} (k : K) (v : V) (d : list (K * V)) :
  NoDup (List.map fst d) -> (k, v) ∈ d -> dict_get k d = Some v.
Proof.
  induction d as [|[k' v'] d IH]; cbn; intros Hnd Hin; [inversion Hin|].
  apply NoDup_cons in Hnd as [Hk' Hnd].
  apply elem_of_cons in Hin as [[= -> ->]|Hin].
  - destruct (decide (k' = k')); [reflexivity | contradiction].
  - destruct (decide (k = k')) as [->|Hne]; [|auto].
    exfalso. apply Hk', list_elem_of_In, in_map_iff. exists (k', v). split; [reflexivity|].
    apply list_elem_of_In. exact Hin.
Qed.

(** *** One step of the field merger *)

Lemma merge_field_at (p : player) (m m' : gmap string value) (f : string) :
  merge_field p m f = Ok m' -> field_step f (m !! f) (p !! f) = Ok (m' !! f).
Proof.
  unfold merge_field, field_step.
  destruct (p !! f) as [v|]; [|intros [= <-]; reflexivity].
  destruct (is_none v); cbv iota. 1: intros H; injection H as <-; reflexivity.
  destruct (m !! f) as [o|] eqn:Hm.
  - rewrite (bool_decide_eq_true_2 _ (mk_is_Some _ _ eq_refl)), !andb_true_r.
    cbn [default from_option id].
    destruct (String.eqb f "market_value"); cbv iota.
    { destruct (py_max o v) as [w|x]; cbn; [|intros [=]].
      intros [= <-]. rewrite lookup_insert_eq. reflexivity. }
    destruct (String.eqb f "rating"); cbv iota.
    { destruct (rating_mean o v) as [w|x]; cbn; [|intros [=]].
      intros [= <-]. rewrite lookup_insert_eq. reflexivity. }
    destruct o; cbn [is_none]; intros [= <-]; rewrite ?lookup_insert_eq, ?Hm; reflexivity.
  - rewrite (bool_decide_eq_false_2 (is_Some None)) by (intros [? [=]]).
    rewrite !andb_false_r. intros [= <-]. rewrite lookup_insert_eq. reflexivity.
Qed.

Lemma merge_field_other (p : player) (m m' : gmap string value) (f g : string) :
  merge_field p m f = Ok m' -> g <> f -> m' !! g = m !! g.
Proof.
  unfold merge_field. intros H Hne.
  assert (Hins : forall w, <[f := w]> m !! g = m !! g)
    by (intros w; apply lookup_insert_ne; congruence).
  destruct (p !! f) as [v|]; [|injection H as <-; reflexivity].
  destruct (is_none v); [injection H as <-; reflexivity|].
  destruct (_ && _) in H.
  { destruct (py_max _ v); cbn in H; [injection H as <-; apply Hins | discriminate]. }
  destruct (_ && _) in H.
  { destruct (rating_mean _ v); cbn in H; [injection H as <-; apply Hins | discriminate]. }
  destruct (m !! f) as [[| | |]|]; injection H as <-; auto.
Qed.

Lemma fold_fields_other (p : player) (l : list string) (g : string) :
  forall m m', fold_result (merge_field p) l m = Ok m' -> g ∉ l -> m' !! g = m !! g.
Proof.
  induction l as [|f l IH]; intros m m' H Hg; cbn in H.
  - injection H as <-. reflexivity.
  - destruct (merge_field p m f) as [m1|x] eqn:E; cbn in H; [|discriminate].
    apply not_elem_of_cons in Hg as [Hne Hg].
    rewrite (IH _ _ H Hg). eapply merge_field_other; eauto.
Qed.

Lemma fold_fields_at (p : player) (l : list string) (f : string) :
  forall m m',
    NoDup l -> f ∈ l -> fold_result (merge_field p) l m = Ok m' ->
    field_step f (m !! f) (p !! f) = Ok (m' !! f).
Proof.
  induction l as [|a l IH]; intros m m' Hnd Hin H; [inversion Hin|].
  cbn in H. destruct (merge_field p m a) as [m1|x] eqn:E; cbn in H; [|discriminate].
  apply NoDup_cons in Hnd as [Ha Hnd].
  destruct (decide (f = a)) as [->|Hne].
  - rewrite (fold_fields_other _ _ _ _ _ H Ha). apply merge_field_at. exact E.
  - apply elem_of_cons in Hin as [?|Hin]; [contradiction|].
    rewrite <- (merge_field_other _ _ _ _ _ E Hne). apply IH; assumption.
Qed.

Lemma merge_id_other (p : player) (m : gmap string value) (l : list string) (g : string) :
  g ∉ l -> fold_left (merge_id p) l m !! g = m !! g.
Proof.
  revert m. induction l as [|f l IH]; intros m Hg; [reflexivity|].
  apply not_elem_of_cons in Hg as [Hne Hg]. cbn. rewrite (IH _ Hg).
  unfold merge_id. destruct (p !! f) as [v|]; [|reflexivity].
  destruct (truthy v); [apply lookup_insert_ne; congruence | reflexivity].
Qed.

Lemma merge_stat_other (p : player) (m : gmap string value) (l : list string) (g : string) :
  g ∉ l -> fold_left (merge_stat p) l m !! g = m !! g.
Proof.
  revert m. induction l as [|f l IH]; intros m Hg; [reflexivity|].
  apply not_elem_of_cons in Hg as [Hne Hg]. cbn. rewrite (IH _ Hg).
  unfold merge_stat. destruct (p !! f) as [v|]; [|reflexivity].
  destruct (is_none v); [reflexivity | apply lookup_insert_ne; congruence].
Qed.

Lemma merge_stat_at (p : player) (l : list string) (s : string) :
  forall m, NoDup l -> s ∈ l ->
    fold_left (merge_stat p) l m !! s = stat_step (m !! s) (p !! s).
Proof.
  induction l as [|a l IH]; intros m Hnd Hin; [inversion Hin|].
  apply NoDup_cons in Hnd as [Ha Hnd]. cbn [fold_left].
  destruct (decide (s = a)) as [->|Hne].
  - rewrite (merge_stat_other _ _ _ _ Ha). unfold merge_stat, stat_step.
    destruct (p !! a) as [v|]; [|reflexivity].
    destruct (is_none v); [reflexivity | apply lookup_insert_eq].
  - apply elem_of_cons in Hin as [?|Hin]; [contradiction|].
    rewrite (IH _ Hnd Hin). f_equal. unfold merge_stat.
    destruct (p !! a) as [v|]; [|reflexivity].
    destruct (is_none v); [reflexivity | apply lookup_insert_ne; congruence].
Qed.

Lemma merge_player_info_inv (mg mg' : merged) (p : player) (src : string) :
  merge_player_info mg p src = Ok mg' ->
  exists fs,
    fold_result (merge_field p) fields (m_fields mg) = Ok fs
    /\ m_fields mg' = fold_left (merge_stat p) stats (fold_left (merge_id p) id_fields fs)
    /\ m_sources mg' = dict_set src p (m_sources mg)
    /\ m_league mg' = m_league mg
    /\ m_last_updated mg' = m_last_updated mg.
Proof.
  unfold merge_player_info.
  destruct (fold_result (merge_field p) fields (m_fields mg)) as [fs|x]; cbn; [|intros [=]].
  intros [= <-]. exists fs. cbn. auto.
Qed.

Lemma merge_player_info_field (mg mg' : merged) (p : player) (src f : string) :
  merge_player_info mg p src = Ok mg' -> f ∈ fields ->
  field_step f (m_fields mg !! f) (p !! f) = Ok (m_fields mg' !! f).
Proof.
  intros H Hf. apply merge_player_info_inv in H as (fs & Hfs & -> & _).
  rewrite merge_stat_other, merge_id_other.
  - apply (fold_fields_at p fields f); [|exact Hf|exact Hfs].
    apply (bool_decide_unpack _). vm_compute. reflexivity.
  - revert Hf. unfold fields, id_fields. rewrite !elem_of_cons, elem_of_nil.
    intros Hf Hid. repeat destruct Hf as [->|Hf]; try exact Hf;
      repeat destruct Hid as [Hid|Hid]; try discriminate; exact Hid.
  - revert Hf. unfold fields, stats. rewrite !elem_of_cons, elem_of_nil.
    intros Hf Hid. repeat destruct Hf as [->|Hf]; try exact Hf;
      repeat destruct Hid as [Hid|Hid]; try discriminate; exact Hid.
Qed.

Lemma merge_player_info_stat (mg mg' : merged) (p : player) (src s : string) :
  merge_player_info mg p src = Ok mg' -> s ∈ stats ->
  m_fields mg' !! s = stat_step (m_fields mg !! s) (p !! s).
Proof.
  intros H Hs. apply merge_player_info_inv in H as (fs & Hfs & -> & _).
  rewrite merge_stat_at; [|apply (bool_decide_unpack _); vm_compute; reflexivity|exact Hs].
  f_equal. rewrite merge_id_other.
  - apply (fold_fields_other p fields s _ _ Hfs).
    revert Hs. unfold fields, stats. rewrite !elem_of_cons, elem_of_nil.
    intros Hf Hid. repeat destruct Hf as [->|Hf]; try exact Hf;
      repeat destruct Hid as [Hid|Hid]; try discriminate; exact Hid.
  - revert Hs. unfold id_fields, stats. rewrite !elem_of_cons, elem_of_nil.
    intros Hf Hid. repeat destruct Hf as [->|Hf]; try exact Hf;
      repeat destruct Hid as [Hid|Hid]; try discriminate; exact Hid.
Qed.

(** *** The match key *)

(** C5.  What [_generate_player_key] does, by the number of tokens of the
    normalised name: with two or more, the first and the last joined by an
    underscore; with one, that token; each followed by an underscore and the
    normalised club.  With none (an empty or blank name) [n[0]] raises
    [IndexError] and no key is returned, also through [_merge_player_data],
    which passes [''] for a record that has no name. *)
Theorem generate_player_key_blank_name :
  (forall name club : list N,
     match split (strip (lower name)) with
     | [] => generate_player_key (VStr name) (VStr club) = Raise IndexError
     | [only] =>
         generate_player_key (VStr name) (VStr club)
         = Ok (only ++ u "_" ++ strip (lower club))
     | first :: rest =>
         exists final, last rest = Some final
           /\ generate_player_key (VStr name) (VStr club)
              = Ok (first ++ u "_" ++ final ++ u "_" ++ strip (lower club))
     end)
  /\ generate_player_key (VStr []) (VStr (u "LA Galaxy")) = Raise IndexError
  /\ generate_player_key (VStr (u "   ")) (VStr (u "LA Galaxy")) = Raise IndexError
  /\ merge_player_data [("sofascore"%string, [{[ "rating"%string := VFloat 7 ]}])]
       (u "MLS") (fun _ => 0) = Raise IndexError.
Proof.
  split; [|vm_compute; repeat split].
  intros name club. unfold generate_player_key.
  generalize (u "_") (strip (lower club)). intros sep c.
  destruct (split (strip (lower name))) as [|t [|t2 rest]]; cbn; try reflexivity.
  destruct (last (t2 :: rest)) as [final|] eqn:E.
  - exists final. split; [reflexivity|]. cbn. rewrite <- !app_assoc. reflexivity.
  - apply last_None in E. discriminate.
Qed.

(** *** Clusters *)

Lemma merge_clusters_flat (sd : list (string * list player)) (lg : list N) (now : nat -> Z) :
  merge_clusters sd lg now =
  fold_result (fun acc sp => merge_one lg now sp.1 acc sp.2) (candidates sd) [].
Proof.
  unfold merge_clusters, candidates. generalize (@nil (list N * merged)).
  induction sd as [|[s ps] sd IH]; intros acc; [reflexivity|].
  cbn [fold_result flat_map fst snd]. rewrite fold_result_app.
  assert (E : forall a, fold_result (merge_one lg now s) ps a =
            fold_result (fun acc sp => merge_one lg now sp.1 acc sp.2) (List.map (pair s) ps) a).
  { clear. induction ps as [|p ps IH]; intros a; [reflexivity|].
    cbn. destruct (merge_one lg now s a p); cbn; [apply IH | reflexivity]. }
  rewrite <- E. destruct (fold_result (merge_one lg now s) ps acc); cbn; [apply IH | reflexivity].
Qed.

Lemma merge_one_inv (lg : list N) (now : nat -> Z) (s : string)
    (acc acc' : list (list N * merged)) (p : player) :
  merge_one lg now s acc p = Ok acc' ->
  exists key mg',
    player_key p = Ok key
    /\ merge_player_info
         (default (new_entry lg (now (length acc))) (dict_get key acc)) p s = Ok mg'
    /\ acc' = dict_set key mg' acc.
Proof.
  unfold merge_one. fold (player_key p).
  destruct (player_key p) as [key|x]; cbn [mbind result_bind]; [|intros [=]].
  match goal with |- context [merge_player_info ?e p s] =>
    replace e with (default (new_entry lg (now (length acc))) (dict_get key acc))
      by (destruct (dict_get key acc); reflexivity) end.
  destruct (merge_player_info _ p s) as [mg'|x] eqn:E; cbn [mbind result_bind];
    [|intros [=]].
  intros [= <-]. exists key, mg'. auto.
Qed.

Lemma fold_merge_one_cluster (lg : list N) (now : nat -> Z) (l : list (string * player)) :
  forall acc mp key m,
    fold_result (fun acc sp => merge_one lg now sp.1 acc sp.2) l acc = Ok mp ->
    dict_get key mp = Some m ->
    exists t, fold_cluster (default (new_entry lg t) (dict_get key acc)) (cluster key l) = Ok m.
Proof.
  induction l as [|[s p] l IH]; intros acc mp key m H Hm.
  - cbn in H. injection H as <-. exists 0. rewrite Hm. reflexivity.
  - cbn [fold_result fst snd] in H.
    destruct (merge_one lg now s acc p) as [acc1|x] eqn:E; cbn in H; [|discriminate].
    apply merge_one_inv in E as (k0 & mg' & Hk & Hinfo & ->).
    destruct (IH _ _ _ _ H Hm) as [t Ht].
    unfold cluster. cbn [List.filter snd].
    destruct (decide (key = k0)) as [->|Hne].
    + rewrite bool_decide_eq_true_2 by exact Hk.
      exists (now (length acc)). cbn [fold_cluster fold_result fst snd].
      rewrite Hinfo. cbn. rewrite dict_get_set_eq in Ht. exact Ht.
    + rewrite bool_decide_eq_false_2 by (rewrite Hk; congruence).
      exists t. rewrite dict_get_set_ne in Ht by exact Hne. exact Ht.
Qed.

Lemma fold_merge_one_keeps (lg : list N) (now : nat -> Z) (l : list (string * player)) :
  forall acc mp key,
    fold_result (fun acc sp => merge_one lg now sp.1 acc sp.2) l acc = Ok mp ->
    is_Some (dict_get key acc) -> is_Some (dict_get key mp).
Proof.
  induction l as [|[s p] l IH]; intros acc mp key H Hk.
  - cbn in H. injection H as <-. exact Hk.
  - cbn [fold_result fst snd] in H.
    destruct (merge_one lg now s acc p) as [acc1|x] eqn:E; cbn in H; [|discriminate].
    apply merge_one_inv in E as (k0 & mg' & _ & _ & ->).
    apply (IH _ _ _ H). destruct (decide (key = k0)) as [->|Hne].
    + rewrite dict_get_set_eq. eauto.
    + rewrite dict_get_set_ne by exact Hne. exact Hk.
Qed.

Lemma fold_merge_one_covers (lg : list N) (now : nat -> Z) (l : list (string * player)) :
  forall acc mp sp,
    fold_result (fun acc sp => merge_one lg now sp.1 acc sp.2) l acc = Ok mp ->
    sp ∈ l ->
    exists key, player_key sp.2 = Ok key /\ is_Some (dict_get key mp).
Proof.
  induction l as [|[s p] l IH]; intros acc mp sp H Hin; [inversion Hin|].
  cbn [fold_result fst snd] in H.
  destruct (merge_one lg now s acc p) as [acc1|x] eqn:E; cbn in H; [|discriminate].
  apply elem_of_cons in Hin as [->|Hin]; [|exact (IH _ _ _ H Hin)].
  apply merge_one_inv in E as (k0 & mg' & Hk & _ & ->).
  exists k0. split; [exact Hk|].
  apply (fold_merge_one_keeps _ _ _ _ _ _ H). rewrite dict_get_set_eq. eauto.
Qed.

Lemma fold_merge_one_nonempty (lg : list N) (now : nat -> Z) (l : list (string * player)) :
  forall acc mp key,
    fold_result (fun acc sp => merge_one lg now sp.1 acc sp.2) l acc = Ok mp ->
    dict_get key acc = None -> is_Some (dict_get key mp) -> cluster key l <> [].
Proof.
  induction l as [|[s p] l IH]; intros acc mp key H Hacc Hmp.
  - cbn in H. injection H as <-. rewrite Hacc in Hmp. destruct Hmp as [? [=]].
  - cbn [fold_result fst snd] in H.
    destruct (merge_one lg now s acc p) as [acc1|x] eqn:E; cbn in H; [|discriminate].
    apply merge_one_inv in E as (k0 & mg' & Hk & _ & ->).
    unfold cluster. cbn [List.filter snd].
    destruct (decide (key = k0)) as [->|Hne].
    + rewrite bool_decide_eq_true_2 by exact Hk. discriminate.
    + rewrite bool_decide_eq_false_2 by (rewrite Hk; congruence).
      apply (IH _ _ _ H); [|exact Hmp]. rewrite dict_get_set_ne by exact Hne. exact Hacc.
Qed.

(** *** The rating back-fill *)

Lemma field_step_is_Some (f : string) (old new r : option value) :
  field_step f old new = Ok r ->
  is_Some old \/ (exists v, new = Some v /\ is_none v = false) ->
  is_Some r.
Proof.
  unfold field_step. intros H Hor.
  destruct new as [v|].
  - destruct (is_none v) eqn:Nv.
    + injection H as <-. destruct Hor as [?|(v' & [= <-] & ?)]; [assumption | congruence].
    + destruct old as [o|]; [|injection H as <-; eauto].
      destruct (String.eqb f "market_value").
      { destruct (py_max o v); cbn in H; [injection H as <-; eauto | discriminate]. }
      destruct (String.eqb f "rating").
      { destruct (rating_mean o v); cbn in H; [injection H as <-; eauto | discriminate]. }
      injection H as <-. eauto.
  - injection H as <-. destruct Hor as [?|(v' & [=] & _)]. assumption.
Qed.

Lemma rating_in_fields : "rating"%string ∈ fields.
Proof. apply (bool_decide_unpack _). vm_compute. reflexivity. Qed.

Lemma merge_player_info_covered (mg mg' : merged) (p : player) (src : string) :
  rated_covered mg -> merge_player_info mg p src = Ok mg' -> rated_covered mg'.
Proof.
  intros Hc H [s q] r Hin Hr Hnn.
  pose proof (merge_player_info_field _ _ _ _ _ H rating_in_fields) as Hstep.
  apply merge_player_info_inv in H as (fs & _ & _ & Hsrc & _).
  rewrite Hsrc in Hin. clear Hsrc. cbn in Hr.
  apply (field_step_is_Some _ _ _ _ Hstep).
  apply dict_set_elem in Hin as [E|Hin].
  - right. injection E as _ E. rewrite E in Hr. eauto.
  - left. exact (Hc (s, q) r Hin Hr Hnn).
Qed.

Lemma new_entry_covered (lg : list N) (t : Z) : rated_covered (new_entry lg t).
Proof. intros sp r Hin. inversion Hin. Qed.

Lemma backfill_rating_covered (m : merged) :
  rated_covered m -> backfill_rating m = Ok m.
Proof.
  intros Hc. unfold backfill_rating.
  destruct (bool_decide (m_fields m !! "rating" = None)) eqn:Hr; [|reflexivity].
  apply bool_decide_eq_true_1 in Hr.
  destruct (negb (bool_decide (m_sources m = []))); [|reflexivity]. cbn [andb].
  match goal with |- context [omap ?f (m_sources m)] =>
    assert (E : omap f (m_sources m) = []) end.
  { assert (Hall : Forall (fun sp => sp ∈ m_sources m) (m_sources m))
      by (apply Forall_forall; auto).
    revert Hall. generalize (m_sources m) at 2 3.
    induction l as [|[s p] l IH]; intros Hall; [reflexivity|].
    apply Forall_cons in Hall as [Hsp Hall]. cbn.
    destruct (p !! "rating") as [r|] eqn:Hp; [|exact (IH Hall)].
    destruct (truthy r) eqn:Tr; [|exact (IH Hall)].
    exfalso. destruct (Hc (s, p) r Hsp Hp) as [w Hw]; [destruct r; auto; discriminate|].
    congruence. }
  rewrite E. reflexivity.
Qed.

Lemma fold_merge_one_invariant (lg : list N) (now : nat -> Z) (l : list (string * player)) :
  forall acc mp,
    fold_result (fun acc sp => merge_one lg now sp.1 acc sp.2) l acc = Ok mp ->
    Forall (fun km => rated_covered km.2) acc -> NoDup (List.map fst acc) ->
    Forall (fun km => rated_covered km.2) mp /\ NoDup (List.map fst mp).
Proof.
  induction l as [|[s p] l IH]; intros acc mp H Hc Hnd.
  - cbn in H. injection H as <-. auto.
  - cbn [fold_result fst snd] in H.
    destruct (merge_one lg now s acc p) as [acc1|x] eqn:E; cbn in H; [|discriminate].
    apply merge_one_inv in E as (k0 & mg' & _ & Hinfo & ->).
    apply (IH _ _ H); [|apply dict_set_NoDup; exact Hnd].
    apply dict_set_Forall; [exact Hc|]. cbn.
    refine (merge_player_info_covered _ _ _ _ _ Hinfo).
    destruct (dict_get k0 acc) as [e|] eqn:Hd; cbn; [|apply new_entry_covered].
    apply dict_get_elem in Hd. rewrite Forall_forall in Hc. exact (Hc _ Hd).
Qed.

Lemma backfill_all_covered (mp : list (list N * merged)) :
  Forall (fun km => rated_covered km.2) mp ->
  forall acc,
    fold_result (fun final_list '(_, pdata) =>
                   pdata' ← backfill_rating pdata; Ok (final_list ++ [pdata']))
                mp acc
    = Ok (acc ++ List.map snd mp).
Proof.
  induction 1 as [|[k m] mp Hm Hmp IH]; intros acc; cbn [fold_result List.map snd].
  - rewrite app_nil_r. reflexivity.
  - cbn in Hm. rewrite (backfill_rating_covered _ Hm). cbn [mbind result_bind].
    rewrite IH, <- app_assoc. reflexivity.
Qed.

(** The back-fill never fires: what [_merge_player_data] returns are the
    records of [merged_players], in insertion order, as the folds left
    them. *)
Lemma merge_player_data_values (sd : list (string * list player)) (lg : list N)
    (now : nat -> Z) :
  merge_player_data sd lg now = List.map snd <$> merge_clusters sd lg now.
Proof.
  unfold merge_player_data.
  destruct (merge_clusters sd lg now) as [mp|x] eqn:E; cbn; [|reflexivity].
  rewrite merge_clusters_flat in E.
  destruct (fold_merge_one_invariant _ _ _ _ _ E) as [Hc _];
    [constructor | constructor |].
  exact (backfill_all_covered mp Hc []).
Qed.

Lemma merge_player_data_inv (sd : list (string * list player)) (lg : list N)
    (now : nat -> Z) (finals : list merged) :
  merge_player_data sd lg now = Ok finals ->
  exists mp,
    fold_result (fun acc sp => merge_one lg now sp.1 acc sp.2) (candidates sd) [] = Ok mp
    /\ finals = List.map snd mp /\ NoDup (List.map fst mp).
Proof.
  rewrite merge_player_data_values, merge_clusters_flat.
  destruct (fold_result _ (candidates sd) []) as [mp|x] eqn:E; cbn; [|intros [=]].
  intros [= <-]. exists mp. repeat split.
  apply (fold_merge_one_invariant _ _ _ _ _ E); constructor.
Qed.

(** Every record returned is the fold of a non-empty cluster from a new
    entry. *)
Lemma final_is_cluster_fold (sd : list (string * list player)) (lg : list N)
    (now : nat -> Z) (finals : list merged) (m : merged) :
  merge_player_data sd lg now = Ok finals -> m ∈ finals ->
  exists key t,
    cluster key (candidates sd) <> []
    /\ fold_cluster (new_entry lg t) (cluster key (candidates sd)) = Ok m.
Proof.
  intros H Hm. apply merge_player_data_inv in H as (mp & Hmp & -> & Hnd).
  apply list_elem_of_In, in_map_iff in Hm as ([key m'] & E & Hin). cbn in E. subst m'.
  apply list_elem_of_In in Hin. apply (dict_get_NoDup _ _ _ Hnd) in Hin.
  destruct (fold_merge_one_cluster _ _ _ _ _ _ _ Hmp Hin) as [t Ht].
  exists key, t. split; [|exact Ht].
  apply (fold_merge_one_nonempty _ _ _ _ _ _ Hmp); [reflexivity | eauto].
Qed.

(** Every candidate went into the fold of the record of its key. *)
Lemma candidate_has_final (sd : list (string * list player)) (lg : list N)
    (now : nat -> Z) (finals : list merged) (sp : string * player) :
  merge_player_data sd lg now = Ok finals -> sp ∈ candidates sd ->
  exists key t m,
    player_key sp.2 = Ok key /\ m ∈ finals /\ sp ∈ cluster key (candidates sd)
    /\ fold_cluster (new_entry lg t) (cluster key (candidates sd)) = Ok m.
Proof.
  intros H Hsp. apply merge_player_data_inv in H as (mp & Hmp & -> & Hnd).
  destruct (fold_merge_one_covers _ _ _ _ _ _ Hmp Hsp) as (key & Hk & [m Hm]).
  destruct (fold_merge_one_cluster _ _ _ _ _ _ _ Hmp Hm) as [t Ht].
  exists key, t, m. split; [exact Hk|]. split; [|split; [|exact Ht]].
  - apply list_elem_of_In, in_map_iff. exists (key, m). split; [reflexivity|].
    apply list_elem_of_In, dict_get_elem. exact Hm.
  - apply list_elem_of_In, filter_In. split; [apply list_elem_of_In; exact Hsp|].
    apply bool_decide_eq_true_2. exact Hk.
Qed.

(** *** The merger returns *)








(** *** Rating *)

Lemma round_half_even_near (q : Q) :
  (Qabs (inject_Z (round_half_even q) - q) <= 1 # 2)%Q.
Proof.
  pose proof (Qfloor_le q) as Hlo. pose proof (Qlt_floor q) as Hhi.
  rewrite inject_Z_plus in Hhi. change (inject_Z 1) with 1%Q in Hhi.
  apply Qabs_Qle_condition. unfold round_half_even.
  destruct (Qcompare (q - inject_Z (Qfloor q)) (1 # 2)) eqn:C.
  - apply Qeq_alt in C. destruct (Z.even (Qfloor q));
      rewrite ?inject_Z_plus; change (inject_Z 1) with 1%Q; split; lra.
  - apply Qlt_alt in C. split; lra.
  - apply Qgt_alt in C. rewrite inject_Z_plus. change (inject_Z 1) with 1%Q.
    split; lra.
Qed.

Lemma round1_near (x : Q) : (Qabs (round1 x - x) <= 1 # 20)%Q.
Proof.
  unfold round1. rewrite Qred_correct.
  pose proof (round_half_even_near (x * 10)) as H.
  apply Qabs_Qle_condition in H. apply Qabs_Qle_condition.
  set (r := round_half_even (x * 10)) in *.
  assert (E : (r # 10 == inject_Z r * (1 # 10))%Q).
  { unfold Qeq, Qmult, inject_Z. cbn. lia. }
  rewrite E. split; lra.
Qed.




(** *** Market value *)

Lemma py_max_num (o v w : value) :
  py_max o v = Ok w ->
  (w = o \/ w = v)
  /\ (forall qo, num o = Some qo -> exists qw, num w = Some qw /\ (qo <= qw)%Q)
  /\ (forall qv, num v = Some qv -> exists qw, num w = Some qw /\ (qv <= qw)%Q).
Proof.
  unfold py_max, py_gt.
  assert (Hnum : forall p q,
    num v = Some p -> num o = Some q ->
    Ok (if negb (Qle_bool p q) then v else o) = Ok w ->
    (w = o \/ w = v)
    /\ (forall qo, num o = Some qo -> exists qw, num w = Some qw /\ (qo <= qw)%Q)
    /\ (forall qv, num v = Some qv -> exists qw, num w = Some qw /\ (qv <= qw)%Q)).
  { intros p q Hp Hq H. destruct (Qle_bool p q) eqn:L; cbn in H; injection H as <-.
    - apply Qle_bool_iff in L. split; [auto|]. split.
      + intros qo Ho. exists q. rewrite Hq in *. injection Ho as <-. split; [reflexivity|lra].
      + intros qv Hv. exists q. rewrite Hp in Hv. injection Hv as <-. auto.
    - assert (q < p)%Q.
      { apply Qnot_le_lt. intros C. apply Qle_bool_iff in C. congruence. }
      split; [auto|]. split.
      + intros qo Ho. exists p. rewrite Hq in Ho. injection Ho as <-. split; [exact Hp|lra].
      + intros qv Hv. exists p. rewrite Hp in *. injection Hv as <-. split; [reflexivity|lra]. }
  destruct v as [|zv|qv|sv], o as [|zo|qo|so]; cbn [num mbind result_bind];
    try (intros [=]; fail); try (apply Hnum; reflexivity).
  destruct (str_ltb so sv); intros [= <-]; (split; [auto|]); split; intros ? [=].
Qed.

Lemma market_value_in_fields : "market_value"%string ∈ fields.
Proof. apply (bool_decide_unpack _). vm_compute. reflexivity. Qed.

Lemma market_value_step (mg mg' : merged) (p : player) (src : string) :
  merge_player_info mg p src = Ok mg' ->
  (forall a qa, m_fields mg !! "market_value" = Some a -> num a = Some qa ->
     exists w qw, m_fields mg' !! "market_value" = Some w /\ num w = Some qw /\ (qa <= qw)%Q)
  /\ (forall v qv, p !! "market_value" = Some v -> num v = Some qv ->
     exists w qw, m_fields mg' !! "market_value" = Some w /\ num w = Some qw /\ (qv <= qw)%Q)
  /\ (forall w, m_fields mg' !! "market_value" = Some w ->
     m_fields mg !! "market_value" = Some w \/ p !! "market_value" = Some w).
Proof.
  intros H. apply merge_player_info_field with (f := "market_value"%string) in H;
    [|exact market_value_in_fields].
  unfold field_step in H. cbn [String.eqb Ascii.eqb Bool.eqb] in H.
  destruct (p !! "market_value") as [v|].
  - destruct (is_none v) eqn:Nv.
    + injection H as <-. split; [|split].
      * intros a qa Ha Hq. exists a, qa. split; [exact Ha|]. split; [exact Hq|lra].
      * intros v' qv [= <-]. destruct v; discriminate.
      * auto.
    + destruct (m_fields mg !! "market_value") as [o|].
      * destruct (py_max o v) as [w|x] eqn:E; cbn in H; [|discriminate].
        injection H as <-. apply py_max_num in E as (Hw & Ho & Hv).
        split; [|split].
        -- intros a qa [= <-] Hq. destruct (Ho _ Hq) as (qw & ? & ?). eauto.
        -- intros v' qv [= <-] Hq. destruct (Hv _ Hq) as (qw & ? & ?). eauto.
        -- intros w' [= <-]. destruct Hw as [->| ->]; auto.
      * injection H as <-. split; [|split].
        -- intros a qa [=].
        -- intros v' qv [= <-] Hq. exists v, qv. split; [reflexivity|]. split; [exact Hq|lra].
        -- auto.
  - injection H as <-. split; [|split].
    + intros a qa Ha Hq. exists a, qa. split; [exact Ha|]. split; [exact Hq|lra].
    + intros v qv [=].
    + auto.
Qed.

Lemma market_value_fold (l : list (string * player)) :
  forall mg m, fold_cluster mg l = Ok m ->
  (forall a qa, m_fields mg !! "market_value" = Some a -> num a = Some qa ->
     exists w qw, m_fields m !! "market_value" = Some w /\ num w = Some qw /\ (qa <= qw)%Q)
  /\ (forall sp v qv, sp ∈ l -> (sp.2 : player) !! "market_value" = Some v -> num v = Some qv ->
     exists w qw, m_fields m !! "market_value" = Some w /\ num w = Some qw /\ (qv <= qw)%Q)
  /\ (forall w, m_fields m !! "market_value" = Some w ->
     m_fields mg !! "market_value" = Some w
     \/ exists sp, sp ∈ l /\ (sp.2 : player) !! "market_value" = Some w).
Proof.
  induction l as [|[s p] l IH]; intros mg m H.
  - cbn in H. injection H as <-. split; [|split].
    + intros a qa Ha Hq. exists a, qa. split; [exact Ha|]. split; [exact Hq|lra].
    + intros sp v qv Hin. inversion Hin.
    + auto.
  - cbn [fold_cluster fold_result fst snd] in H.
    destruct (merge_player_info mg p s) as [mg1|x] eqn:E; cbn in H; [|discriminate].
    destruct (market_value_step _ _ _ _ E) as (S1 & S2 & S3).
    destruct (IH _ _ H) as (I1 & I2 & I3). split; [|split].
    + intros a qa Ha Hq. destruct (S1 _ _ Ha Hq) as (w1 & q1 & Hw1 & Hq1 & L1).
      destruct (I1 _ _ Hw1 Hq1) as (w & qw & ? & ? & ?). exists w, qw.
      split; [assumption|]. split; [assumption|lra].
    + intros sp v qv Hin Hv Hq. apply elem_of_cons in Hin as [->|Hin].
      * destruct (S2 _ _ Hv Hq) as (w1 & q1 & Hw1 & Hq1 & L1).
        destruct (I1 _ _ Hw1 Hq1) as (w & qw & ? & ? & ?). exists w, qw.
        split; [assumption|]. split; [assumption|lra].
      * exact (I2 _ _ _ Hin Hv Hq).
    + intros w Hw. destruct (I3 _ Hw) as [Hw1|(sp & Hin & Hsp)].
      * destruct (S3 _ Hw1) as [?|?]; [auto|]. right. exists (s, p). split; [left|assumption].
      * right. exists sp. split; [right; exact Hin | exact Hsp].
Qed.

(** C4.  A fold step never lowers a numeric merged [market_value].  In what
    [_merge_player_data] returns, every candidate that reports a numeric
    [market_value] belongs to a cluster whose record holds a numeric
    [market_value] at least as large, and that merged value is the one some
    candidate of the cluster reported: it is the maximum of the cluster. *)
Theorem market_value_running_max :
  (forall (mg mg' : merged) (p : player) (src : string) (a : value) (qa : Q),
     merge_player_info mg p src = Ok mg' ->
     m_fields mg !! "market_value" = Some a -> num a = Some qa ->
     exists w qw, m_fields mg' !! "market_value" = Some w
                  /\ num w = Some qw /\ (qa <= qw)%Q)
  /\ (forall (sd : list (string * list player)) (lg : list N) (now : nat -> Z)
        (finals : list merged) (sp : string * player) (v : value) (qv : Q),
     merge_player_data sd lg now = Ok finals ->
     sp ∈ candidates sd ->
     (sp.2 : player) !! "market_value" = Some v -> num v = Some qv ->
     exists key t m w qw,
       player_key sp.2 = Ok key
       /\ m ∈ finals
       /\ fold_cluster (new_entry lg t) (cluster key (candidates sd)) = Ok m
       /\ m_fields m !! "market_value" = Some w
       /\ num w = Some qw /\ (qv <= qw)%Q
       /\ exists sp', sp' ∈ cluster key (candidates sd)
                      /\ (sp'.2 : player) !! "market_value" = Some w).
Proof.
  split.
  - intros mg mg' p src a qa H Ha Hq.
    exact (proj1 (market_value_step _ _ _ _ H) a qa Ha Hq).
  - intros sd lg now finals sp v qv H Hsp Hv Hq.
    destruct (candidate_has_final _ _ _ _ _ H Hsp) as (key & t & m & Hk & Hm & Hcl & Hfold).
    destruct (market_value_fold _ _ _ Hfold) as (_ & F2 & F3).
    destruct (F2 _ _ _ Hcl Hv Hq) as (w & qw & Hw & Hqw & Hle).
    exists key, t, m, w, qw. repeat (split; [assumption|]).
    destruct (F3 _ Hw) as [Hempty|Hex]; [|exact Hex].
    cbn in Hempty. rewrite lookup_empty in Hempty. discriminate.
Qed.

(** The sample cluster reports 100, 200 and 150. *)
Lemma market_value_running_max_witness :
  (exists w qw, m_fields sample_second !! "market_value" = Some w
                /\ num w = Some qw /\ (inject_Z 100 <= qw)%Q)
  /\ (exists key t m w qw,
       player_key smith_sofascore = Ok key
       /\ m ∈ sample_merged
       /\ fold_cluster (new_entry (u "MLS") t) (cluster key (candidates sample_sources)) = Ok m
       /\ m_fields m !! "market_value" = Some w
       /\ num w = Some qw /\ (inject_Z 150 <= qw)%Q
       /\ exists sp', sp' ∈ cluster key (candidates sample_sources)
                      /\ (sp'.2 : player) !! "market_value" = Some w).
Proof.
  split.
  - apply (proj1 market_value_running_max sample_first sample_second
             smith_transfermarkt "transfermarkt" (VInt 100)).
    + vm_compute. reflexivity.
    + vm_compute. reflexivity.
    + reflexivity.
  - apply (proj2 market_value_running_max sample_sources (u "MLS") (t_merge sample_clock)
             sample_merged ("sofascore"%string, smith_sofascore) (VInt 150)).
    + vm_compute. reflexivity.
    + right. right. left.
    + vm_compute. reflexivity.
    + reflexivity.
Defined.

(** *** First-wins and last-wins fields *)

Lemma first_wins_fields_spec (f : string) :
  f ∈ first_wins_fields ->
  f ∈ fields /\ String.eqb f "market_value" = false /\ String.eqb f "rating" = false.
Proof.
  unfold first_wins_fields. rewrite !elem_of_cons, elem_of_nil.
  intros H. repeat destruct H as [->|H]; try contradiction;
    (split; [apply (bool_decide_unpack _); vm_compute; reflexivity | split; reflexivity]).
Qed.

Lemma first_wins_fold (f : string) (l : list (string * player)) :
  f ∈ first_wins_fields ->
  forall mg m, fold_cluster mg l = Ok m ->
    m_fields m !! f =
      match non_null (m_fields mg !! f) with
      | Some v => Some v
      | None => match head (non_null_values f l) with
                | Some v => Some v
                | None => m_fields mg !! f
                end
      end.
Proof.
  intros Hf. destruct (first_wins_fields_spec f Hf) as (Hin & Hmv & Hr).
  induction l as [|[s p] l IH]; intros mg m H.
  - cbn in H. injection H as <-. cbn.
    destruct (m_fields mg !! f) as [o|]; [|reflexivity]. cbn.
    destruct (is_none o); reflexivity.
  - cbn [fold_cluster fold_result fst snd] in H.
    destruct (merge_player_info mg p s) as [mg1|x] eqn:E; cbn [mbind result_bind] in H; [|discriminate].
    rewrite (IH _ _ H).
    apply merge_player_info_field with (f := f) in E; [|exact Hin].
    unfold field_step in E. rewrite Hmv, Hr in E.
    unfold non_null_values. cbn [omap list_omap snd]. fold (non_null_values f l).
    destruct (p !! f) as [v|]; cbn [non_null].
    + destruct (is_none v) eqn:Nv.
      * injection E as <-. reflexivity.
      * destruct (m_fields mg !! f) as [o|]; injection E as <-; cbn [non_null head].
        -- destruct (is_none o) eqn:No; cbn [non_null]; rewrite ?Nv, ?No; reflexivity.
        -- rewrite Nv. reflexivity.
    + injection E as <-. reflexivity.
Qed.

Lemma last_wins_fold (s : string) (l : list (string * player)) :
  s ∈ stats ->
  forall mg m, fold_cluster mg l = Ok m ->
    m_fields m !! s =
      match last (non_null_values s l) with
      | Some v => Some v
      | None => m_fields mg !! s
      end.
Proof.
  intros Hs. induction l as [|[src p] l IH]; intros mg m H.
  - cbn in H. injection H as <-. reflexivity.
  - cbn [fold_cluster fold_result fst snd] in H.
    destruct (merge_player_info mg p src) as [mg1|x] eqn:E; cbn [mbind result_bind] in H; [|discriminate].
    rewrite (IH _ _ H). rewrite (merge_player_info_stat _ _ _ _ _ E Hs).
    unfold non_null_values. cbn [omap list_omap snd]. fold (non_null_values s l).
    unfold stat_step. destruct (p !! s) as [v|]; cbn [non_null]; [|reflexivity].
    destruct (is_none v); [reflexivity|].
    rewrite last_cons. destruct (last (non_null_values s l)); reflexivity.
Qed.

(** C6, as the code has it.  Every record [_merge_player_data] returns is the
    fold of a non-empty cluster in which each of [name], [age], [position],
    [club], [nationality], [goals], [assists], [matches], [minutes_played],
    [yellow_cards] and [red_cards] holds the first non-null value the
    candidates report, and each statistical field ([xg], [xa], [xg_per_90],
    [xa_per_90], [key_passes], [dribbles]) holds the last non-null value they
    report. *)
Theorem merge_field_policies (sd : list (string * list player)) (lg : list N)
    (now : nat -> Z) (finals : list merged) (m : merged) :
  merge_player_data sd lg now = Ok finals ->
  m ∈ finals ->
  exists key,
    let cl := cluster key (candidates sd) in
    cl <> []
    /\ (forall f, f ∈ first_wins_fields -> m_fields m !! f = head (non_null_values f cl))
    /\ (forall s, s ∈ stats -> m_fields m !! s = last (non_null_values s cl)).
Proof.
  intros H Hm.
  destruct (final_is_cluster_fold _ _ _ _ _ H Hm) as (key & t & Hne & Hfold).
  exists key. cbn zeta. split; [exact Hne|]. split.
  - intros f Hf. rewrite (first_wins_fold f _ Hf _ _ Hfold). cbn.
    rewrite lookup_empty. cbn. destruct (head _); reflexivity.
  - intros s Hs. rewrite (last_wins_fold s _ Hs _ _ Hfold). cbn.
    rewrite lookup_empty. destruct (last _); reflexivity.
Qed.

(** The sample cluster: ages 24, null, 25 and [xg] 1, 2. *)
Lemma merge_field_policies_witness :
  exists key,
    let cl := cluster key (candidates sample_sources) in
    cl <> []
    /\ (forall f, f ∈ first_wins_fields ->
          m_fields sample_record !! f = head (non_null_values f cl))
    /\ (forall s, s ∈ stats ->
          m_fields sample_record !! s = last (non_null_values s cl)).
Proof.
  apply (merge_field_policies sample_sources (u "MLS") (t_merge sample_clock) sample_merged).
  - vm_compute. reflexivity.
  - assert (E : sample_merged = [sample_record]) by (vm_compute; reflexivity).
    rewrite E. left.
Defined.

(** C6 as worded fails for a statistical field: the sample candidates report
    [xg] 1 and then 2, and the merged record holds 2. *)
Lemma stats_take_latest_value :
  merge_player_data sample_sources (u "MLS") (t_merge sample_clock) = Ok sample_merged
  /\ (m_fields <$> head sample_merged) ≫= (fun fs => fs !! "xg") = Some (VInt 2)
  /\ head (non_null_values "xg" (candidates sample_sources)) = Some (VInt 1).
Proof. vm_compute. repeat split. Qed.

(** *** Sync orchestration *)

Lemma save_players_keeps_ledger (float_repr : Q -> list N) (d : db) (ps : list merged)
    (lg : list N) (ts : nat -> Z) :
  sync_history (save_players_to_db float_repr d ps lg ts).1 = sync_history d
  /\ cache (save_players_to_db float_repr d ps lg ts).1 = cache d.
Proof.
  unfold save_players_to_db.
  destruct (save_players_from float_repr 0 ts lg ps (players d) 0) as [table saved].
  split; reflexivity.
Qed.

Lemma save_players_players (float_repr : Q -> list N) (d d0 : db) (ps : list merged)
    (lg : list N) (ts : nat -> Z) :
  players d0 = players d ->
  players (save_players_to_db float_repr d0 ps lg ts).1
  = players (save_players_to_db float_repr d ps lg ts).1.
Proof.
  intros E. unfold save_players_to_db. rewrite E.
  destruct (save_players_from float_repr 0 ts lg ps (players d) 0) as [table saved].
  reflexivity.
Qed.

Lemma gather_step (e : env) sd r (a : string * string) :
  gather e (sd, r) a =
    (dict_set a.1 (data_of e a) sd,
     match scrape_league e a.1 with
     | Fetched data => with_source r a.1 (length data)
     | FetchRaised msg => with_error r (FetchError a.1 a.2 msg)
     end).
Proof.
  unfold gather, data_of, fetch_with_error_handling.
  destruct (scrape_league e a.1); reflexivity.
Qed.

Lemma gather_all (e : env) (l : list (string * string)) :
  forall sd r,
    NoDup (List.map fst l) ->
    (forall a, a ∈ l -> dict_get a.1 sd = None /\ dict_get a.1 (r_sources r) = None) ->
    let out := fold_left (gather e) l (sd, r) in
    out.1 = sd ++ List.map (fun a => (a.1, data_of e a)) l
    /\ r_sources out.2 = r_sources r ++
         omap (fun a => match scrape_league e a.1 with
                        | Fetched data => Some (a.1, length data)
                        | FetchRaised _ => None
                        end) l
    /\ r_errors out.2 = r_errors r ++ fetch_errors e l
    /\ r_completed_at out.2 = r_completed_at r
    /\ r_duration out.2 = r_duration r
    /\ r_league out.2 = r_league r
    /\ r_started_at out.2 = r_started_at r.
Proof.
  induction l as [|a l IH]; intros sd r Hnd Hfresh; cbn [fold_left].
  - cbn. rewrite !app_nil_r. auto 10.
  - cbn [List.map] in Hnd. apply NoDup_cons in Hnd as [Hnotin Hnd].
    destruct (Hfresh a) as [Hsd Hsrc]; [left|].
    rewrite gather_step, (dict_set_fresh _ _ _ Hsd).
    assert (Hne : forall b, b ∈ l -> b.1 <> a.1).
    { intros b Hb Heq. apply Hnotin. rewrite <- Heq. apply list_elem_of_In.
      apply in_map. apply list_elem_of_In. exact Hb. }
    cbn [fetch_errors omap List.map]. fold (fetch_errors e l).
    destruct (scrape_league e a.1) as [data|msg] eqn:E.
    + edestruct (IH (sd ++ [(a.1, data_of e a)]) (with_source r a.1 (length data)) Hnd)
        as (H1 & H2 & H3 & H4 & H5 & H6 & H7).
      { intros b Hb. destruct (Hfresh b) as [Hb1 Hb2]; [right; exact Hb|]. cbn.
        rewrite (dict_set_fresh _ _ _ Hsrc), !dict_get_snoc_ne by (apply Hne; exact Hb).
        auto. }
      cbn zeta. rewrite H1, H2, H3, H4, H5, H6, H7. cbn.
      rewrite (dict_set_fresh _ _ _ Hsrc), <- !app_assoc. cbn. rewrite !E. auto 10.
    + edestruct (IH (sd ++ [(a.1, data_of e a)]) (with_error r (FetchError a.1 a.2 msg)) Hnd)
        as (H1 & H2 & H3 & H4 & H5 & H6 & H7).
      { intros b Hb. destruct (Hfresh b) as [Hb1 Hb2]; [right; exact Hb|]. cbn.
        rewrite !dict_get_snoc_ne by (apply Hne; exact Hb). auto. }
      cbn zeta. rewrite H1, H2, H3, H4, H5, H6, H7. cbn.
      rewrite <- !app_assoc. cbn. rewrite !E. auto 10.
Qed.

Lemma adapters_keys_NoDup (e : env) : NoDup (List.map fst (adapters e)).
Proof.
  unfold adapters. destruct (asa_configured e); cbn;
    apply (bool_decide_unpack _); vm_compute; reflexivity.
Qed.

Lemma fetched_counts (e : env) :
  omap (fun a => match scrape_league e a.1 with
                 | Fetched data => Some (a.1, length data)
                 | FetchRaised _ => None
                 end) (adapters e)
  = List.map (fun sp => (sp.1, length sp.2)) (fetched_data e).
Proof.
  unfold fetched_data. induction (adapters e) as [|[k nm] l IH]; [reflexivity|].
  cbn. destruct (scrape_league e k); cbn; [f_equal|]; exact IH.
Qed.

Lemma merge_player_data_fetched (e : env) (lg : list N) (now : nat -> Z) :
  merge_player_data (List.map (fun a => (a.1, data_of e a)) (adapters e)) lg now
  = merge_player_data (fetched_data e) lg now.
Proof.
  unfold merge_player_data, merge_clusters, fetched_data.
  f_equal. generalize (@nil (list N * merged)).
  induction (adapters e) as [|[k nm] l IH]; intros acc; [reflexivity|].
  cbn [List.map omap fold_result fst snd].
  destruct (scrape_league e k) as [data|msg] eqn:E.
  - replace (data_of e (k, nm)) with data
      by (unfold data_of; cbn; rewrite E; reflexivity).
    cbn [fold_result list_omap fst]. rewrite E. cbn [fold_result].
    destruct (fold_result (merge_one lg now k) data acc); cbn; [apply IH | reflexivity].
  - replace (data_of e (k, nm)) with (@nil player)
      by (unfold data_of; cbn; rewrite E; reflexivity).
    cbn [fold_result list_omap fst]. rewrite E. apply IH.
Qed.

Lemma fetch_errors_are_fetch_errors (e : env) (l : list (string * string)) :
  Forall is_fetch_error (fetch_errors e l).
Proof.
  induction l as [|a l IH]; cbn; [constructor|].
  destruct (scrape_league e a.1); [exact IH | constructor; [exact I | exact IH]].
Qed.

Lemma fetch_errors_none (e : env) (l : list (string * string)) :
  (forall a, a ∈ l -> exists data, scrape_league e a.1 = Fetched data) ->
  fetch_errors e l = [].
Proof.
  induction l as [|[k nm] l IH]; intros H; [reflexivity|].
  cbn. destruct (H (k, nm)) as [data E]; [left|]. cbn in E. rewrite E.
  apply IH. intros a Ha. apply H. right. exact Ha.
Qed.

Lemma fetch_errors_one (e : env) (l : list (string * string))
    (failing name : string) (msg : list N) :
  NoDup (List.map fst l) ->
  (failing, name) ∈ l ->
  scrape_league e failing = FetchRaised msg ->
  (forall a, a ∈ l -> a.1 <> failing -> exists data, scrape_league e a.1 = Fetched data) ->
  fetch_errors e l = [FetchError failing name msg].
Proof.
  induction l as [|[k nm] l IH]; intros Hnd Hin Hfail Hothers; [inversion Hin|].
  cbn [List.map fst] in Hnd. apply NoDup_cons in Hnd as [Hk Hnd].
  assert (Hkeys : forall a, a ∈ l -> a.1 <> k).
  { intros a Ha E. apply Hk. rewrite <- E. apply list_elem_of_In, in_map, list_elem_of_In, Ha. }
  cbn. apply elem_of_cons in Hin as [[= <- <-]|Hin].
  - rewrite Hfail. f_equal. apply fetch_errors_none.
    intros a Ha. apply Hothers; [right; exact Ha | apply Hkeys; exact Ha].
  - destruct (Hothers (k, nm)) as [data E]; [left| |].
    + cbn. intros <-. exact (Hkeys _ Hin eq_refl).
    + cbn in E. rewrite E. apply IH; auto.
      intros a Ha. apply Hothers. right. exact Ha.
Qed.

Lemma gather_fields (e : env) (l : list (string * string)) :
  forall sd r,
    let out := fold_left (gather e) l (sd, r) in
    r_errors out.2 = r_errors r ++ fetch_errors e l
    /\ r_completed_at out.2 = r_completed_at r
    /\ r_duration out.2 = r_duration r
    /\ r_league out.2 = r_league r
    /\ r_started_at out.2 = r_started_at r
    /\ r_total_players out.2 = r_total_players r.
Proof.
  induction l as [|a l IH]; intros sd r; cbn [fold_left].
  - cbn. rewrite app_nil_r. auto 10.
  - rewrite gather_step. cbn zeta.
    destruct (IH (dict_set a.1 (data_of e a) sd)
                 (match scrape_league e a.1 with
                  | Fetched data => with_source r a.1 (length data)
                  | FetchRaised msg => with_error r (FetchError a.1 a.2 msg)
                  end)) as (H1 & H2 & H3 & H4 & H5 & H6).
    rewrite H1, H2, H3, H4, H5, H6. cbn [fetch_errors omap list_omap].
    fold (fetch_errors e l).
    destruct (scrape_league e a.1); cbn; rewrite <- ?app_assoc; auto 10.
Qed.

Lemma first_raised_cons (o : option exn) (steps : list (option exn)) :
  first_raised (o :: steps) = match o with Some x => Some x | None => first_raised steps end.
Proof. destruct o; reflexivity. Qed.

Lemma first_raised_app (l1 l2 : list (option exn)) :
  first_raised (l1 ++ l2)
  = match first_raised l1 with Some x => Some x | None => first_raised l2 end.
Proof.
  induction l1 as [|o l1 IH]; [reflexivity|].
  cbn [app]. rewrite !first_raised_cons. destruct o; [reflexivity | exact IH].
Qed.

Lemma first_raised_quiet (progress_callback : option callback) (l : list progress) :
  quiet progress_callback -> first_raised (List.map (notify progress_callback) l) = None.
Proof.
  intros Hq. induction l as [|p l IH]; [reflexivity|].
  cbn [List.map]. rewrite first_raised_cons, Hq. exact IH.
Qed.

(** The loop over the futures ends with the exception of the first call of
    the callback that raises; what it has gathered by then is what the turns
    for a prefix of the futures gather. *)
Lemma gather_from_spec (e : env) (cb : option callback) (total : nat)
    (l : list (string * string)) :
  forall i acc,
    let out := gather_from e cb total l i acc in
    out.2 = first_raised
              (List.map (notify cb)
                 (imap (fun j a => FetchedSource a.1 (S (i + j)) total) l))
    /\ (out.2 = None -> out.1 = fold_left (gather e) l acc)
    /\ exists l1 l2, l = l1 ++ l2 /\ out.1 = fold_left (gather e) l1 acc.
Proof.
  induction l as [|a l IH]; intros i acc; cbn zeta.
  - cbn. split; [reflexivity|]. split; [reflexivity|]. exists [], []. auto.
  - cbn [gather_from imap List.map]. rewrite first_raised_cons, Nat.add_0_r.
    destruct (notify cb (FetchedSource a.1 (S i) total)) as [x|] eqn:E.
    + cbn. split; [reflexivity|]. split; [discriminate|].
      exists [a], l. auto.
    + destruct (IH (S i) (gather e acc a)) as (H1 & H2 & l1 & l2 & H3 & H4).
      cbn zeta in *. split; [|split].
      * rewrite H1. f_equal. f_equal. apply imap_ext. intros j b _. cbn.
        rewrite Nat.add_succ_r. reflexivity.
      * exact H2.
      * exists (a :: l1), l2. split; [rewrite H3; reflexivity | exact H4].
Qed.

Lemma results_eq (r r' : results) :
  r_league r = r_league r' -> r_started_at r = r_started_at r' ->
  r_sources r = r_sources r' -> r_total_players r = r_total_players r' ->
  r_errors r = r_errors r' -> r_completed_at r = r_completed_at r' ->
  r_duration r = r_duration r' -> r = r'.
Proof. destruct r, r'. cbn. intros; subst; reflexivity. Qed.

Lemma gather_everything (e : env) (clk : clock) (lg : list N) :
  fold_left (gather e) (adapters e) ([], initial_results clk lg)
  = (List.map (fun a => (a.1, data_of e a)) (adapters e), fetched_results e clk lg).
Proof.
  pose proof (gather_all e (adapters e) [] (initial_results clk lg) (adapters_keys_NoDup e)) as G.
  pose proof (gather_fields e (adapters e) [] (initial_results clk lg)) as F.
  destruct (fold_left (gather e) (adapters e) ([], initial_results clk lg)) as [sd r].
  specialize (G ltac:(intros a _; split; reflexivity)).
  cbn zeta in G, F. cbn [fst snd] in G, F.
  destruct G as (G1 & G2 & G3 & G4 & G5 & G6 & G7). destruct F as (_ & _ & _ & _ & _ & F6).
  f_equal; [exact G1|].
  apply results_eq; cbn; [exact G6 | exact G7 | | exact F6 | exact G3 | exact G4 | exact G5].
  rewrite G2. apply fetched_counts.
Qed.

Lemma steps_of_fetch_none (e : env) (cb : option callback) :
  first_raised (steps_of_fetch e cb) = None ->
  notify cb Starting = None
  /\ (max_concurrent_requests e <=? 0) = false
  /\ first_raised (List.map (notify cb) (fetch_calls e)) = None.
Proof.
  unfold steps_of_fetch. cbn [app]. rewrite !first_raised_cons.
  destruct (notify cb Starting); [discriminate|].
  destruct (max_concurrent_requests e <=? 0); [discriminate|]. auto.
Qed.

(** What the run comes to once every future has been read without an
    exception. *)
Lemma sync_after_fetch (float_repr : Q -> list N) (e : env) (clk : clock) (d : db)
    (lg : list N) (cb : option callback) :
  first_raised (steps_of_fetch e cb) = None ->
  sync_league_data float_repr e clk d lg cb =
    let d1 := after_fetches e (log_sync d lg "all" "started" 0 None (t_log_started clk)).1 in
    let r1 := fetched_results e clk lg in
    match notify cb Merging with
    | Some x => sync_except clk lg cb d1 r1 x
    | None =>
    match merge_player_data (fetched_data e) lg (t_merge clk) with
    | Raise x => sync_except clk lg cb d1 r1 x
    | Ok merged_players =>
        let r2 := with_total_players r1 (length merged_players) in
        match notify cb Saving with
        | Some x => sync_except clk lg cb d1 r2 x
        | None =>
        let d2 := (save_players_to_db float_repr d1 merged_players lg (t_save clk)).1 in
        let d3 := (log_sync d2 lg "all" "completed"
                     (Z.of_nat (length merged_players)) None (t_log_completed clk)).1 in
        match close_driver e with
        | Some x => sync_except clk lg cb d3 r2 x
        | None =>
        match notify cb (Finished (length merged_players)) with
        | Some x => sync_except clk lg cb d3 r2 x
        | None => (d3, Ok (with_completion r2 (t_completed clk)))
        end
        end
        end
    end
    end.
Proof.
  intros H. apply steps_of_fetch_none in H as (Hs & Hmax & Hcalls).
  unfold sync_league_data, sync_try. cbn [log_sync fst snd]. rewrite Hs, Hmax.
  fold (initial_results clk lg).
  destruct (gather_from_spec e cb (length (adapters e)) (adapters e) 0
              ([], initial_results clk lg)) as (G1 & G2 & _).
  cbn zeta in G1, G2. cbn [Nat.add] in G1. fold (fetch_calls e) in G1.
  rewrite Hcalls in G1. specialize (G2 G1). rewrite gather_everything in G2.
  destruct (gather_from e cb (length (adapters e)) (adapters e) 0
              ([], initial_results clk lg)) as [[sd r1] ox].
  cbn [fst snd] in G1, G2. subst ox. apply pair_equal_spec in G2 as [-> ->].
  rewrite merge_player_data_fetched. cbn zeta.
  destruct (notify cb Merging); [reflexivity|].
  destruct (merge_player_data (fetched_data e) lg (t_merge clk)) as [mp|x]; [|reflexivity].
  destruct (notify cb Saving); [reflexivity|].
  destruct (close_driver e); [reflexivity|].
  cbn [with_total_players r_total_players].
  destruct (notify cb (Finished (length mp))); reflexivity.
Qed.

(** What the run comes to when a step up to the end of the loop over the
    futures raises. *)
Lemma sync_fails_in_fetch (float_repr : Q -> list N) (e : env) (clk : clock) (d : db)
    (lg : list N) (cb : option callback) (x : exn) :
  first_raised (steps_of_fetch e cb) = Some x ->
  let d1 := (log_sync d lg "all" "started" 0 None (t_log_started clk)).1 in
  exists d2 r,
    sync_league_data float_repr e clk d lg cb = sync_except clk lg cb d2 r x
    /\ ((d2 = d1 /\ r = initial_results clk lg
         /\ (notify cb Starting <> None \/ max_concurrent_requests e <= 0))
        \/ (notify cb Starting = None /\ 0 < max_concurrent_requests e
            /\ d2 = after_fetches e d1
            /\ exists l1 l2, adapters e = l1 ++ l2
                 /\ r = (fold_left (gather e) l1 ([], initial_results clk lg)).2)).
Proof.
  intros H. cbn zeta. unfold steps_of_fetch in H. cbn [app] in H.
  rewrite !first_raised_cons in H.
  unfold sync_league_data, sync_try. cbn [log_sync fst snd].
  fold (initial_results clk lg).
  destruct (notify cb Starting) as [y|] eqn:Hs.
  { injection H as ->. eexists _, _. split; [reflexivity|]. left.
    split; [reflexivity|]. split; [reflexivity|]. left. discriminate. }
  destruct (Z.leb_spec (max_concurrent_requests e) 0) as [Hmax|Hmax].
  { injection H as <-. eexists _, _. split; [reflexivity|]. left.
    split; [reflexivity|]. split; [reflexivity|]. right. exact Hmax. }
  destruct (gather_from_spec e cb (length (adapters e)) (adapters e) 0
              ([], initial_results clk lg)) as (G1 & _ & l1 & l2 & G3 & G4).
  cbn zeta in G1, G4. cbn [Nat.add] in G1. fold (fetch_calls e) in G1.
  rewrite H in G1.
  destruct (gather_from e cb (length (adapters e)) (adapters e) 0
              ([], initial_results clk lg)) as [[sd r1] ox].
  cbn [fst snd] in G1, G4. subst ox. eexists _, _. split; [reflexivity|]. right.
  split; [reflexivity|]. split; [exact Hmax|]. split; [reflexivity|].
  exists l1, l2. split; [exact G3|]. rewrite <- G4. reflexivity.
Qed.

Lemma steps_of_fetch_quiet (e : env) (cb : option callback) :
  quiet cb -> 0 < max_concurrent_requests e -> first_raised (steps_of_fetch e cb) = None.
Proof.
  intros Hq Hmax. unfold steps_of_fetch. cbn [app]. rewrite !first_raised_cons, Hq.
  destruct (Z.leb_spec (max_concurrent_requests e) 0); [lia|].
  apply first_raised_quiet, Hq.
Qed.

Lemma sync_except_spec (clk : clock) (lg : list N) (cb : option callback) (d : db)
    (r : results) (x : exn) :
  let out := sync_except clk lg cb d r x in
  sync_history out.1
  = sync_history d ++ [ledger_row (length (sync_history d)) lg "failed" 0 (Some x)
                         (t_log_failed clk)]
  /\ players out.1 = players d
  /\ cache out.1 = cache d
  /\ out.2 = match notify cb (Failing x) with
             | Some y => Raise y
             | None => Ok (with_error r (SyncFailed x))
             end.
Proof.
  cbn zeta. unfold sync_except. destruct (notify cb (Failing x)); cbn; auto.
Qed.

Lemma sync_completed (float_repr : Q -> list N) (e : env) (clk : clock) (d : db)
    (lg : list N) (cb : option callback) (merged_players : list merged) :
  quiet cb ->
  0 < max_concurrent_requests e ->
  close_driver e = None ->
  merge_player_data (fetched_data e) lg (t_merge clk) = Ok merged_players ->
  let out := sync_league_data float_repr e clk d lg cb in
  let n := length (sync_history d) in
  exists r,
    out.2 = Ok r
    /\ r_errors r = fetch_errors e (adapters e)
    /\ r_total_players r = length merged_players
    /\ r_sources r = List.map (fun sp => (sp.1, length sp.2)) (fetched_data e)
    /\ r_completed_at r = Some (t_completed clk)
    /\ players out.1
       = players (save_players_to_db float_repr d merged_players lg (t_save clk)).1
    /\ sync_history out.1 = sync_history d ++
         [ledger_row n lg "started" 0 None (t_log_started clk);
          ledger_row (S n) lg "completed" (Z.of_nat (length merged_players)) None
            (t_log_completed clk)].
Proof.
  intros Hq Hmax Hclose Hmerge. cbn zeta.
  rewrite (sync_after_fetch float_repr e clk d lg cb (steps_of_fetch_quiet e cb Hq Hmax)).
  cbv beta iota zeta. rewrite Hq, Hmerge. cbv beta iota zeta. rewrite !Hq, Hclose.
  cbn [fst snd log_sync players sync_history].
  eexists. split; [reflexivity|].
  match goal with |- context [save_players_to_db float_repr ?d0 _ _ _] =>
    pose proof (save_players_keeps_ledger float_repr d0 merged_players lg (t_save clk))
      as [Hs _];
    pose proof (save_players_players float_repr d d0 merged_players lg (t_save clk)
                  eq_refl) as Hp
  end.
  rewrite Hs, Hp. cbn. rewrite <- app_assoc, length_app. cbn.
  replace (length (sync_history d) + 1)%nat with (S (length (sync_history d))) by lia.
  repeat split.
Qed.

(** C3, as the code has it.  When exactly one adapter's fetch raises, every
    other adapter succeeds, and nothing raises after the fetch stage (the
    executor starts, the merge of the fetched records and the driver
    shutdown go through, the progress callback, if there is one, does not
    raise), the sync merges and persists the records of the successful
    sources: the call returns, [errors] holds the one entry naming the
    failing source, [total_players] counts the merged records of the other
    sources, these records are written to the players table, and the ledger
    gains a started row and a completed row, no failed one. *)
Theorem sync_source_isolation (float_repr : Q -> list N) (e : env) (clk : clock)
    (d : db) (lg : list N) (progress_callback : option callback)
    (failing name : string) (msg : list N) (merged_players : list merged) :
  quiet progress_callback ->
  0 < max_concurrent_requests e ->
  close_driver e = None ->
  (failing, name) ∈ adapters e ->
  scrape_league e failing = FetchRaised msg ->
  (forall a, a ∈ adapters e -> a.1 <> failing ->
             exists data, scrape_league e a.1 = Fetched data) ->
  merge_player_data (fetched_data e) lg (t_merge clk) = Ok merged_players ->
  let out := sync_league_data float_repr e clk d lg progress_callback in
  let d' := out.1 in
  let n := length (sync_history d) in
  exists r,
    out.2 = Ok r
    /\ r_errors r = [FetchError failing name msg]
    /\ r_total_players r = length merged_players
    /\ r_sources r = List.map (fun sp => (sp.1, length sp.2)) (fetched_data e)
    /\ r_completed_at r = Some (t_completed clk)
    /\ players d'
       = players (save_players_to_db float_repr d merged_players lg (t_save clk)).1
    /\ sync_history d' = sync_history d ++
         [ledger_row n lg "started" 0 None (t_log_started clk);
          ledger_row (S n) lg "completed" (Z.of_nat (length merged_players)) None
            (t_log_completed clk)].
Proof.
  intros Hq Hmax Hclose Hin Hfail Hothers Hmerge.
  destruct (sync_completed float_repr e clk d lg progress_callback merged_players
              Hq Hmax Hclose Hmerge) as (r & H0 & H1 & H2).
  cbn zeta. exists r. split; [exact H0|]. split; [|exact H2].
  rewrite H1. apply fetch_errors_one; auto using adapters_keys_NoDup.
Qed.

(** With FBref down, the sample sync stores what Transfermarkt and Sofascore
    report and ends completed. *)
Lemma sync_source_isolation_witness :
  let e := one_failure_env None in
  let out := sync_league_data sample_repr e sample_clock empty_db (u "MLS")
               (Some silent_callback) in
  exists r,
    out.2 = Ok r
    /\ r_errors r = [FetchError "fbref" "FBref" (u "timed out")]
    /\ r_total_players r = length surviving_merged
    /\ r_sources r = List.map (fun sp => (sp.1, length sp.2)) (fetched_data e)
    /\ r_completed_at r = Some 6
    /\ players out.1
       = players (save_players_to_db sample_repr empty_db surviving_merged (u "MLS")
                    (t_save sample_clock)).1
    /\ sync_history out.1 =
         [ledger_row 0 (u "MLS") "started" 0 None 1;
          ledger_row 1 (u "MLS") "completed" (Z.of_nat (length surviving_merged)) None 5].
Proof.
  apply (sync_source_isolation sample_repr (one_failure_env None) sample_clock empty_db
           (u "MLS") (Some silent_callback) "fbref" "FBref" (u "timed out")
           surviving_merged).
  - intros p. reflexivity.
  - reflexivity.
  - reflexivity.
  - left.
  - reflexivity.
  - intros a Ha Hne. unfold adapters in Ha. cbn in Ha.
    rewrite !elem_of_cons, elem_of_nil in Ha.
    destruct Ha as [->|[->|[->|[]]]]; [contradiction | |]; eexists; reflexivity.
  - vm_compute. reflexivity.
Defined.

(** C3 without the condition on what follows the fetch stage fails: with
    only FBref's fetch raising, a driver shutdown that raises, or a
    Transfermarkt row without a club, leaves a second error and a failed
    ledger record. *)
Lemma isolated_failure_can_end_failed :
  let run e := sync_league_data sample_repr e sample_clock empty_db (u "MLS") None in
  let shutdown := one_failure_env (Some WebDriverException) in
  (List.map (fun a => scrape_league shutdown a.1) (adapters shutdown)
     = [FetchRaised (u "timed out"); Fetched [smith_transfermarkt]; Fetched [smith_sofascore]]
   /\ (exists r, (run shutdown).2 = Ok r /\ length (r_errors r) = 2%nat)
   /\ List.map row_status (sync_history (run shutdown).1) = ["started"; "completed"; "failed"]%string)
  /\ (List.map (fun a => scrape_league no_club_env a.1) (adapters no_club_env)
     = [FetchRaised (u "timed out");
        Fetched [{[ "name" := VStr (u "John Smith"); "club" := VNone ]}]; Fetched []]
   /\ (exists r, (run no_club_env).2 = Ok r
         /\ r_errors r = [FetchError "fbref" "FBref" (u "timed out"); SyncFailed AttributeError])
   /\ List.map row_status (sync_history (run no_club_env).1) = ["started"; "failed"]%string
   /\ players (run no_club_env).1 = []).
Proof.
  cbv zeta. split; (split; [vm_compute; reflexivity|]);
    (split; [eexists; split; vm_compute; reflexivity|]); vm_compute; repeat split.
Qed.

Lemma steps_of_merge_cases (e : env) (clk : clock) (lg : list N) (cb : option callback) :
  first_raised (steps_of_merge e clk lg cb)
  = match notify cb Merging with
    | Some x => Some x
    | None =>
        match merge_player_data (fetched_data e) lg (t_merge clk) with
        | Raise x => Some x
        | Ok _ => notify cb Saving
        end
    end.
Proof.
  unfold steps_of_merge. rewrite !first_raised_cons.
  destruct (notify cb Merging); [reflexivity|].
  destruct (merge_player_data (fetched_data e) lg (t_merge clk)); cbn [raised];
    [|reflexivity].
  destruct (notify cb Saving); reflexivity.
Qed.

Lemma steps_after_save_cases (e : env) (clk : clock) (lg : list N) (cb : option callback) :
  first_raised (steps_after_save e clk lg cb)
  = match close_driver e with
    | Some x => Some x
    | None => notify cb (Finished (length (merged_of e clk lg)))
    end.
Proof.
  unfold steps_after_save. rewrite !first_raised_cons.
  destruct (close_driver e); [reflexivity|].
  destruct (notify cb _); reflexivity.
Qed.

Lemma ledger_after_save (float_repr : Q -> list N) (e : env) (d : db) (lg : list N)
    (ts : nat -> Z) (mp : list merged) (k : Z) (t0 t1 : Z) :
  let d1 := after_fetches e (log_sync d lg "all" "started" 0 None t0).1 in
  let d3 := (log_sync (save_players_to_db float_repr d1 mp lg ts).1 lg "all" "completed"
               k None t1).1 in
  sync_history d1 = sync_history d ++ [ledger_row (length (sync_history d)) lg "started" 0 None t0]
  /\ sync_history d3
     = sync_history d ++ [ledger_row (length (sync_history d)) lg "started" 0 None t0;
                          ledger_row (S (length (sync_history d))) lg "completed" k None t1].
Proof.
  cbn zeta. split; [reflexivity|]. cbn [log_sync fst sync_history].
  rewrite (proj1 (save_players_keeps_ledger float_repr _ mp lg ts)).
  cbn [after_fetches sync_history]. rewrite <- app_assoc, length_app. cbn [length app].
  replace (length (sync_history d) + 1)%nat with (S (length (sync_history d))) by lia.
  reflexivity.
Qed.

(** C9, as the code has it.  [log_sync] only appends.  A run adds a started
    record, which no later statement touches, and then: a failed record with
    the exception when a step of the [try] block raises before the save; a
    completed record with the number of merged records otherwise, followed
    by a failed record with the exception when the driver shutdown or the
    callback's last call raises.  The records the ledger held stay as they
    were, and in every record added the two time stamps are the time of its
    insertion. *)
Theorem sync_ledger_appends (float_repr : Q -> list N) (e : env) (clk : clock)
    (d : db) (lg : list N) (progress_callback : option callback) :
  let d' := (sync_league_data float_repr e clk d lg progress_callback).1 in
  let n := length (sync_history d) in
  let terminal :=
    match first_raised (steps_before_save e clk lg progress_callback) with
    | Some x => [ledger_row (S n) lg "failed" 0 (Some x) (t_log_failed clk)]
    | None =>
        ledger_row (S n) lg "completed" (Z.of_nat (length (merged_of e clk lg))) None
          (t_log_completed clk)
        :: match first_raised (steps_after_save e clk lg progress_callback) with
           | Some x => [ledger_row (S (S n)) lg "failed" 0 (Some x) (t_log_failed clk)]
           | None => []
           end
    end in
  sync_history d' =
    sync_history d ++ ledger_row n lg "started" 0 None (t_log_started clk) :: terminal
  /\ Forall (fun r => started_at r = completed_at r)
       (ledger_row n lg "started" 0 None (t_log_started clk) :: terminal).
Proof.
  cbv zeta. split.
  2:{ destruct (first_raised (steps_before_save e clk lg progress_callback));
        [repeat constructor|].
      destruct (first_raised (steps_after_save e clk lg progress_callback));
        repeat constructor. }
  unfold steps_before_save. rewrite first_raised_app.
  destruct (first_raised (steps_of_fetch e progress_callback)) as [x|] eqn:Hf.
  - destruct (sync_fails_in_fetch float_repr e clk d lg progress_callback x Hf)
      as (d2 & r & -> & Hd).
    rewrite (proj1 (sync_except_spec clk lg progress_callback d2 r x)).
    assert (E : sync_history d2
                = sync_history d ++ [ledger_row (length (sync_history d)) lg "started" 0
                                       None (t_log_started clk)]).
    { destruct Hd as [(-> & _)|(_ & _ & -> & _)]; reflexivity. }
    rewrite E, <- app_assoc, length_app. cbn [length app].
    replace (length (sync_history d) + 1)%nat with (S (length (sync_history d))) by lia.
    reflexivity.
  - rewrite (sync_after_fetch float_repr e clk d lg progress_callback Hf).
    rewrite steps_of_merge_cases, steps_after_save_cases. unfold merged_of.
    cbv zeta.
    pose proof (fun mp k => ledger_after_save float_repr e d lg (t_save clk) mp k
                              (t_log_started clk) (t_log_completed clk)) as L.
    cbv zeta in L.
    assert (Fail1 : forall r x,
      sync_history (sync_except clk lg progress_callback
        (after_fetches e (log_sync d lg "all" "started" 0 None (t_log_started clk)).1) r x).1
      = sync_history d ++
          [ledger_row (length (sync_history d)) lg "started" 0 None (t_log_started clk);
           ledger_row (S (length (sync_history d))) lg "failed" 0 (Some x) (t_log_failed clk)]).
    { intros r x. rewrite (proj1 (sync_except_spec _ _ _ _ _ _)), (proj1 (L [] 0)).
      rewrite <- app_assoc, length_app. cbn [length app].
      replace (length (sync_history d) + 1)%nat with (S (length (sync_history d))) by lia.
      reflexivity. }
    destruct (notify progress_callback Merging) as [x|]; [apply Fail1|].
    destruct (merge_player_data (fetched_data e) lg (t_merge clk)) as [mp|x];
      [|apply Fail1].
    destruct (notify progress_callback Saving) as [x|]; [apply Fail1|].
    destruct (close_driver e) as [x|].
    + rewrite (proj1 (sync_except_spec _ _ _ _ _ _)), (proj2 (L mp _)).
      rewrite <- app_assoc, length_app. cbn [length app].
      replace (length (sync_history d) + 2)%nat with (S (S (length (sync_history d)))) by lia.
      reflexivity.
    + destruct (notify progress_callback (Finished (length mp))) as [x|].
      * rewrite (proj1 (sync_except_spec _ _ _ _ _ _)), (proj2 (L mp _)).
        rewrite <- app_assoc, length_app. cbn [length app].
        replace (length (sync_history d) + 2)%nat
          with (S (S (length (sync_history d)))) by lia.
        reflexivity.
      * cbn [fst]. exact (proj2 (L mp _)).
Qed.

(** C9 as worded fails: a sync with no failure leaves two ledger records,
    the started one and the completed one, not one record finalised in
    place. *)
Lemma sync_leaves_two_ledger_rows :
  let run := sync_league_data sample_repr quiet_env sample_clock empty_db (u "MLS") None in
  sync_history run.1 =
    [ledger_row 0 (u "MLS") "started" 0 None 1;
     ledger_row 1 (u "MLS") "completed" 0 None 5]
  /\ length (sync_history run.1) <> 1%nat.
Proof. vm_compute. split; [reflexivity | discriminate]. Qed.

Lemma failed_results (clk : clock) (lg : list N) (cb : option callback) (d : db)
    (r : results) (x : exn) (fetched : list message) :
  r_league r = lg -> r_started_at r = t_started clk ->
  r_errors r = fetched -> Forall is_fetch_error fetched ->
  r_completed_at r = None -> r_duration r = None ->
  let out := sync_except clk lg cb d r x in
  (exists n,
     last (sync_history out.1)
     = Some (ledger_row n lg "failed" 0 (Some x) (t_log_failed clk)))
  /\ match notify cb (Failing x) with
     | Some y => out.2 = Raise y
     | None =>
         exists r' fetched',
           out.2 = Ok r' /\ r_league r' = lg /\ r_started_at r' = t_started clk
           /\ r_errors r' = fetched' ++ [SyncFailed x] /\ Forall is_fetch_error fetched'
           /\ r_completed_at r' = None /\ r_duration r' = None
     end.
Proof.
  intros H1 H2 H3 H4 H5 H6. cbn zeta.
  destruct (sync_except_spec clk lg cb d r x) as (E1 & _ & _ & E2). cbn zeta in E1, E2.
  split.
  - exists (length (sync_history d)). rewrite E1. apply last_snoc.
  - rewrite E2. destruct (notify cb (Failing x)); [reflexivity|].
    exists (with_error r (SyncFailed x)), fetched. cbn. rewrite H3. auto 10.
Qed.

(** C2, as the code has it.  Whether the call returns, and what, is fixed by
    the first step of the [try] block that raises.  When none does, the call
    returns its results with [completed_at] and [duration], the fetch errors
    as [errors], and the ledger ends with the completed record.  When a step
    raises [x], the ledger ends with the failed record for [x]; then, with no
    callback or one that takes the report of the failure without raising,
    the call returns results whose [errors] end with the entry for [x] after
    fetch errors only and that have neither [completed_at] nor [duration];
    and when the callback raises on that report, its exception leaves the
    call and nothing is returned. *)
Theorem sync_returns_outcome (float_repr : Q -> list N) (e : env) (clk : clock)
    (d : db) (lg : list N) (progress_callback : option callback) :
  let out := sync_league_data float_repr e clk d lg progress_callback in
  match first_raised (steps_before_save e clk lg progress_callback
                      ++ steps_after_save e clk lg progress_callback) with
  | None =>
      exists r,
        out.2 = Ok r
        /\ r_league r = lg /\ r_started_at r = t_started clk
        /\ r_errors r = fetch_errors e (adapters e)
        /\ r_total_players r = length (merged_of e clk lg)
        /\ r_completed_at r = Some (t_completed clk)
        /\ r_duration r = Some (Qred ((t_completed clk - t_started clk) # 1000000))
        /\ exists n,
             last (sync_history out.1)
             = Some (ledger_row n lg "completed"
                       (Z.of_nat (length (merged_of e clk lg))) None (t_log_completed clk))
  | Some x =>
      (exists n,
         last (sync_history out.1)
         = Some (ledger_row n lg "failed" 0 (Some x) (t_log_failed clk)))
      /\ match notify progress_callback (Failing x) with
         | Some y => out.2 = Raise y
         | None =>
             exists r fetched,
               out.2 = Ok r /\ r_league r = lg /\ r_started_at r = t_started clk
               /\ r_errors r = fetched ++ [SyncFailed x] /\ Forall is_fetch_error fetched
               /\ r_completed_at r = None /\ r_duration r = None
         end
  end.
Proof.
  cbv zeta. unfold steps_before_save. rewrite <- app_assoc, !first_raised_app.
  destruct (first_raised (steps_of_fetch e progress_callback)) as [x|] eqn:Hf.
  - destruct (sync_fails_in_fetch float_repr e clk d lg progress_callback x Hf)
      as (d2 & r & -> & Hd).
    destruct Hd as [(_ & -> & _)|(_ & _ & _ & l1 & l2 & _ & ->)].
    + apply (failed_results clk lg progress_callback d2 _ x []); try reflexivity.
      constructor.
    + destruct (gather_fields e l1 [] (initial_results clk lg))
        as (G1 & G2 & G3 & G4 & G5 & _). cbn zeta in *.
      apply (failed_results clk lg progress_callback d2 _ x (fetch_errors e l1));
        [exact G4 | exact G5 | exact G1 | apply fetch_errors_are_fetch_errors
         | exact G2 | exact G3].
  - rewrite (sync_after_fetch float_repr e clk d lg progress_callback Hf).
    rewrite steps_of_merge_cases, steps_after_save_cases. unfold merged_of.
    cbv zeta.
    assert (Fail : forall d2 n x,
      let out := sync_except clk lg progress_callback d2
                   (with_total_players (fetched_results e clk lg) n) x in
      (exists k, last (sync_history out.1)
                 = Some (ledger_row k lg "failed" 0 (Some x) (t_log_failed clk)))
      /\ match notify progress_callback (Failing x) with
         | Some y => out.2 = Raise y
         | None =>
             exists r fetched,
               out.2 = Ok r /\ r_league r = lg /\ r_started_at r = t_started clk
               /\ r_errors r = fetched ++ [SyncFailed x] /\ Forall is_fetch_error fetched
               /\ r_completed_at r = None /\ r_duration r = None
         end).
    { intros d2 n x.
      apply (failed_results clk lg progress_callback d2 _ x (fetch_errors e (adapters e)));
        try reflexivity. apply fetch_errors_are_fetch_errors. }
    cbv zeta in Fail.
    destruct (notify progress_callback Merging) as [x|]; [exact (Fail _ 0%nat x)|].
    destruct (merge_player_data (fetched_data e) lg (t_merge clk)) as [mp|x];
      [|exact (Fail _ 0%nat x)].
    destruct (notify progress_callback Saving) as [x|]; [exact (Fail _ _ x)|].
    destruct (close_driver e) as [x|]; [exact (Fail _ _ x)|].
    destruct (notify progress_callback (Finished (length mp))) as [x|];
      [exact (Fail _ _ x)|].
    eexists. split; [reflexivity|]. cbn [fst snd with_completion with_total_players
      fetched_results r_league r_started_at r_errors r_total_players r_completed_at
      r_duration log_sync sync_history].
    repeat split. eexists. rewrite last_snoc. reflexivity.
Qed.

(** C2 as worded fails.  A sync that cannot build its executor returns
    results with the error but neither [completed_at] nor [duration]; and
    when the callback raises on the report of that failure, the exception
    reaches the caller and no results are returned at all.  In both runs
    the ledger holds the started and the failed record. *)
Lemma failed_sync_lacks_completed_at :
  let run cb := sync_league_data sample_repr no_worker_env sample_clock empty_db
                  (u "MLS") cb in
  (exists r, (run None).2 = Ok r
     /\ r_errors r = [SyncFailed ValueError]
     /\ r_completed_at r = None
     /\ r_duration r = None)
  /\ List.map row_status (sync_history (run None).1) = ["started"; "failed"]%string
  /\ (run (Some failing_callback)).2 = Raise (OtherException "StreamlitAPIException")
  /\ List.map row_status (sync_history (run (Some failing_callback)).1)
     = ["started"; "failed"]%string.
Proof.
  cbv zeta. split; [eexists; vm_compute; repeat split|]. vm_compute. repeat split.
Qed.

(** *** Text normalisation and the match key *)

Lemma split_from_tokens (s : list N) :
  forall cur, Forall (fun c => isspace c = false) cur ->
              Forall is_token (split_from cur s).
Proof.
  induction s as [|c s IH]; intros cur Hcur; cbn [split_from].
  - destruct cur as [|x cur]; [constructor|].
    repeat constructor.
    + intros E. apply (f_equal (@length N)) in E. rewrite length_rev in E. discriminate.
    + apply Forall_rev. exact Hcur.
  - destruct (isspace c) eqn:Hc.
    + destruct cur as [|x cur]; [apply IH; constructor|].
      constructor; [|apply IH; constructor]. split.
      * intros E. apply (f_equal (@length N)) in E. rewrite length_rev in E. discriminate.
      * apply Forall_rev. exact Hcur.
    + apply IH. constructor; assumption.
Qed.

Lemma split_tokens (s : list N) : Forall is_token (split s).
Proof. apply split_from_tokens. constructor. Qed.

Lemma split_from_run (t s : list N) :
  Forall (fun c => isspace c = false) t ->
  forall cur, split_from cur (t ++ s) = split_from (rev t ++ cur) s.
Proof.
  induction 1 as [|c t Hc Ht IH]; intros cur; [reflexivity|].
  cbn [app split_from]. rewrite Hc, IH. cbn [rev]. rewrite <- app_assoc. reflexivity.
Qed.

Lemma split_join (ts : list (list N)) :
  Forall is_token ts -> split (join (u " ") ts) = ts.
Proof.
  unfold split. induction 1 as [|t ts [Hne Ht] Hts IH]; [reflexivity|].
  destruct ts as [|t2 ts].
  - cbn [join]. rewrite <- (app_nil_r t) at 1. rewrite (split_from_run _ _ Ht).
    rewrite app_nil_r. cbn [split_from].
    destruct (rev t) eqn:E; [|rewrite <- E, rev_involutive; reflexivity].
    apply (f_equal (@length N)) in E. rewrite length_rev in E.
    destruct t; [contradiction | discriminate].
  - change (join (u " ") (t :: t2 :: ts)) with (t ++ 32%N :: join (u " ") (t2 :: ts)).
    rewrite (split_from_run _ _ Ht), app_nil_r. cbn [split_from].
    change (isspace 32) with true. cbv iota.
    destruct (rev t) eqn:E.
    + apply (f_equal (@length N)) in E. rewrite length_rev in E.
      destruct t; [contradiction | discriminate].
    + rewrite <- E, rev_involutive, IH. reflexivity.
Qed.

Lemma split_from_trailing (w : list N) :
  Forall (fun c => isspace c = true) w ->
  forall s cur, split_from cur (s ++ w) = split_from cur s.
Proof.
  intros Hw. induction s as [|c s IH]; intros cur.
  - cbn [app]. revert cur. induction Hw as [|c w Hc Hw IHw]; intros cur; [reflexivity|].
    cbn [split_from]. rewrite Hc. destruct cur; rewrite IHw; reflexivity.
  - cbn [app split_from]. destruct (isspace c); [destruct cur|]; rewrite ?IH; reflexivity.
Qed.

Lemma dropwhile_split {A : Type} (p : A -> bool) (l : list A) :
  exists w, Forall (fun x => p x = true) w /\ l = w ++ dropwhile p l.
Proof.
  induction l as [|x l (w & Hw & E)]; [exists []; split; [constructor | reflexivity]|].
  cbn [dropwhile]. destruct (p x) eqn:Hx.
  - exists (x :: w). split; [constructor; assumption|]. cbn. congruence.
  - exists []. split; [constructor | reflexivity].
Qed.

Lemma split_lstrip (s : list N) : split (lstrip s) = split s.
Proof.
  unfold split, lstrip. induction s as [|c s IH]; [reflexivity|].
  cbn [dropwhile]. destruct (isspace c) eqn:Hc; [|reflexivity].
  cbn [split_from]. rewrite Hc. exact IH.
Qed.

Lemma split_rstrip (s : list N) : split (rstrip s) = split s.
Proof.
  unfold split, rstrip.
  destruct (dropwhile_split isspace (rev s)) as (w & Hw & E).
  apply (f_equal (@rev N)) in E. rewrite rev_involutive, rev_app_distr in E.
  rewrite E at 2. symmetry. apply split_from_trailing. apply Forall_rev. exact Hw.
Qed.

Lemma split_strip (s : list N) : split (strip s) = split s.
Proof. unfold strip. rewrite split_rstrip. apply split_lstrip. Qed.

Lemma isspace_lower_cp (c : N) : isspace (lower_cp c) = isspace c.
Proof.
  unfold lower_cp.
  destruct (((65 <=? c)%N && (c <=? 90)%N)
            || ((192 <=? c)%N && (c <=? 222)%N && negb (c =? 215)%N)) eqn:H;
    [|reflexivity].
  assert (R : (65 <= c <= 90 \/ 192 <= c <= 222)%N).
  { apply orb_true_iff in H as [H|H].
    - apply andb_true_iff in H as [H1 H2]. apply N.leb_le in H1, H2. lia.
    - apply andb_true_iff in H as [H _]. apply andb_true_iff in H as [H1 H2].
      apply N.leb_le in H1, H2. lia. }
  assert (F : forall x, (65 <= x <= 132 \/ 161 <= x <= 254)%N -> isspace x = false).
  { intros x Hx. unfold isspace.
    repeat match goal with
    | |- context [(?a <=? ?b)%N] =>
        first [ rewrite (proj2 (N.leb_le a b)) by lia
              | rewrite (proj2 (N.leb_gt a b)) by lia ]
    | |- context [(?a =? ?b)%N] => rewrite (proj2 (N.eqb_neq a b)) by lia
    end. reflexivity. }
  rewrite !F by lia. reflexivity.
Qed.

Lemma lower_cp_idempotent (c : N) : lower_cp (lower_cp c) = lower_cp c.
Proof.
  unfold lower_cp at 2.
  destruct (((65 <=? c)%N && (c <=? 90)%N)
            || ((192 <=? c)%N && (c <=? 222)%N && negb (c =? 215)%N)) eqn:H;
    [|unfold lower_cp; rewrite H; reflexivity].
  assert (R : (65 <= c <= 90 \/ 192 <= c <= 222)%N).
  { apply orb_true_iff in H as [H|H].
    - apply andb_true_iff in H as [H1 H2]. apply N.leb_le in H1, H2. lia.
    - apply andb_true_iff in H as [H _]. apply andb_true_iff in H as [H1 H2].
      apply N.leb_le in H1, H2. lia. }
  unfold lower_cp.
  replace ((c + 32 <=? 90)%N) with false by (symmetry; apply N.leb_gt; lia).
  rewrite andb_false_r. cbn [orb]. destruct R as [R|R].
  - replace ((192 <=? c + 32)%N) with false by (symmetry; apply N.leb_gt; lia).
    cbn [andb]. rewrite H. reflexivity.
  - replace ((c + 32 <=? 222)%N) with false by (symmetry; apply N.leb_gt; lia).
    rewrite andb_false_r. cbn [andb]. rewrite H. reflexivity.
Qed.

Lemma lower_idempotent (s : list N) : lower (lower s) = lower s.
Proof.
  unfold lower. rewrite List.map_map. apply List.map_ext. apply lower_cp_idempotent.
Qed.

Lemma split_from_lower (s : list N) :
  forall cur, split_from (lower cur) (lower s) = List.map lower (split_from cur s).
Proof.
  assert (R : forall l, rev (lower l) = lower (rev l))
    by (intros l; unfold lower; symmetry; apply List.map_rev).
  induction s as [|c s IH]; intros cur; cbn [lower List.map split_from].
  - destruct cur; cbn [lower List.map]; [reflexivity|].
    change (lower_cp n :: List.map lower_cp cur) with (lower (n :: cur)).
    rewrite R. reflexivity.
  - rewrite isspace_lower_cp. destruct (isspace c).
    + destruct cur as [|x cur]; cbn [lower List.map].
      * exact (IH []).
      * change (lower_cp x :: List.map lower_cp cur) with (lower (x :: cur)).
        rewrite R. f_equal. exact (IH []).
    + exact (IH (c :: cur)).
Qed.

Lemma split_lower (s : list N) : split (lower s) = List.map lower (split s).
Proof. exact (split_from_lower s []). Qed.

(** The tokens of the normalised name are the lower-cased tokens of the
    name. *)
Lemma name_tokens (name : list N) :
  split (strip (lower name)) = List.map lower (split name).
Proof. rewrite split_strip. apply split_lower. Qed.

Lemma dropwhile_idempotent {A : Type} (p : A -> bool) (l : list A) :
  dropwhile p (dropwhile p l) = dropwhile p l.
Proof.
  induction l as [|x l IH]; [reflexivity|]. cbn [dropwhile].
  destruct (p x) eqn:Hx; [exact IH|]. cbn [dropwhile]. rewrite Hx. reflexivity.
Qed.

Lemma dropwhile_head {A : Type} (p : A -> bool) (l : list A) (x : A) (l' : list A) :
  dropwhile p l = x :: l' -> p x = false.
Proof.
  induction l as [|y l IH]; cbn [dropwhile]; [discriminate|].
  destruct (p y) eqn:Hy; [exact IH|]. intros [= -> _]. exact Hy.
Qed.

Lemma dropwhile_fixed {A : Type} (p : A -> bool) (l : list A) :
  match l with [] => True | x :: _ => p x = false end -> dropwhile p l = l.
Proof. destruct l as [|x l]; [reflexivity|]. cbn. intros ->. reflexivity. Qed.

Lemma strip_trimmed (s : list N) : trimmed (strip s).
Proof.
  unfold trimmed, strip, rstrip, lstrip.
  set (a := dropwhile isspace s). set (b := dropwhile isspace (rev a)).
  split.
  - apply dropwhile_fixed. destruct (rev b) as [|x r] eqn:E; [exact I|].
    destruct (dropwhile_split isspace (rev a)) as (w & Hw & Ea). fold b in Ea.
    apply (f_equal (@rev N)) in Ea. rewrite rev_involutive, rev_app_distr, E in Ea.
    cbn in Ea. exact (dropwhile_head isspace s x _ Ea).
  - rewrite rev_involutive. unfold b. rewrite dropwhile_idempotent. reflexivity.
Qed.

Lemma strip_of_trimmed (s : list N) : trimmed s -> strip s = s.
Proof. intros [H1 H2]. unfold strip. rewrite H1. exact H2. Qed.

Lemma strip_idempotent (s : list N) : strip (strip s) = strip s.
Proof. apply strip_of_trimmed, strip_trimmed. Qed.

Lemma dropwhile_lower (s : list N) :
  dropwhile isspace (lower s) = lower (dropwhile isspace s).
Proof.
  induction s as [|c s IH]; [reflexivity|]. cbn [lower List.map dropwhile].
  rewrite isspace_lower_cp. destruct (isspace c); [exact IH | reflexivity].
Qed.

Lemma strip_lower (s : list N) : strip (lower s) = lower (strip s).
Proof.
  assert (R : forall l, rev (lower l) = lower (rev l))
    by (intros l; unfold lower; symmetry; apply List.map_rev).
  unfold strip, rstrip, lstrip. rewrite dropwhile_lower, R, dropwhile_lower, R. reflexivity.
Qed.

Lemma generate_player_key_parts (name club : list N) :
  generate_player_key (VStr name) (VStr club) =
    let '(first, final, several, c) := key_parts name club in
    key_name ← (if several
                then match first, final with
                     | Some f, Some l => Ok (f ++ u "_" ++ l)
                     | _, _ => Raise IndexError
                     end
                else match first with
                     | Some f => Ok f
                     | None => Raise IndexError
                     end);
    Ok (key_name ++ u "_" ++ c).
Proof. unfold generate_player_key, key_parts. rewrite name_tokens. reflexivity. Qed.

(** X1.  The match key is a function of the first token, the last token and
    the normalised club: names that agree on these get the same key, whatever
    stands between the first and the last token. *)
Theorem generate_player_key_first_last (name name' club club' : list N) :
  key_parts name club = key_parts name' club' ->
  generate_player_key (VStr name) (VStr club)
  = generate_player_key (VStr name') (VStr club').
Proof. intros H. rewrite !generate_player_key_parts, H. reflexivity. Qed.

Lemma generate_player_key_first_last_witness :
  generate_player_key (VStr (u "John Smith")) (VStr (u "LA Galaxy"))
  = generate_player_key (VStr (u "  JOHN  Albert   smith")) (VStr (u "la galaxy ")).
Proof.
  apply generate_player_key_first_last. vm_compute. reflexivity.
Defined.

Lemma key_parts_normalised (name club : list N) :
  key_parts (clean_text name) club = key_parts name club
  /\ key_parts (lower name) (lower club) = key_parts name club
  /\ key_parts (strip name) (strip club) = key_parts name club.
Proof.
  unfold key_parts. repeat split.
  - unfold clean_text. rewrite (split_join _ (split_tokens name)). reflexivity.
  - rewrite split_lower, List.map_map, lower_idempotent.
    rewrite (List.map_ext _ _ lower_idempotent). reflexivity.
  - rewrite split_strip, <- strip_lower, strip_idempotent. reflexivity.
Qed.

(** X2.  The key ignores surrounding and repeated blanks in the name and
    surrounding blanks in the club, for every name and club, and it ignores
    the case of a name and a club written in Basic Latin and Latin-1, the
    range on which the lower-casing of the model is that of [str.lower]. *)
Theorem generate_player_key_normalised (name club : list N) :
  generate_player_key (VStr (clean_text name)) (VStr club)
    = generate_player_key (VStr name) (VStr club)
  /\ generate_player_key (VStr (strip name)) (VStr (strip club))
    = generate_player_key (VStr name) (VStr club)
  /\ (latin1 name -> latin1 club ->
      latin1 (lower name) /\ latin1 (lower club)
      /\ generate_player_key (VStr (lower name)) (VStr (lower club))
         = generate_player_key (VStr name) (VStr club)).
Proof.
  destruct (key_parts_normalised name club) as (H1 & H2 & H3).
  rewrite !generate_player_key_parts, H1, H2, H3.
  split; [reflexivity|]. split; [reflexivity|].
  intros Hn Hc.
  assert (L : forall s, latin1 s -> latin1 (lower s)).
  { intros s Hs. unfold latin1, lower. apply Forall_map. eapply Forall_impl; [exact Hs|].
    intros c Hlt. cbn. unfold lower_cp.
    destruct (((65 <=? c)%N && (c <=? 90)%N)
              || ((192 <=? c)%N && (c <=? 222)%N && negb (c =? 215)%N)) eqn:E; [|exact Hlt].
    apply orb_true_iff in E as [E|E].
    - apply andb_true_iff in E as [_ E]. apply N.leb_le in E. lia.
    - apply andb_true_iff in E as [E _]. apply andb_true_iff in E as [_ E].
      apply N.leb_le in E. lia. }
  auto.
Qed.




Lemma generate_player_key_normalised_witness :
  latin1 (lower (u "JOHN Smith")) /\ latin1 (lower (u "LA Galaxy"))
  /\ generate_player_key (VStr (lower (u "JOHN Smith"))) (VStr (lower (u "LA Galaxy")))
     = generate_player_key (VStr (u "JOHN Smith")) (VStr (u "LA Galaxy")).
Proof.
  apply (proj2 (proj2 (generate_player_key_normalised (u "JOHN Smith") (u "LA Galaxy"))));
    unfold latin1; repeat constructor.
Defined.

(** *** [parse_number] on ASCII text *)

Lemma ascii_decimal_value (c : N) :
  (c < 128)%N ->
  decimal_value c = (if (48 <=? c)%N && (c <=? 57)%N then Some (c - 48)%N else None)
  /\ digit_only c = false.
Proof.
  intros Hc. split.
  - assert (Hrest : Forall (fun z => (128 <= z)%N) (List.tail decimal_zeros))
      by (apply (bool_decide_unpack _); vm_compute; reflexivity).
    assert (Hnone : List.find (fun z => (z <=? c)%N && (c <? z + 10)%N)
                      (List.tail decimal_zeros) = None).
    { induction Hrest as [|z l Hz _ IH]; [reflexivity|]. cbn [List.find].
      rewrite (proj2 (N.leb_gt z c)) by lia. exact IH. }
    unfold decimal_value.
    change decimal_zeros with (48%N :: List.tail decimal_zeros). cbn [List.find].
    destruct (N.leb_spec 48 c) as [H1|H1]; cbn [andb]; [|rewrite Hnone; reflexivity].
    destruct (N.leb_spec c 57) as [H2|H2].
    + replace ((c <? 48 + 10)%N) with true by (symmetry; apply N.ltb_lt; lia).
      reflexivity.
    + replace ((c <? 48 + 10)%N) with false by (symmetry; apply N.ltb_ge; lia).
      rewrite Hnone. reflexivity.
  - assert (Hall : Forall (fun r : N * N => (128 <= r.1)%N) digit_only_ranges)
      by (apply (bool_decide_unpack _); vm_compute; reflexivity).
    unfold digit_only. induction Hall as [|r l Hr _ IH]; [reflexivity|].
    cbn [existsb]. rewrite (proj2 (N.leb_gt r.1 c)) by lia. exact IH.
Qed.

Lemma ascii_text_digits (text : list N) :
  Forall (fun c => (c < 128)%N) text ->
  existsb undecodable text = false
  /\ omap decimal_value text
     = List.map (fun c => (c - 48)%N)
         (List.filter (fun c => (48 <=? c)%N && (c <=? 57)%N) text)
  /\ forallb (fun c => negb (isdigit c)) text
     = match List.filter (fun c => (48 <=? c)%N && (c <=? 57)%N) text with
       | [] => true
       | _ => false
       end.
Proof.
  induction 1 as [|c text Hc Ht (IH1 & IH2 & IH3)]; [repeat split|].
  destruct (ascii_decimal_value c Hc) as [Hd Ho].
  assert (Hi : isdigit c = (48 <=? c)%N && (c <=? 57)%N).
  { unfold isdigit. rewrite Hd, Ho. destruct (_ && _); reflexivity. }
  assert (Hu : undecodable c = false).
  { unfold undecodable. rewrite Hi, Hd. destruct (_ && _); [|reflexivity].
    rewrite bool_decide_eq_true_2 by eauto. reflexivity. }
  cbn [existsb omap list_omap List.filter forallb]. rewrite Hu, IH1, Hi, Hd, IH3.
  fold (@omap list _ _ _ decimal_value text). rewrite IH2.
  destruct (_ && _); repeat split.
Qed.

Lemma parse_number_value (lim : N) (text : list N) (default : Z) :
  parse_number lim text default =
    (if forallb (fun c => negb (isdigit c)) text then default
     else if existsb undecodable text then default
     else if negb (lim =? 0)%N
             && (lim <? N.of_nat (length (omap decimal_value text)))%N then default
     else digits_value (omap decimal_value text)).
Proof.
  unfold parse_number, parse_number_try.
  destruct (forallb (fun c => negb (isdigit c)) text) eqn:Hnone.
  - apply cleaned_nil in Hnone. rewrite Hnone. reflexivity.
  - assert (Hne : List.filter isdigit text <> []).
    { intros E. apply cleaned_nil in E. congruence. }
    destruct (List.filter isdigit text) as [|c cl] eqn:Hcl; [congruence|].
    rewrite <- Hcl. unfold int_of_digits.
    destruct (existsb undecodable text) eqn:Hbad.
    + rewrite (mapM_cleaned_undecodable _ Hbad). reflexivity.
    + rewrite (mapM_cleaned_decimal _ Hbad).
      rewrite <- (omap_decimal_length _ Hbad).
      destruct (negb (lim =? 0)%N
                && (lim <? N.of_nat (length (omap decimal_value text)))%N);
        [reflexivity|].
      destruct (omap decimal_value text) as [|d ds] eqn:Hds; [|reflexivity].
      pose proof (omap_decimal_length _ Hbad) as L.
      rewrite Hds, Hcl in L. discriminate.
Qed.

(** X4.  On a text of ASCII characters that holds no more digits than [int]
    accepts, [parse_number] returns the number its digits ['0'] to ['9']
    spell in order, and the default when it holds none. *)
Theorem parse_number_ascii (lim : N) (text : list N) (default : Z) :
  Forall (fun c => (c < 128)%N) text ->
  lim = 0%N
  \/ (N.of_nat (length (List.filter (fun c => (48 <=? c)%N && (c <=? 57)%N) text)) <= lim)%N ->
  parse_number lim text default = parse_number_claimed text default.
Proof.
  intros Hascii Hlim.
  destruct (ascii_text_digits text Hascii) as (Hu & Hd & Hn).
  rewrite parse_number_value.
  unfold parse_number_claimed. rewrite Hn, Hu, Hd.
  destruct (List.filter _ text) as [|d ds] eqn:E; [reflexivity|].
  replace (negb (lim =? 0)%N && (lim <? N.of_nat (length (List.map (fun c => (c - 48)%N) (d :: ds))))%N)
    with false; [reflexivity|].
  symmetry. destruct Hlim as [->|Hlim]; [reflexivity|].
  apply andb_false_iff. right. apply N.ltb_ge.
  rewrite length_map. exact Hlim.
Qed.

Lemma parse_number_ascii_witness :
  parse_number 4300 (u "EUR 12,500.") 7 = parse_number_claimed (u "EUR 12,500.") 7.
Proof.
  apply parse_number_ascii.
  - repeat constructor.
  - right. vm_compute. discriminate.
Defined.

(** *** The response cache and [make_request] *)

Lemma db_eq (d1 d2 : db) :
  cache d1 = cache d2 -> sync_history d1 = sync_history d2 -> players d1 = players d2 ->
  d1 = d2.
Proof. destruct d1, d2. cbn. intros -> -> ->. reflexivity. Qed.

(** X5.  The last [cache_set] of a key wins, a [cache_set] does not change
    what any other key reads, and the other tables are left alone. *)
Theorem cache_set_last_write_wins (d : db) (key v1 v2 : list N)
    (ttl1 now1 ts1 ttl2 now2 ts2 : Z) :
  let d1 := cache_set d key v1 ttl1 now1 ts1 in
  let d2 := cache_set d1 key v2 ttl2 now2 ts2 in
  d2 = cache_set d key v2 ttl2 now2 ts2
  /\ (forall t, cache_get d2 key t = if t <? now2 + ttl2 * 1000000 then Some v2 else None)
  /\ (forall k t, k <> key -> cache_get d2 k t = cache_get d k t)
  /\ sync_history d2 = sync_history d /\ players d2 = players d.
Proof.
  cbn zeta. split; [|split; [|split; [|split; reflexivity]]].
  - apply db_eq; cbn; [apply insert_insert_eq | reflexivity | reflexivity].
  - intros t. unfold cache_get. cbn. rewrite lookup_insert_eq. reflexivity.
  - intros k t Hk. unfold cache_get. cbn.
    rewrite !lookup_insert_ne by congruence. reflexivity.
Qed.

(** X6.  A [cache_set] with a TTL of zero or less stores an entry that no read
    at or after the time of the write returns. *)
Theorem cache_set_without_ttl (d : db) (key val : list N) (ttl now ts t : Z) :
  ttl <= 0 -> now <= t ->
  cache_get (cache_set d key val ttl now ts) key t = None
  /\ is_Some (cache (cache_set d key val ttl now ts) !! key).
Proof.
  intros Httl Ht. unfold cache_get. cbn. rewrite lookup_insert_eq. cbn.
  split; [|eauto]. destruct (Z.ltb_spec t (now + ttl * 1000000)); [lia | reflexivity].
Qed.

Lemma cache_set_without_ttl_witness :
  cache_get (cache_set empty_db (u "k") (u "v") 0 10 10) (u "k") 10 = None
  /\ is_Some (cache (cache_set empty_db (u "k") (u "v") 0 10 10) !! u "k").
Proof. apply cache_set_without_ttl; lia. Defined.

(** X7.  A sweep removes exactly the rows whose expiry lies before the sweep
    time and reports how many they were; an entry that expires at the very
    instant of the sweep stays in the table.  No read at or after the sweep
    time can tell that the sweep took place. *)
Theorem clear_expired_cache_spec (d : db) (now : Z) :
  let d' := (clear_expired_cache d now).1 in
  let deleted := (clear_expired_cache d now).2 in
  (forall k row, cache d' !! k = Some row <-> cache d !! k = Some row /\ now <= expiry row)
  /\ size (cache d) = (size (cache d') + deleted)%nat
  /\ (forall k t, now <= t -> cache_get d' k t = cache_get d k t)
  /\ clear_expired_cache d' now = (d', 0%nat)
  /\ sync_history d' = sync_history d /\ players d' = players d.
Proof.
  cbn zeta. unfold clear_expired_cache. cbn [fst snd cache sync_history players].
  set (kept := filter (fun kv : list N * cache_row => ¬ expiry kv.2 < now) (cache d)).
  assert (Hkept : forall k row,
            kept !! k = Some row <-> cache d !! k = Some row /\ now <= expiry row).
  { intros k row. unfold kept. rewrite map_lookup_filter_Some. cbn. intuition lia. }
  split; [exact Hkept|]. split; [|split; [|split; [|split; reflexivity]]].
  - pose proof (map_subseteq_size kept (cache d) (map_filter_subseteq _ _)). lia.
  - intros k t Ht. unfold cache_get. cbn [cache].
    destruct (kept !! k) as [row|] eqn:E.
    + apply Hkept in E as [-> _]. reflexivity.
    + destruct (cache d !! k) as [row|] eqn:E'; [|reflexivity].
      destruct (Z.ltb_spec t (expiry row)); [|reflexivity].
      assert (kept !! k = Some row) by (apply Hkept; split; [exact E' | lia]).
      congruence.
  - assert (E : filter (fun kv : list N * cache_row => ¬ expiry kv.2 < now) kept = kept).
    { apply map_filter_id. intros k row Hk. apply Hkept in Hk as [_ Hk]. cbn. lia. }
    rewrite E, Nat.sub_diag. reflexivity.
Qed.

Lemma make_request_miss (ttl : Z) (d : db) (url : list N) (net : response)
    (clk : request_clock) :
  (forall c cached, cache_get d url (t_read clk) <> Some (c :: cached)) ->
  make_request ttl d url true net clk =
    match net with
    | Body text =>
        (cache_set d url text ttl (t_write clk) (t_write_db clk), Some text)
    | RequestException => (d, None)
    end.
Proof.
  intros Hmiss. unfold make_request.
  destruct (cache_get d url (t_read clk)) as [[|c cached]|] eqn:Hc;
    [reflexivity | exfalso; exact (Hmiss c cached eq_refl) | reflexivity].
Qed.

Lemma make_request_hit (ttl : Z) (d : db) (url : list N) (net : response)
    (clk : request_clock) (c : N) (cached : list N) :
  cache_get d url (t_read clk) = Some (c :: cached) ->
  make_request ttl d url true net clk = (d, Some (c :: cached)).
Proof. intros Hc. unfold make_request. rewrite Hc. reflexivity. Qed.

Lemma cache_get_after_set (d : db) (key val : list N) (ttl now ts t : Z) :
  cache_get (cache_set d key val ttl now ts) key t
  = if t <? now + ttl * 1000000 then Some val else None.
Proof. unfold cache_get. cbn. rewrite lookup_insert_eq. reflexivity. Qed.

(** X8.  A page fetched over the network with caching on is served from the
    cache, whatever the network does, by every later request that reads the
    cache before the TTL has run out; that request leaves the database as it
    is. *)
Theorem make_request_served_from_cache (ttl : Z) (d : db) (url text : list N)
    (clk1 clk2 : request_clock) (net2 : response) :
  text <> [] ->
  (forall c cached, cache_get d url (t_read clk1) <> Some (c :: cached)) ->
  t_read clk2 < t_write clk1 + ttl * 1000000 ->
  let first := make_request ttl d url true (Body text) clk1 in
  first.2 = Some text
  /\ make_request ttl first.1 url true net2 clk2 = (first.1, Some text).
Proof.
  intros Hne Hmiss Hlive. cbn zeta. rewrite (make_request_miss _ _ _ _ _ Hmiss).
  cbn [fst snd]. split; [reflexivity|].
  destruct text as [|c text]; [contradiction|].
  apply make_request_hit. rewrite cache_get_after_set.
  destruct (Z.ltb_spec (t_read clk2) (t_write clk1 + ttl * 1000000)); [reflexivity | lia].
Qed.

Lemma make_request_served_from_cache_witness :
  let clk1 := {| t_read := 10; t_write := 12; t_write_db := 12 |} in
  let clk2 := {| t_read := 3600000000; t_write := 3600000002; t_write_db := 3600000002 |} in
  let first := make_request 21600 empty_db (u "https://fbref.com/x") true
                 (Body (u "<html>")) clk1 in
  first.2 = Some (u "<html>")
  /\ make_request 21600 first.1 (u "https://fbref.com/x") true RequestException clk2
     = (first.1, Some (u "<html>")).
Proof.
  apply make_request_served_from_cache.
  - discriminate.
  - intros c cached. vm_compute. discriminate.
  - vm_compute. reflexivity.
Defined.

(** X9.  An empty response body is written to the cache but never served from
    it: the next request for the same address goes to the network again and
    returns what the network answers. *)
Theorem make_request_empty_body_not_served (ttl : Z) (d : db) (url : list N)
    (clk1 clk2 : request_clock) (net2 : response) :
  (forall c cached, cache_get d url (t_read clk1) <> Some (c :: cached)) ->
  let first := make_request ttl d url true (Body []) clk1 in
  first.2 = Some []
  /\ is_Some (cache first.1 !! url)
  /\ (make_request ttl first.1 url true net2 clk2).2
     = match net2 with Body text => Some text | RequestException => None end.
Proof.
  intros Hmiss. cbn zeta. rewrite (make_request_miss _ _ _ _ _ Hmiss). cbn [fst snd].
  split; [reflexivity|]. split; [cbn; rewrite lookup_insert_eq; eauto|].
  rewrite make_request_miss; [destruct net2; reflexivity|].
  intros c cached. rewrite cache_get_after_set. destruct (_ <? _); discriminate.
Qed.

Lemma make_request_empty_body_not_served_witness :
  let clk1 := {| t_read := 10; t_write := 12; t_write_db := 12 |} in
  let clk2 := {| t_read := 20; t_write := 22; t_write_db := 22 |} in
  let first := make_request 21600 empty_db (u "https://fbref.com/x") true (Body []) clk1 in
  first.2 = Some []
  /\ is_Some (cache first.1 !! u "https://fbref.com/x")
  /\ (make_request 21600 first.1 (u "https://fbref.com/x") true (Body (u "<html>")) clk2).2
     = Some (u "<html>").
Proof.
  apply (make_request_empty_body_not_served 21600 empty_db (u "https://fbref.com/x")
           _ _ (Body (u "<html>"))).
  intros c cached. vm_compute. discriminate.
Defined.

(** X10.  A request writes nothing but the cache row of its own address, and
    that only when caching is on and the network answered: with caching off,
    on a cache hit, or when the network fails, the database is left as it
    is, and a failed request returns [None] unless the cache held a non-empty
    text. *)
Theorem make_request_frame (ttl : Z) (d : db) (url : list N) (use_cache : bool)
    (net : response) (clk : request_clock) :
  let d' := (make_request ttl d url use_cache net clk).1 in
  let r := (make_request ttl d url use_cache net clk).2 in
  sync_history d' = sync_history d
  /\ players d' = players d
  /\ (forall k, k <> url -> cache d' !! k = cache d !! k)
  /\ (use_cache = false ->
      d' = d /\ r = match net with Body text => Some text | RequestException => None end)
  /\ (net = RequestException ->
      d' = d
      /\ (r = None \/ exists c cached,
                        r = Some (c :: cached)
                        /\ use_cache = true
                        /\ cache_get d url (t_read clk) = Some (c :: cached))).
Proof.
  cbn zeta. unfold make_request.
  destruct use_cache.
  - destruct (cache_get d url (t_read clk)) as [[|c cached]|] eqn:Hc; destruct net;
      cbn [fst snd cache_set cache sync_history players];
      repeat split; try discriminate; try reflexivity; eauto 10;
      intros k Hk; rewrite ?lookup_insert_ne by congruence; reflexivity.
  - destruct net; cbn [fst snd]; repeat split; try discriminate; auto.
Qed.

(** *** [_save_players_to_db] *)

Lemma upsert_keys (table : list (external_id * player_row)) (k : external_id)
    (row : player_row) (x : external_id) :
  x ∈ List.map fst (upsert table k row) <-> x = k \/ x ∈ List.map fst table.
Proof.
  unfold upsert. rewrite List.map_app, elem_of_app. cbn.
  rewrite list_elem_of_singleton, !list_elem_of_In, !in_map_iff. split.
  - intros [([k' r] & <- & Hin)| ->]; [|auto]. apply filter_In in Hin as [Hin _].
    right. exists (k', r). auto.
  - intros [->|([k' r] & <- & Hin)]; [auto|]. cbn.
    destruct (decide (k' = k)) as [->|Hne]; [auto|].
    left. exists (k', r). split; [reflexivity|]. apply filter_In. split; [exact Hin|].
    cbn. rewrite bool_decide_eq_false_2 by exact Hne. reflexivity.
Qed.

Lemma upsert_NoDup (table : list (external_id * player_row)) (k : external_id)
    (row : player_row) :
  NoDup (List.map fst table) -> NoDup (List.map fst (upsert table k row)).
Proof.
  intros Hnd. unfold upsert. rewrite List.map_app. apply NoDup_app. split; [|split].
  - induction table as [|[k' r] table IH]; cbn; [constructor|].
    cbn in Hnd. apply NoDup_cons in Hnd as [Hk' Hnd].
    destruct (bool_decide (k' = k)); cbn; [exact (IH Hnd)|].
    apply NoDup_cons. split; [|exact (IH Hnd)].
    intros Hin. apply Hk'. apply list_elem_of_In, in_map_iff in Hin as ([k0 r0] & E & Hin).
    apply filter_In in Hin as [Hin _]. apply list_elem_of_In, in_map_iff. eauto.
  - intros x Hx Hk. cbn in Hk. apply list_elem_of_singleton in Hk as ->.
    apply list_elem_of_In, in_map_iff in Hx as ([k0 r0] & E & Hin). cbn in E. subst k0.
    apply filter_In in Hin as [_ Hin]. cbn in Hin.
    rewrite bool_decide_eq_true_2 in Hin by reflexivity. discriminate.
  - cbn. apply NoDup_singleton.
Qed.

Lemma upsert_rows (table : list (external_id * player_row)) (k : external_id)
    (row : player_row) (x : external_id * player_row) :
  x ∈ upsert table k row <-> x = (k, row) \/ (x ∈ table /\ x.1 <> k).
Proof.
  unfold upsert. rewrite elem_of_app, list_elem_of_singleton, !list_elem_of_In, filter_In.
  rewrite negb_true_iff, bool_decide_eq_false. tauto.
Qed.

Lemma save_players_from_spec (float_repr : Q -> list N) (lg : list N) (ts : nat -> Z)
    (ps : list merged) :
  forall i table saved,
    let out := save_players_from float_repr i ts lg ps table saved in
    out.2 = (saved + length (List.filter (insertable float_repr lg) ps))%nat
    /\ (forall k, k ∈ List.map fst out.1 <->
          k ∈ List.map fst table
          \/ exists p, p ∈ ps /\ insertable float_repr lg p = true /\ ext_id_of float_repr lg p = k)
    /\ (NoDup (List.map fst table) -> NoDup (List.map fst out.1))
    /\ (forall k row, (k, row) ∈ out.1 ->
          ((k, row) ∈ table
           /\ forall p, p ∈ ps -> insertable float_repr lg p = true -> ext_id_of float_repr lg p <> k)
          \/ exists p, p ∈ ps /\ insertable float_repr lg p = true /\ ext_id_of float_repr lg p = k
                       /\ columns row = player_columns p /\ player_league row = lg).
Proof.
  induction ps as [|p ps IH]; intros i table saved; cbn zeta.
  - cbn. split; [lia|]. split; [|split; [auto|]].
    + intros k. split; [auto|]. intros [?|(p & Hp & _)]; [assumption | inversion Hp].
    + intros k row H. left. split; [exact H|]. intros p Hp. inversion Hp.
  - cbn [save_players_from List.filter]. cbv zeta.
    fold (ext_id_of float_repr lg p). fold (insertable float_repr lg p).
    destruct (insertable float_repr lg p) eqn:Hins.
    + set (row := {| columns := player_columns p; player_league := lg;
                     last_updated := ts i |}).
      fold (upsert table (ext_id_of float_repr lg p) row).
      destruct (IH (S i) (upsert table (ext_id_of float_repr lg p) row) (S saved))
        as (H1 & H2 & H3 & H4).
      split; [rewrite H1; cbn; lia|]. split; [|split].
      * intros k. rewrite H2, upsert_keys. split.
        -- intros [[->|?]|(q & Hq & Hqi & Hqk)]; [right; exists p; split; [left|auto]
             | auto | right; exists q; split; [right; exact Hq | auto]].
        -- intros [?|(q & Hq & Hqi & Hqk)]; [auto|].
           apply elem_of_cons in Hq as [->|Hq]; [left; left; congruence|].
           right. eauto.
      * intros Hnd. apply H3, upsert_NoDup, Hnd.
      * intros k r Hin. destruct (H4 k r Hin) as [[Hup Hnone]|(q & Hq & Hqi & Hqk & Hc)].
        -- apply upsert_rows in Hup as [[= -> ->]|[Ht Hne]].
           ++ right. exists p. split; [left|]. auto.
           ++ left. split; [exact Ht|]. intros q Hq Hqi.
              apply elem_of_cons in Hq as [->|Hq]; [exact (fun E => Hne (eq_sym E))|].
              exact (Hnone q Hq Hqi).
        -- right. exists q. split; [right; exact Hq | auto].
    + destruct (IH (S i) table saved) as (H1 & H2 & H3 & H4).
      split; [exact H1|]. split; [|split; [exact H3|]].
      * intros k. rewrite H2. split.
        -- intros [?|(q & Hq & Hqi & Hqk)]; [auto|]. right. exists q. split; [right; exact Hq|auto].
        -- intros [?|(q & Hq & Hqi & Hqk)]; [auto|].
           apply elem_of_cons in Hq as [->|Hq]; [congruence|]. right. eauto.
      * intros k r Hin. destruct (H4 k r Hin) as [[Ht Hnone]|(q & Hq & Hqi & Hqk & Hc)].
        -- left. split; [exact Ht|]. intros q Hq Hqi.
           apply elem_of_cons in Hq as [->|Hq]; [congruence|]. exact (Hnone q Hq Hqi).
        -- right. exists q. split; [right; exact Hq | auto].
Qed.

Lemma save_players_from_keeps (float_repr : Q -> list N) (lg : list N) (ts : nat -> Z)
    (ps : list merged)
    (k : external_id) (row : player_row) :
  (forall p, p ∈ ps -> insertable float_repr lg p = true -> ext_id_of float_repr lg p <> k) ->
  forall i table saved,
    (k, row) ∈ table -> (k, row) ∈ (save_players_from float_repr i ts lg ps table saved).1.
Proof.
  induction ps as [|p ps IH]; intros Hk i table saved Hin; [exact Hin|].
  assert (Hps : forall q, q ∈ ps -> insertable float_repr lg q = true -> ext_id_of float_repr lg q <> k)
    by (intros q Hq; apply Hk, elem_of_cons; auto).
  cbn [save_players_from]. cbv zeta.
  fold (ext_id_of float_repr lg p). fold (insertable float_repr lg p).
  destruct (insertable float_repr lg p) eqn:Hins; [|exact (IH Hps _ _ _ Hin)].
  apply (IH Hps). apply upsert_rows. right. split; [exact Hin|].
  cbn. intros E. apply (Hk p); [left | exact Hins | symmetry; exact E].
Qed.

Lemma save_players_to_db_unfold (float_repr : Q -> list N) (d : db) (ps : list merged)
    (lg : list N)
    (ts : nat -> Z) :
  save_players_to_db float_repr d ps lg ts
  = ({| cache := cache d; sync_history := sync_history d;
        players := (save_players_from float_repr 0 ts lg ps (players d) 0).1 |},
     (save_players_from float_repr 0 ts lg ps (players d) 0).2).
Proof.
  unfold save_players_to_db.
  destruct (save_players_from float_repr 0 ts lg ps (players d) 0) as [table saved]. reflexivity.
Qed.

(** X11.  On records whose names the handler can log,
    [_save_players_to_db] returns the number of records it stores (a record
    whose identifier text or whose row does not go through is skipped),
    touches no other table, and leaves in [players] exactly the old rows
    whose identifier was not written again and, under the identifier of each
    stored record, a row holding its columns and the league.  Identifiers
    are the same when the texts [f"{name}_{club}_{league}"] are. *)
Theorem save_players_to_db_rows (float_repr : Q -> list N) (d : db)
    (ps : list merged) (lg : list N) (ts : nat -> Z)
    (Hnames : forallb loggable ps = true) :
  let out := save_players_to_db float_repr d ps lg ts in
  let stored p := insertable float_repr lg p = true in
  let id p := ext_id_of float_repr lg p in
  out.2 = length (List.filter (insertable float_repr lg) ps)
  /\ (out.2 <= length ps)%nat
  /\ cache out.1 = cache d
  /\ sync_history out.1 = sync_history d
  /\ (forall p q, id p = id q <-> ext_id_text float_repr lg p = ext_id_text float_repr lg q)
  /\ (forall k, k ∈ List.map fst (players out.1) <->
        k ∈ List.map fst (players d) \/ exists p, p ∈ ps /\ stored p /\ id p = k)
  /\ (forall k row, (k, row) ∈ players out.1 ->
        ((k, row) ∈ players d /\ forall p, p ∈ ps -> stored p -> id p <> k)
        \/ exists p, p ∈ ps /\ stored p /\ id p = k
                     /\ columns row = player_columns p /\ player_league row = lg)
  /\ (forall k row, (k, row) ∈ players d ->
        (forall p, p ∈ ps -> stored p -> id p <> k) ->
        (k, row) ∈ players out.1).
Proof.
  cbv zeta. rewrite save_players_to_db_unfold. cbn [fst snd players cache sync_history].
  destruct (save_players_from_spec float_repr lg ts ps 0%nat (players d) 0%nat)
    as (H1 & H2 & _ & H4).
  cbv zeta in *. rewrite H1. cbn [Nat.add].
  split; [reflexivity|]. split; [apply List.filter_length_le|].
  split; [reflexivity|]. split; [reflexivity|].
  split; [intros p q; unfold ext_id_of; split; [intros [= E]; exact E | intros ->; reflexivity]|].
  split; [assumption|]. split; [assumption|].
  intros k row Hin Hk.
  exact (save_players_from_keeps float_repr lg ts ps k row Hk _ _ _ Hin).
Qed.

Lemma save_players_to_db_rows_witness :
  forallb loggable surviving_merged = true
  /\ let out := save_players_to_db sample_repr empty_db surviving_merged (u "MLS")
                  (fun _ => 4) in
     out.2 = length (List.filter (insertable sample_repr (u "MLS")) surviving_merged)
     /\ sync_history out.1 = []
     /\ forall k, k ∈ List.map fst (players out.1) <->
           k ∈ [] \/ exists p, p ∈ surviving_merged
                               /\ insertable sample_repr (u "MLS") p = true
                               /\ ext_id_of sample_repr (u "MLS") p = k.
Proof.
  assert (H : forallb loggable surviving_merged = true) by (vm_compute; reflexivity).
  split; [exact H|].
  pose proof (save_players_to_db_rows sample_repr empty_db surviving_merged (u "MLS")
                (fun _ => 4) H) as (H1 & _ & _ & H4 & _ & H6 & _).
  cbv zeta. split; [exact H1|]. split; [exact H4|]. exact H6.
Defined.

(** The identifier is taken from the joined text: a record named "a" of club
    "b_c" replaces the row of a record named "a_b" of club "c".  A record
    whose name holds a lone surrogate is skipped. *)
Lemma save_players_to_db_joined_text :
  let first := save_players_to_db sample_repr empty_db [underscore_name] (u "MLS")
                 (fun _ => 4) in
  let second := save_players_to_db sample_repr first.1 [underscore_club] (u "MLS")
                  (fun _ => 8) in
  let third := save_players_to_db sample_repr second.1 [surrogate_name] (u "MLS")
                 (fun _ => 9) in
  first.2 = 1%nat /\ second.2 = 1%nat
  /\ List.map fst (players second.1) = [Md5 (u "a_b_c_MLS")]
  /\ List.map (fun kr => last_updated kr.2) (players second.1) = [8]
  /\ third.2 = 0%nat /\ players third.1 = players second.1.
Proof. vm_compute. repeat split. Qed.

(** X12.  When the identifiers stored in [players] are pairwise distinct, they
    still are after [_save_players_to_db]; the table grows by at most the
    number of rows saved, and saving the same records once more changes no
    row count. *)
Theorem save_players_to_db_unique (float_repr : Q -> list N) (d : db)
    (ps : list merged) (lg : list N)
    (ts ts' : nat -> Z)
    (Hunique : NoDup (List.map fst (players d))) :
  let out := save_players_to_db float_repr d ps lg ts in
  let again := save_players_to_db float_repr out.1 ps lg ts' in
  NoDup (List.map fst (players out.1))
  /\ (length (players d) <= length (players out.1) <= length (players d) + out.2)%nat
  /\ again.2 = out.2
  /\ length (players again.1) = length (players out.1).
Proof.
  cbn zeta. rewrite !save_players_to_db_unfold. cbn [fst snd players].
  destruct (save_players_from_spec float_repr lg ts ps 0%nat (players d) 0%nat) as (H1 & H2 & H3 & _).
  cbn zeta in *. specialize (H3 Hunique).
  set (t1 := (save_players_from float_repr 0 ts lg ps (players d) 0).1) in *.
  destruct (save_players_from_spec float_repr lg ts' ps 0%nat t1 0%nat) as (G1 & G2 & G3 & _).
  cbn zeta in *. specialize (G3 H3).
  set (t2 := (save_players_from float_repr 0 ts' lg ps t1 0).1) in *.
  split; [exact H3|]. split; [|split; [rewrite G1, H1; reflexivity|]].
  - rewrite <- !(length_map fst (players d)), <- (length_map fst t1). split.
    + apply submseteq_length, NoDup_submseteq; [exact Hunique|].
      intros k Hk. apply H2. auto.
    + rewrite H1. cbn [Nat.add].
      transitivity (length (List.map fst (players d)
                            ++ List.map (ext_id_of float_repr lg) (List.filter (insertable float_repr lg) ps))).
      * apply submseteq_length, NoDup_submseteq; [exact H3|].
        intros k Hk. apply H2 in Hk as [Hk|(p & Hp & Hi & <-)]; apply elem_of_app; [auto|].
        right. apply list_elem_of_In, in_map. apply filter_In.
        split; [apply list_elem_of_In, Hp | exact Hi].
      * rewrite length_app, !length_map. reflexivity.
  - rewrite <- (length_map fst t2), <- (length_map fst t1).
    apply Permutation_length, NoDup_Permutation; [exact G3 | exact H3|].
    intros k. rewrite G2, H2. tauto.
Qed.

Lemma save_players_to_db_unique_witness :
  NoDup (List.map fst (players sample_table))
  /\ let out := save_players_to_db sample_repr sample_table sample_merged (u "MLS") (fun _ => 8) in
     let again := save_players_to_db sample_repr out.1 sample_merged (u "MLS") (fun _ => 9) in
     NoDup (List.map fst (players out.1))
     /\ (length (players sample_table) <= length (players out.1)
         <= length (players sample_table) + out.2)%nat
     /\ again.2 = out.2
     /\ length (players again.1) = length (players out.1).
Proof.
  assert (H : NoDup (List.map fst (players sample_table)))
    by (apply (bool_decide_unpack _); vm_compute; reflexivity).
  split; [exact H|].
  exact (save_players_to_db_unique sample_repr sample_table sample_merged (u "MLS")
           (fun _ => 8) (fun _ => 9) H).
Defined.

(** *** [get_data_coverage_report] *)

Lemma round_half_even_between (q : Q) (lo hi : Z) :
  (inject_Z lo <= q)%Q -> (q <= inject_Z hi)%Q ->
  lo <= round_half_even q <= hi.
Proof.
  intros Hlo Hhi. pose proof (round_half_even_near q) as H.
  apply Qabs_Qle_condition in H. destruct H as [H1 H2].
  set (r := round_half_even q) in *. split.
  - assert (L : (inject_Z (lo - r) < inject_Z 1)%Q).
    { unfold Z.sub. rewrite inject_Z_plus, inject_Z_opp. change (inject_Z 1) with 1%Q. lra. }
    rewrite <- Zlt_Qlt in L. lia.
  - assert (L : (inject_Z (r - hi) < inject_Z 1)%Q).
    { unfold Z.sub. rewrite inject_Z_plus, inject_Z_opp. change (inject_Z 1) with 1%Q. lra. }
    rewrite <- Zlt_Qlt in L. lia.
Qed.

Lemma round1_between (x : Q) (lo hi : Z) :
  (inject_Z lo <= x)%Q -> (x <= inject_Z hi)%Q ->
  (inject_Z lo <= round1 x)%Q /\ (round1 x <= inject_Z hi)%Q.
Proof.
  intros Hlo Hhi. unfold round1. rewrite Qred_correct.
  destruct (round_half_even_between (x * 10) (lo * 10) (hi * 10)) as [H1 H2].
  - rewrite inject_Z_mult. change (inject_Z 10) with 10%Q. lra.
  - rewrite inject_Z_mult. change (inject_Z 10) with 10%Q. lra.
  - set (r := round_half_even (x * 10)) in *.
    unfold Qle, inject_Z. cbn. lia.
Qed.

Lemma round_half_even_comp (x y : Q) :
  (x == y)%Q -> round_half_even x = round_half_even y.
Proof.
  intros E. unfold round_half_even. rewrite (Qfloor_comp _ _ E).
  assert (C : ((x - inject_Z (Qfloor y)) ?= (1 # 2))%Q
              = ((y - inject_Z (Qfloor y)) ?= (1 # 2))%Q)
    by (apply Qcompare_comp; [rewrite E|]; reflexivity).
  rewrite C. reflexivity.
Qed.

Lemma round1_comp (x y : Q) : (x == y)%Q -> round1 x = round1 y.
Proof.
  intros E. unfold round1.
  rewrite (round_half_even_comp (x * 10) (y * 10)) by (rewrite E; reflexivity).
  reflexivity.
Qed.

Lemma count_league_with_le (d : db) (lg : list N) (idf : string) :
  (count_league_with d lg idf <= count_league d lg)%nat.
Proof.
  unfold count_league_with, count_league.
  induction (players d) as [|kr t IH]; cbn [List.filter]; [reflexivity|].
  destruct (bool_decide (player_league kr.2 = lg)); cbn [andb]; [|exact IH].
  destruct (negb _); cbn [length]; lia.
Qed.

Lemma coverage_percentage_range (count total : nat) :
  (count <= total)%nat ->
  match total with
  | O => coverage_percentage count total = VInt 0
  | _ => exists q, coverage_percentage count total = VFloat q
                   /\ (0 <= q)%Q /\ (q <= 100)%Q
                   /\ (Qabs (q - inject_Z (Z.of_nat count) / inject_Z (Z.of_nat total) * 100)
                       <= 1 # 20)%Q
                   /\ (count = total -> q = 100%Q)
                   /\ (count = O -> q = 0%Q)
  end.
Proof.
  intros Hle. destruct total as [|n]; [reflexivity|].
  set (total := S n) in *. unfold coverage_percentage. fold total.
  set (x := (inject_Z (Z.of_nat count) / inject_Z (Z.of_nat total) * 100)%Q).
  assert (Ht : (0 < inject_Z (Z.of_nat total))%Q).
  { change 0%Q with (inject_Z 0). rewrite <- Zlt_Qlt. lia. }
  assert (Hc : (0 <= inject_Z (Z.of_nat count))%Q).
  { change 0%Q with (inject_Z 0). rewrite <- Zle_Qle. lia. }
  assert (Hct : (inject_Z (Z.of_nat count) <= inject_Z (Z.of_nat total))%Q).
  { rewrite <- Zle_Qle. lia. }
  assert (Hx : (0 <= x /\ x <= 100)%Q).
  { unfold x. set (c := inject_Z (Z.of_nat count)) in *.
    set (t := inject_Z (Z.of_nat total)) in *.
    assert (E : (c / t * t == c)%Q) by (field; lra).
    split.
    - apply Qmult_le_0_compat; [|lra]. apply Qle_shift_div_l; [exact Ht | lra].
    - assert (c / t <= 1)%Q by (apply Qle_shift_div_r; [exact Ht | lra]). lra. }
  exists (round1 x). split; [reflexivity|].
  destruct (round1_between x 0 100) as [H1 H2]; [apply Hx | apply Hx |].
  split; [exact H1|]. split; [exact H2|]. split; [apply round1_near|]. split.
  - intros ->. unfold x.
    assert (E : (inject_Z (Z.of_nat total) / inject_Z (Z.of_nat total) * 100 == inject_Z 100)%Q).
    { change (inject_Z 100) with 100%Q. field. lra. }
    rewrite (round1_comp _ _ E). reflexivity.
  - intros ->. unfold x. apply (round1_comp _ 0). cbn [Z.of_nat]. field. lra.
Qed.

(** X13.  [get_data_coverage_report] never divides by zero and reports, for
    FBref, Transfermarkt, Sofascore and ASA in this order, a count that is at
    most the league's total and a percentage that is the integer [0] for a
    league with no stored player and otherwise a float between 0 and 100,
    within 0.05 of [count / total * 100], equal to 100 when every player is
    covered and to 0 when none is. *)
Theorem get_data_coverage_report_spec (d : db) (lg : list N) :
  let r := get_data_coverage_report d lg in
  let total := count_league d lg in
  cov_league r = lg
  /\ cov_total_players r = total
  /\ List.map fst (cov_sources r) = ["FBref"; "Transfermarkt"; "Sofascore"; "ASA"]%string
  /\ forall name count pct, (name, (count, pct)) ∈ cov_sources r ->
       (count <= total)%nat
       /\ (total = O -> count = O /\ pct = VInt 0)
       /\ (total <> O ->
           exists q, pct = VFloat q /\ (0 <= q)%Q /\ (q <= 100)%Q
             /\ (Qabs (q - inject_Z (Z.of_nat count) / inject_Z (Z.of_nat total) * 100)
                 <= 1 # 20)%Q
             /\ (count = total -> q = 100%Q)
             /\ (count = O -> q = 0%Q)).
Proof.
  cbn zeta. split; [reflexivity|]. split; [reflexivity|].
  assert (E : cov_sources (get_data_coverage_report d lg)
              = List.map (fun '(idf, name) =>
                            (name, (count_league_with d lg idf,
                                    coverage_percentage (count_league_with d lg idf)
                                                        (count_league d lg))))
                         coverage_sources).
  { cbv - [count_league count_league_with coverage_percentage]. reflexivity. }
  rewrite E. split; [reflexivity|].
  intros name count pct Hin.
  apply list_elem_of_In, in_map_iff in Hin as ([idf nm] & [= <- <- <-] & _).
  pose proof (count_league_with_le d lg idf) as Hle.
  pose proof (coverage_percentage_range _ _ Hle) as Hp.
  split; [exact Hle|]. split.
  - intros H0. rewrite H0 in Hp, Hle. rewrite H0. split; [lia | exact Hp].
  - intros Hne. destruct (count_league d lg); [contradiction | exact Hp].
Qed.

(** *** The records the merger returns *)

Lemma merge_id_at (p : player) (l : list string) (s : string) :
  forall m, NoDup l -> s ∈ l ->
    fold_left (merge_id p) l m !! s = id_step (m !! s) (p !! s).
Proof.
  induction l as [|a l IH]; intros m Hnd Hin; [inversion Hin|].
  apply NoDup_cons in Hnd as [Ha Hnd]. cbn [fold_left].
  destruct (decide (s = a)) as [->|Hne].
  - rewrite (merge_id_other _ _ _ _ Ha). unfold merge_id, id_step.
    destruct (p !! a) as [v|]; [|reflexivity].
    destruct (truthy v); [apply lookup_insert_eq | reflexivity].
  - apply elem_of_cons in Hin as [?|Hin]; [contradiction|].
    rewrite (IH _ Hnd Hin). f_equal. unfold merge_id.
    destruct (p !! a) as [v|]; [|reflexivity].
    destruct (truthy v); [apply lookup_insert_ne; congruence | reflexivity].
Qed.

Lemma fields_ids_disjoint (k : string) : k ∈ fields -> k ∈ id_fields -> False.
Proof.
  unfold fields, id_fields. rewrite !elem_of_cons, elem_of_nil.
  intros Hf Hid. repeat destruct Hf as [->|Hf]; try exact Hf;
    repeat destruct Hid as [Hid|Hid]; try discriminate; exact Hid.
Qed.

Lemma fields_stats_disjoint (k : string) : k ∈ fields -> k ∈ stats -> False.
Proof.
  unfold fields, stats. rewrite !elem_of_cons, elem_of_nil.
  intros Hf Hid. repeat destruct Hf as [->|Hf]; try exact Hf;
    repeat destruct Hid as [Hid|Hid]; try discriminate; exact Hid.
Qed.

Lemma ids_stats_disjoint (k : string) : k ∈ id_fields -> k ∈ stats -> False.
Proof.
  unfold id_fields, stats. rewrite !elem_of_cons, elem_of_nil.
  intros Hf Hid. repeat destruct Hf as [->|Hf]; try exact Hf;
    repeat destruct Hid as [Hid|Hid]; try discriminate; exact Hid.
Qed.

Lemma merge_player_info_id (mg mg' : merged) (p : player) (src idf : string) :
  merge_player_info mg p src = Ok mg' -> idf ∈ id_fields ->
  m_fields mg' !! idf = id_step (m_fields mg !! idf) (p !! idf).
Proof.
  intros H Hid. apply merge_player_info_inv in H as (fs & Hfs & -> & _).
  rewrite merge_stat_other by (intros Hs; exact (ids_stats_disjoint _ Hid Hs)).
  rewrite merge_id_at; [|apply (bool_decide_unpack _); vm_compute; reflexivity|exact Hid].
  f_equal. apply (fold_fields_other p fields idf _ _ Hfs).
  intros Hf. exact (fields_ids_disjoint _ Hf Hid).
Qed.

Lemma merge_player_info_rest (mg mg' : merged) (p : player) (src k : string) :
  merge_player_info mg p src = Ok mg' -> k ∉ merged_keys ->
  m_fields mg' !! k = m_fields mg !! k.
Proof.
  intros H Hk. apply merge_player_info_inv in H as (fs & Hfs & -> & _).
  unfold merged_keys in Hk. rewrite !not_elem_of_app in Hk. destruct Hk as (Hf & Hi & Hs).
  rewrite merge_stat_other by exact Hs. rewrite merge_id_other by exact Hi.
  exact (fold_fields_other p fields k _ _ Hfs Hf).
Qed.

Lemma rating_mean_float (a b w : value) :
  rating_mean a b = Ok w ->
  exists qa qb, num a = Some qa /\ num b = Some qb /\ w = VFloat (round1 ((qa + qb) / 2)).
Proof.
  unfold rating_mean. destruct (num a) as [qa|]; [|intros [=]].
  destruct (num b) as [qb|]; [|intros [=]]. intros [= <-]. eauto.
Qed.

Lemma merge_player_info_reported (cands : list (string * player)) (mg mg' : merged)
    (p : player) (src : string) :
  merge_player_info mg p src = Ok mg' -> (src, p) ∈ cands ->
  reported_by cands (m_fields mg) -> reported_by cands (m_fields mg').
Proof.
  intros H Hp Hinv k v Hk.
  assert (Hnew : forall nv, p !! k = Some nv -> v = nv -> is_none nv = false ->
            k ∈ merged_keys -> k ∈ merged_keys /\ is_none v = false
            /\ (k <> "rating"%string ->
                exists sp, sp ∈ cands /\ (sp.2 : player) !! k = Some v)).
  { intros nv Hnv -> Hnn Hmk. split; [exact Hmk|]. split; [exact Hnn|].
    intros _. exists (src, p). auto. }
  destruct (decide (k ∈ fields)) as [Hf|Hf].
  - assert (Hmk : k ∈ merged_keys) by (apply elem_of_app; auto).
    pose proof (merge_player_info_field _ _ _ _ _ H Hf) as E. rewrite Hk in E.
    unfold field_step in E. destruct (p !! k) as [nv|] eqn:Hnv.
    + destruct (is_none nv) eqn:Hnn; [injection E as E; exact (Hinv _ _ E)|].
      destruct (m_fields mg !! k) as [o|] eqn:Ho.
      * destruct (Hinv _ _ Ho) as (_ & Hon & Hop).
        destruct (String.eqb_spec k "market_value") as [->|Hmv].
        -- destruct (py_max o nv) as [w|] eqn:Em; cbn in E; [|discriminate].
           injection E as ->. apply py_max_num in Em as [[->| ->] _].
           ++ exact (Hinv _ _ Ho).
           ++ exact (Hnew nv eq_refl eq_refl Hnn Hmk).
        -- destruct (String.eqb_spec k "rating") as [->|Hr].
           ++ destruct (rating_mean o nv) as [w|] eqn:Em; cbn in E; [|discriminate].
              injection E as ->. apply rating_mean_float in Em as (qa & qb & _ & _ & ->).
              split; [exact Hmk|]. split; [reflexivity|]. intros Hne. contradiction.
           ++ injection E as E. rewrite Hon in E. subst v. exact (Hinv _ _ Ho).
      * injection E as E. symmetry in E. exact (Hnew nv eq_refl E Hnn Hmk).
    + injection E as E. exact (Hinv _ _ E).
  - destruct (decide (k ∈ id_fields)) as [Hi|Hi].
    + assert (Hmk : k ∈ merged_keys)
        by (apply elem_of_app; right; apply elem_of_app; auto).
      rewrite (merge_player_info_id _ _ _ _ _ H Hi) in Hk. unfold id_step in Hk.
      destruct (p !! k) as [nv|] eqn:Hnv; [|exact (Hinv _ _ Hk)].
      destruct (truthy nv) eqn:Ht; [|exact (Hinv _ _ Hk)].
      injection Hk as Hk. symmetry in Hk. apply (Hnew nv eq_refl Hk); [|exact Hmk].
      destruct nv; [discriminate Ht | reflexivity | reflexivity | reflexivity].
    + destruct (decide (k ∈ stats)) as [Hs|Hs].
      * assert (Hmk : k ∈ merged_keys)
          by (apply elem_of_app; right; apply elem_of_app; auto).
        rewrite (merge_player_info_stat _ _ _ _ _ H Hs) in Hk. unfold stat_step in Hk.
        destruct (p !! k) as [nv|] eqn:Hnv; [|exact (Hinv _ _ Hk)].
        destruct (is_none nv) eqn:Hnn; [exact (Hinv _ _ Hk)|].
        injection Hk as Hk. symmetry in Hk. exact (Hnew nv eq_refl Hk Hnn Hmk).
      * rewrite (merge_player_info_rest _ _ _ _ k H) in Hk; [exact (Hinv _ _ Hk)|].
        unfold merged_keys. rewrite !not_elem_of_app. auto.
Qed.

Lemma fold_cluster_reported (cands l : list (string * player)) :
  (forall sp, sp ∈ l -> sp ∈ cands) ->
  forall mg m, fold_cluster mg l = Ok m ->
    reported_by cands (m_fields mg) -> reported_by cands (m_fields m).
Proof.
  induction l as [|[src p] l IH]; intros Hsub mg m H Hinv.
  - cbn in H. injection H as <-. exact Hinv.
  - cbn [fold_cluster fold_result fst snd] in H.
    destruct (merge_player_info mg p src) as [mg1|x] eqn:E;
      cbn [mbind result_bind] in H; [|discriminate].
    apply (IH (fun sp Hsp => Hsub sp (proj2 (elem_of_cons _ _ _) (or_intror Hsp))) mg1 m H).
    apply (merge_player_info_reported cands mg mg1 p src E); [|exact Hinv].
    apply Hsub, elem_of_cons. left. reflexivity.
Qed.

Lemma ids_fold (idf : string) (l : list (string * player)) :
  idf ∈ id_fields ->
  forall mg m, fold_cluster mg l = Ok m ->
    m_fields m !! idf =
      match last (truthy_values idf l) with
      | Some v => Some v
      | None => m_fields mg !! idf
      end.
Proof.
  intros Hs. induction l as [|[src p] l IH]; intros mg m H.
  - cbn in H. injection H as <-. reflexivity.
  - cbn [fold_cluster fold_result fst snd] in H.
    destruct (merge_player_info mg p src) as [mg1|x] eqn:E;
      cbn [mbind result_bind] in H; [|discriminate].
    rewrite (IH _ _ H). rewrite (merge_player_info_id _ _ _ _ _ E Hs).
    unfold truthy_values. cbn [omap list_omap snd]. fold (truthy_values idf l).
    unfold id_step. destruct (p !! idf) as [v|]; [|reflexivity].
    destruct (truthy v); [|reflexivity].
    rewrite last_cons. destruct (last (truthy_values idf l)); reflexivity.
Qed.

Lemma sources_fold (src : string) (l : list (string * player)) :
  forall mg m, fold_cluster mg l = Ok m ->
    dict_get src (m_sources m) =
      match last (records_of src l) with
      | Some p => Some p
      | None => dict_get src (m_sources mg)
      end
    /\ m_league m = m_league mg /\ m_last_updated m = m_last_updated mg.
Proof.
  induction l as [|[s p] l IH]; intros mg m H.
  - cbn in H. injection H as <-. auto.
  - cbn [fold_cluster fold_result fst snd] in H.
    destruct (merge_player_info mg p s) as [mg1|x] eqn:E;
      cbn [mbind result_bind] in H; [|discriminate].
    destruct (IH _ _ H) as (-> & -> & ->).
    apply merge_player_info_inv in E as (fs & _ & _ & Hsrc & -> & ->).
    split; [|auto]. rewrite Hsrc. unfold records_of. cbn [List.filter fst].
    destruct (decide (s = src)) as [->|Hne].
    + rewrite bool_decide_eq_true_2 by reflexivity. cbn [List.map snd].
      fold (records_of src l). rewrite last_cons, dict_get_set_eq.
      destruct (last (records_of src l)); reflexivity.
    + rewrite bool_decide_eq_false_2 by exact Hne. fold (records_of src l).
      rewrite dict_get_set_ne by congruence. reflexivity.
Qed.

Lemma cluster_subset (key : list N) (cands : list (string * player)) (sp : string * player) :
  sp ∈ cluster key cands -> sp ∈ cands /\ player_key sp.2 = Ok key.
Proof.
  unfold cluster. rewrite !list_elem_of_In, filter_In, bool_decide_eq_true. tauto.
Qed.

(** X14.  Every entry of a record [_merge_player_data] returns sits under one of
    the keys listed in [_merge_player_info] (a key a scraper reports under
    another name, such as FBref's [minutes], is dropped), is never [None],
    and, unless it is the rating, is a value that a candidate with the
    record's match key reports under the same key; the record carries the
    league of the call. *)
Theorem merged_record_fields (sd : list (string * list player)) (lg : list N)
    (now : nat -> Z) (finals : list merged) (m : merged) :
  merge_player_data sd lg now = Ok finals -> m ∈ finals ->
  m_league m = lg
  /\ exists key, forall k v, m_fields m !! k = Some v ->
       k ∈ fields ++ id_fields ++ stats
       /\ v <> VNone
       /\ (k <> "rating"%string ->
           exists sp, sp ∈ candidates sd /\ player_key sp.2 = Ok key
                      /\ (sp.2 : player) !! k = Some v).
Proof.
  intros H Hm. destruct (final_is_cluster_fold _ _ _ _ _ H Hm) as (key & t & _ & Hf).
  destruct (sources_fold "fbref" _ _ _ Hf) as (_ & Hl & _).
  split; [exact Hl|]. exists key. intros k v Hk.
  assert (R : reported_by (cluster key (candidates sd)) (m_fields m)).
  { apply (fold_cluster_reported _ _ (fun sp Hsp => Hsp) _ _ Hf).
    intros k' v' Hk'. cbn in Hk'. rewrite lookup_empty in Hk'. discriminate. }
  destruct (R k v Hk) as (Hmk & Hnn & Hp). split; [exact Hmk|].
  split; [intros ->; discriminate|].
  intros Hne. destruct (Hp Hne) as (sp & Hsp & Hv).
  apply cluster_subset in Hsp as [Hsp Hkey]. eauto.
Qed.

Lemma merged_record_fields_witness :
  m_league sample_record = u "MLS"
  /\ exists key, forall k v, m_fields sample_record !! k = Some v ->
       k ∈ fields ++ id_fields ++ stats
       /\ v <> VNone
       /\ (k <> "rating"%string ->
           exists sp, sp ∈ candidates sample_sources /\ player_key sp.2 = Ok key
                      /\ (sp.2 : player) !! k = Some v).
Proof.
  apply (merged_record_fields sample_sources (u "MLS") (t_merge sample_clock)
           sample_merged sample_record).
  - vm_compute. reflexivity.
  - apply list_elem_of_In. vm_compute. left. reflexivity.
Defined.

(** X15.  The id fields take the latest truthy value: in a record
    [_merge_player_data] returns, each of [fbref_id], [transfermarkt_id],
    [sofascore_id] and [asa_id] holds the last truthy value the candidates
    with the record's match key report for it, and is absent when none
    reports one. *)
Theorem merged_ids_latest_truthy (sd : list (string * list player)) (lg : list N)
    (now : nat -> Z) (finals : list merged) (m : merged) :
  merge_player_data sd lg now = Ok finals -> m ∈ finals ->
  exists key, cluster key (candidates sd) <> []
    /\ forall idf, idf ∈ id_fields ->
         m_fields m !! idf = last (truthy_values idf (cluster key (candidates sd))).
Proof.
  intros H Hm. destruct (final_is_cluster_fold _ _ _ _ _ H Hm) as (key & t & Hne & Hf).
  exists key. split; [exact Hne|]. intros idf Hid.
  rewrite (ids_fold idf _ Hid _ _ Hf). cbn [new_entry m_fields].
  rewrite lookup_empty. destruct (last _); reflexivity.
Qed.

(** X16.  [sources] keeps one record per source: in a record
    [_merge_player_data] returns, the entry of a source is the last record
    that source contributed under the record's match key (an earlier one from
    the same source is overwritten), and a source that contributed none has
    no entry. *)
Theorem merged_sources_latest_record (sd : list (string * list player)) (lg : list N)
    (now : nat -> Z) (finals : list merged) (m : merged) :
  merge_player_data sd lg now = Ok finals -> m ∈ finals ->
  exists key, cluster key (candidates sd) <> []
    /\ m_sources m <> []
    /\ forall src,
         dict_get src (m_sources m) = last (records_of src (cluster key (candidates sd))).
Proof.
  intros H Hm. destruct (final_is_cluster_fold _ _ _ _ _ H Hm) as (key & t & Hne & Hf).
  exists key. split; [exact Hne|].
  assert (Hall : forall src, dict_get src (m_sources m)
                   = last (records_of src (cluster key (candidates sd)))).
  { intros src. destruct (sources_fold src _ _ _ Hf) as (-> & _).
    cbn [new_entry m_sources dict_get]. destruct (last _); reflexivity. }
  split; [|exact Hall].
  destruct (cluster key (candidates sd)) as [|[s p] l] eqn:E; [contradiction|].
  intros Hnil. specialize (Hall s). rewrite Hnil in Hall. cbn [dict_get] in Hall.
  unfold records_of in Hall. cbn [List.filter fst] in Hall.
  rewrite bool_decide_eq_true_2 in Hall by reflexivity. cbn [List.map snd] in Hall.
  symmetry in Hall. apply last_None in Hall. discriminate.
Qed.

Lemma merged_ids_latest_truthy_witness :
  exists key, cluster key (candidates id_sources) <> []
    /\ forall idf, idf ∈ id_fields ->
         m_fields id_record !! idf
         = last (truthy_values idf (cluster key (candidates id_sources))).
Proof.
  apply (merged_ids_latest_truthy id_sources (u "MLS") (fun _ => 3) id_merged id_record).
  - vm_compute. reflexivity.
  - apply list_elem_of_In. vm_compute. left. reflexivity.
Defined.

Lemma merged_sources_latest_record_witness :
  exists key, cluster key (candidates id_sources) <> []
    /\ m_sources id_record <> []
    /\ forall src,
         dict_get src (m_sources id_record)
         = last (records_of src (cluster key (candidates id_sources))).
Proof.
  apply (merged_sources_latest_record id_sources (u "MLS") (fun _ => 3) id_merged id_record).
  - vm_compute. reflexivity.
  - apply list_elem_of_In. vm_compute. left. reflexivity.
Defined.

Lemma fold_merge_one_keys (lg : list N) (now : nat -> Z) (cands : list (string * player))
    (mp : list (list N * merged)) :
  fold_result (fun acc sp => merge_one lg now sp.1 acc sp.2) cands [] = Ok mp ->
  forall key, key ∈ List.map fst mp <->
              exists sp, sp ∈ cands /\ player_key sp.2 = Ok key.
Proof.
  intros Hmp key. split.
  - intros Hin. apply list_elem_of_In, in_map_iff in Hin as ([k m] & E & Hin).
    cbn in E. subst k. apply list_elem_of_In in Hin.
    assert (Hne : cluster key cands <> []).
    { apply (fold_merge_one_nonempty _ _ _ _ _ _ Hmp); [reflexivity|].
      destruct (dict_get key mp) eqn:E; [eauto|].
      exfalso. clear -Hin E. induction mp as [|[k' m'] mp IH]; [inversion Hin|].
      cbn in E. destruct (decide (key = k')) as [->|Hne]; [discriminate|].
      apply elem_of_cons in Hin as [[= ? ?]|Hin]; [congruence | exact (IH Hin E)]. }
    destruct (cluster key cands) as [|sp l] eqn:E; [contradiction|].
    exists sp. apply cluster_subset. rewrite E. left.
  - intros (sp & Hsp & Hkey).
    destruct (fold_merge_one_covers _ _ _ _ _ _ Hmp Hsp) as (key' & Hkey' & [m Hm]).
    rewrite Hkey in Hkey'. injection Hkey' as <-.
    apply dict_get_elem in Hm. apply list_elem_of_In, in_map_iff.
    exists (key, m). split; [reflexivity | apply list_elem_of_In, Hm].
Qed.

(** X17.  [_merge_player_data] returns exactly one record per distinct match
    key of its candidates: never more records than candidates, and none only
    when there is no candidate. *)
Theorem merged_one_record_per_key (sd : list (string * list player)) (lg : list N)
    (now : nat -> Z) (finals : list merged) :
  merge_player_data sd lg now = Ok finals ->
  (length finals <= length (candidates sd))%nat
  /\ (finals = [] <-> candidates sd = [])
  /\ exists keys, length keys = length finals /\ NoDup keys
       /\ forall key, key ∈ keys <->
             exists sp, sp ∈ candidates sd /\ player_key sp.2 = Ok key.
Proof.
  intros H. apply merge_player_data_inv in H as (mp & Hmp & -> & Hnd).
  pose proof (fold_merge_one_keys _ _ _ _ Hmp) as Hkeys.
  assert (Hlen : (length (List.map fst mp) <= length (candidates sd))%nat).
  { transitivity (length (omap (fun sp : string * player =>
                                  match player_key sp.2 with
                                  | Ok k => Some k
                                  | Raise _ => None
                                  end) (candidates sd))).
    - apply submseteq_length, NoDup_submseteq; [exact Hnd|].
      intros key Hk. apply Hkeys in Hk as (sp & Hsp & Hkey).
      apply list_elem_of_omap. exists sp. rewrite Hkey. auto.
    - generalize (candidates sd). intros l. induction l as [|sp l IH]; cbn; [lia|].
      destruct (player_key sp.2); cbn; lia. }
  rewrite !length_map in *. split; [exact Hlen|]. split.
  - split.
    + intros E. destruct (candidates sd) as [|sp l] eqn:Ec; [reflexivity|].
      assert (Hsp : sp ∈ sp :: l) by left.
      destruct (fold_merge_one_covers _ _ _ _ _ _ Hmp Hsp) as (key & _ & [m Hm]).
      apply dict_get_elem in Hm. destruct mp; [inversion Hm | discriminate E].
    + intros E. rewrite E in Hlen. destruct mp; [reflexivity | cbn in Hlen; lia].
  - exists (List.map fst mp). rewrite !length_map. auto.
Qed.

Lemma merged_one_record_per_key_witness :
  (length id_merged <= length (candidates id_sources))%nat
  /\ (id_merged = [] <-> candidates id_sources = [])
  /\ exists keys, length keys = length id_merged /\ NoDup keys
       /\ forall key, key ∈ keys <->
             exists sp, sp ∈ candidates id_sources /\ player_key sp.2 = Ok key.
Proof.
  apply (merged_one_record_per_key id_sources (u "MLS") (fun _ => 3) id_merged).
  vm_compute. reflexivity.
Defined.

Lemma rating_step_between (lo hi : Z) (mg mg' : merged) (p : player) (src : string) :
  merge_player_info mg p src = Ok mg' ->
  rating_between lo hi p ->
  (forall w, m_fields mg !! "rating" = Some w -> number_between lo hi w) ->
  forall w, m_fields mg' !! "rating" = Some w -> number_between lo hi w.
Proof.
  intros H Hp Hinv w Hw.
  pose proof (merge_player_info_field _ _ _ _ _ H rating_in_fields) as E.
  rewrite Hw in E. unfold field_step in E. unfold rating_between in Hp.
  destruct (p !! "rating") as [v|]; [|injection E as E; exact (Hinv _ E)].
  destruct (is_none v) eqn:Hnn; [injection E as E; exact (Hinv _ E)|].
  specialize (Hp v eq_refl Hnn).
  destruct (m_fields mg !! "rating") as [o|]; [|injection E as <-; exact Hp].
  cbn [String.eqb Ascii.eqb Bool.eqb] in E.
  destruct (rating_mean o v) as [r|] eqn:Em; cbn in E; [|discriminate].
  injection E as ->. apply rating_mean_float in Em as (qa & qb & Ha & Hb & ->).
  destruct (Hinv o eq_refl) as (qa' & Ha' & Ha1 & Ha2).
  destruct Hp as (qb' & Hb' & Hb1 & Hb2).
  rewrite Ha in Ha'. injection Ha' as <-. rewrite Hb in Hb'. injection Hb' as <-.
  exists (round1 ((qa + qb) / 2)). split; [reflexivity|].
  apply round1_between.
  - apply Qle_shift_div_l; lra.
  - apply Qle_shift_div_r; lra.
Qed.

Lemma rating_fold_between (lo hi : Z) (l : list (string * player)) :
  Forall (fun sp => rating_between lo hi sp.2) l ->
  forall mg m, fold_cluster mg l = Ok m ->
    (forall w, m_fields mg !! "rating" = Some w -> number_between lo hi w) ->
    forall w, m_fields m !! "rating" = Some w -> number_between lo hi w.
Proof.
  induction 1 as [|[src p] l Hp Hl IH]; intros mg m H Hinv.
  - cbn in H. injection H as <-. exact Hinv.
  - cbn [fold_cluster fold_result fst snd] in H.
    destruct (merge_player_info mg p src) as [mg1|x] eqn:E;
      cbn [mbind result_bind] in H; [|discriminate].
    apply (IH mg1 m H). exact (rating_step_between lo hi mg mg1 p src E Hp Hinv).
Qed.

(** X18.  The merged rating stays within the range of the ratings reported:
    when every rating a candidate reports is a number between two integers
    (say 0 and 10), so is the rating of every record [_merge_player_data]
    returns; the repeated rounding never leaves the range. *)
Theorem merged_rating_within_bounds (sd : list (string * list player)) (lg : list N)
    (now : nat -> Z) (finals : list merged) (lo hi : Z) :
  merge_player_data sd lg now = Ok finals ->
  (forall sp, sp ∈ candidates sd -> rating_between lo hi sp.2) ->
  forall m w, m ∈ finals -> m_fields m !! "rating" = Some w -> number_between lo hi w.
Proof.
  intros H Hall m w Hm Hw.
  destruct (final_is_cluster_fold _ _ _ _ _ H Hm) as (key & t & _ & Hf).
  apply (rating_fold_between lo hi _) with (w := w) in Hf; [exact Hf | | | exact Hw].
  - apply Forall_forall. intros sp Hsp. apply cluster_subset in Hsp as [Hsp _]. auto.
  - intros w'. cbn. rewrite lookup_empty. discriminate.
Qed.

Lemma merged_rating_within_bounds_witness : number_between 0 10 (VFloat (36 # 5)).
Proof.
  assert (H7 : number_between 0 10 (VFloat 7))
    by (exists 7%Q; split; [reflexivity|]; vm_compute; split; discriminate).
  assert (H75 : number_between 0 10 (VFloat (15 # 2)))
    by (exists (15 # 2)%Q; split; [reflexivity|]; vm_compute; split; discriminate).
  assert (E1 : smith_fbref !! "rating"%string = Some (VFloat 7))
    by (vm_compute; reflexivity).
  assert (E2 : smith_transfermarkt !! "rating"%string = Some (VFloat (15 # 2)))
    by (vm_compute; reflexivity).
  assert (E3 : smith_sofascore !! "rating"%string = None)
    by (vm_compute; reflexivity).
  apply (merged_rating_within_bounds sample_sources (u "MLS") (t_merge sample_clock)
           sample_merged 0 10) with (m := sample_record).
  - vm_compute. reflexivity.
  - intros sp Hsp. unfold candidates, sample_sources in Hsp.
    cbn [flat_map List.map app fst snd] in Hsp.
    rewrite !elem_of_cons, elem_of_nil in Hsp.
    destruct Hsp as [->|[->|[->|[]]]]; intros w Hw _; cbn [snd] in Hw.
    + rewrite E1 in Hw. injection Hw as <-. exact H7.
    + rewrite E2 in Hw. injection Hw as <-. exact H75.
    + rewrite E3 in Hw. discriminate.
  - apply list_elem_of_In. vm_compute. left. reflexivity.
  - vm_compute. reflexivity.
Defined.

(** *** How a sync ends *)

Lemma quiet_after_fetch (float_repr : Q -> list N) (e : env) (clk : clock) (d : db)
    (lg : list N) (cb : option callback) :
  quiet cb -> 0 < max_concurrent_requests e ->
  sync_league_data float_repr e clk d lg cb =
    let d1 := after_fetches e (log_sync d lg "all" "started" 0 None (t_log_started clk)).1 in
    let r1 := fetched_results e clk lg in
    match merge_player_data (fetched_data e) lg (t_merge clk) with
    | Raise x => sync_except clk lg cb d1 r1 x
    | Ok merged_players =>
        let r2 := with_total_players r1 (length merged_players) in
        let d2 := (save_players_to_db float_repr d1 merged_players lg (t_save clk)).1 in
        let d3 := (log_sync d2 lg "all" "completed"
                     (Z.of_nat (length merged_players)) None (t_log_completed clk)).1 in
        match close_driver e with
        | Some x => sync_except clk lg cb d3 r2 x
        | None => (d3, Ok (with_completion r2 (t_completed clk)))
        end
    end.
Proof.
  intros Hq Hmax.
  rewrite (sync_after_fetch float_repr e clk d lg cb (steps_of_fetch_quiet e cb Hq Hmax)).
  cbv zeta. rewrite Hq.
  destruct (merge_player_data (fetched_data e) lg (t_merge clk)) as [mp|x]; [|reflexivity].
  rewrite !Hq. reflexivity.
Qed.

Lemma quiet_except (clk : clock) (lg : list N) (cb : option callback) (d : db)
    (r : results) (x : exn) :
  quiet cb ->
  sync_except clk lg cb d r x
  = ((log_sync d lg "all" "failed" 0 (Some x) (t_log_failed clk)).1,
     Ok (with_error r (SyncFailed x))).
Proof. intros Hq. unfold sync_except. rewrite Hq. reflexivity. Qed.

(** X19.  When the merge raises, no player is written: the players table is
    as before the sync and the cache holds what the fetches left in it; the
    ledger gains a started and a failed record and no completed one, and the
    call returns results that keep what the fetch stage reported, with
    [total_players] 0, no [completed_at] and the merge error as the last
    entry of [errors]. *)
Theorem sync_merge_failure_writes_no_player (float_repr : Q -> list N) (e : env)
    (clk : clock) (d : db) (lg : list N) (progress_callback : option callback)
    (x : exn) :
  quiet progress_callback ->
  0 < max_concurrent_requests e ->
  merge_player_data (fetched_data e) lg (t_merge clk) = Raise x ->
  let out := sync_league_data float_repr e clk d lg progress_callback in
  let d' := out.1 in
  let n := length (sync_history d) in
  exists r,
    out.2 = Ok r
    /\ players d' = players d
    /\ cache d' = cache (after_fetches e d)
    /\ sync_history d' = sync_history d ++
         [ledger_row n lg "started" 0 None (t_log_started clk);
          ledger_row (S n) lg "failed" 0 (Some x) (t_log_failed clk)]
    /\ r_errors r = fetch_errors e (adapters e) ++ [SyncFailed x]
    /\ r_sources r = source_counts e
    /\ r_total_players r = 0%nat
    /\ r_completed_at r = None.
Proof.
  intros Hq Hmax Hmerge. cbv zeta.
  rewrite (quiet_after_fetch float_repr e clk d lg progress_callback Hq Hmax).
  cbv zeta. rewrite Hmerge, (quiet_except _ _ _ _ _ _ Hq).
  eexists. split; [reflexivity|].
  cbn [fst snd log_sync after_fetches players cache sync_history with_error
    fetched_results r_errors r_sources r_total_players r_completed_at].
  rewrite <- app_assoc, length_app. cbn [length app].
  replace (length (sync_history d) + 1)%nat with (S (length (sync_history d))) by lia.
  repeat split.
Qed.

Lemma sync_merge_failure_writes_no_player_witness :
  let out := sync_league_data sample_repr no_club_env sample_clock sample_table (u "MLS")
               (Some silent_callback) in
  let n := length (sync_history sample_table) in
  exists r,
    out.2 = Ok r
    /\ players out.1 = players sample_table
    /\ cache out.1 = cache (after_fetches no_club_env sample_table)
    /\ sync_history out.1 = sync_history sample_table ++
         [ledger_row n (u "MLS") "started" 0 None (t_log_started sample_clock);
          ledger_row (S n) (u "MLS") "failed" 0 (Some AttributeError)
            (t_log_failed sample_clock)]
    /\ r_errors r = fetch_errors no_club_env (adapters no_club_env)
                    ++ [SyncFailed AttributeError]
    /\ r_sources r = source_counts no_club_env
    /\ r_total_players r = 0%nat
    /\ r_completed_at r = None.
Proof.
  apply (sync_merge_failure_writes_no_player sample_repr no_club_env sample_clock
           sample_table (u "MLS") (Some silent_callback) AttributeError).
  - intros p. reflexivity.
  - reflexivity.
  - vm_compute. reflexivity.
Defined.

(** X20.  A failure at driver shutdown comes after the commit: the merged
    players stay in the table and the completed record in the ledger, a
    failed record follows it, and the results report the players merged but
    no [completed_at], with the shutdown error as the last entry of
    [errors]. *)
Theorem sync_shutdown_failure_keeps_players (float_repr : Q -> list N) (e : env)
    (clk : clock) (d : db) (lg : list N) (progress_callback : option callback)
    (x : exn) (merged_players : list merged) :
  quiet progress_callback ->
  0 < max_concurrent_requests e ->
  close_driver e = Some x ->
  merge_player_data (fetched_data e) lg (t_merge clk) = Ok merged_players ->
  let out := sync_league_data float_repr e clk d lg progress_callback in
  let d' := out.1 in
  let n := length (sync_history d) in
  exists r,
    out.2 = Ok r
    /\ players d'
       = players (save_players_to_db float_repr d merged_players lg (t_save clk)).1
    /\ sync_history d' = sync_history d ++
         [ledger_row n lg "started" 0 None (t_log_started clk);
          ledger_row (S n) lg "completed" (Z.of_nat (length merged_players)) None
            (t_log_completed clk);
          ledger_row (S (S n)) lg "failed" 0 (Some x) (t_log_failed clk)]
    /\ r_errors r = fetch_errors e (adapters e) ++ [SyncFailed x]
    /\ r_sources r = source_counts e
    /\ r_total_players r = length merged_players
    /\ r_completed_at r = None
    /\ r_duration r = None.
Proof.
  intros Hq Hmax Hclose Hmerge. cbv zeta.
  rewrite (quiet_after_fetch float_repr e clk d lg progress_callback Hq Hmax).
  cbv zeta. rewrite Hmerge, Hclose, (quiet_except _ _ _ _ _ _ Hq).
  eexists. split; [reflexivity|].
  cbn [fst snd log_sync players cache sync_history with_error with_total_players
    fetched_results r_errors r_sources r_total_players r_completed_at r_duration].
  match goal with |- context [save_players_to_db float_repr ?d0 _ _ _] =>
    pose proof (save_players_keeps_ledger float_repr d0 merged_players lg (t_save clk))
      as [Hs _];
    pose proof (save_players_players float_repr d d0 merged_players lg (t_save clk)
                  eq_refl) as Hp
  end.
  rewrite Hs, Hp. cbn [after_fetches sync_history].
  rewrite <- !app_assoc, !length_app. cbn [length app].
  replace (length (sync_history d) + 1)%nat with (S (length (sync_history d))) by lia.
  replace (length (sync_history d) + (1 + 1))%nat
    with (S (S (length (sync_history d)))) by lia.
  repeat split.
Qed.

Lemma sync_shutdown_failure_keeps_players_witness :
  let e := one_failure_env (Some WebDriverException) in
  let out := sync_league_data sample_repr e sample_clock empty_db (u "MLS") None in
  exists r,
    out.2 = Ok r
    /\ players out.1
       = players (save_players_to_db sample_repr empty_db surviving_merged (u "MLS")
                    (t_save sample_clock)).1
    /\ sync_history out.1 =
         [ledger_row 0 (u "MLS") "started" 0 None 1;
          ledger_row 1 (u "MLS") "completed" (Z.of_nat (length surviving_merged)) None 5;
          ledger_row 2 (u "MLS") "failed" 0 (Some WebDriverException) 7]
    /\ r_errors r = fetch_errors e (adapters e) ++ [SyncFailed WebDriverException]
    /\ r_sources r = source_counts e
    /\ r_total_players r = length surviving_merged
    /\ r_completed_at r = None
    /\ r_duration r = None.
Proof.
  apply (sync_shutdown_failure_keeps_players sample_repr
           (one_failure_env (Some WebDriverException)) sample_clock empty_db (u "MLS")
           None WebDriverException surviving_merged).
  - intros p. reflexivity.
  - reflexivity.
  - reflexivity.
  - vm_compute. reflexivity.
Defined.

Lemma fetched_data_none (e : env) (l : list (string * string)) :
  (forall a, a ∈ l -> exists msg, scrape_league e a.1 = FetchRaised msg) ->
  omap (fun a => match scrape_league e a.1 with
                 | Fetched data => Some (a.1, data)
                 | FetchRaised _ => None
                 end) l = []
  /\ length (fetch_errors e l) = length l.
Proof.
  induction l as [|a l IH]; intros H; [auto|].
  destruct (IH (fun a' Ha' => H a' (proj2 (elem_of_cons _ _ _) (or_intror Ha'))))
    as [IH1 IH2].
  destruct (H a (proj2 (elem_of_cons _ _ _) (or_introl eq_refl))) as [msg E].
  unfold fetch_errors in *. cbn [omap list_omap]. rewrite E. cbn. rewrite IH2.
  split; [exact IH1 | reflexivity].
Qed.

(** X21.  A sync in which every adapter's fetch raises is still recorded as
    completed: no exception leaves the fetch stage, so the run merges
    nothing, writes no player, logs a completed record of 0 records and
    returns [completed_at] with one fetch error per adapter and an empty
    [sources]. *)
Theorem sync_every_source_fails (float_repr : Q -> list N) (e : env) (clk : clock)
    (d : db) (lg : list N) (progress_callback : option callback) :
  quiet progress_callback ->
  0 < max_concurrent_requests e ->
  close_driver e = None ->
  (forall a, a ∈ adapters e -> exists msg, scrape_league e a.1 = FetchRaised msg) ->
  let out := sync_league_data float_repr e clk d lg progress_callback in
  let d' := out.1 in
  let n := length (sync_history d) in
  exists r,
    out.2 = Ok r
    /\ players d' = players d
    /\ sync_history d' = sync_history d ++
         [ledger_row n lg "started" 0 None (t_log_started clk);
          ledger_row (S n) lg "completed" 0 None (t_log_completed clk)]
    /\ r_sources r = []
    /\ r_total_players r = 0%nat
    /\ length (r_errors r) = length (adapters e)
    /\ Forall is_fetch_error (r_errors r)
    /\ r_completed_at r = Some (t_completed clk).
Proof.
  intros Hq Hmax Hclose Hall.
  destruct (fetched_data_none e (adapters e) Hall) as [Hnone Hlen].
  fold (fetched_data e) in Hnone.
  assert (Hmerge : merge_player_data (fetched_data e) lg (t_merge clk) = Ok [])
    by (rewrite Hnone; reflexivity).
  destruct (sync_completed float_repr e clk d lg progress_callback [] Hq Hmax Hclose Hmerge)
    as (r & H0 & H1 & H2 & H3 & H4 & H5 & H6).
  cbv zeta. exists r. rewrite H1, H2, H3, H4, H5, H6, Hnone, Hlen.
  split; [exact H0|]. repeat split. apply fetch_errors_are_fetch_errors.
Qed.

Lemma sync_every_source_fails_witness :
  let out := sync_league_data sample_repr all_fail_env sample_clock sample_table (u "MLS")
               (Some silent_callback) in
  let n := length (sync_history sample_table) in
  exists r,
    out.2 = Ok r
    /\ players out.1 = players sample_table
    /\ sync_history out.1 = sync_history sample_table ++
         [ledger_row n (u "MLS") "started" 0 None (t_log_started sample_clock);
          ledger_row (S n) (u "MLS") "completed" 0 None (t_log_completed sample_clock)]
    /\ r_sources r = []
    /\ r_total_players r = 0%nat
    /\ length (r_errors r) = length (adapters all_fail_env)
    /\ Forall is_fetch_error (r_errors r)
    /\ r_completed_at r = Some (t_completed sample_clock).
Proof.
  apply (sync_every_source_fails sample_repr all_fail_env sample_clock sample_table
           (u "MLS") (Some silent_callback)).
  - intros p. reflexivity.
  - reflexivity.
  - reflexivity.
  - intros a _. eexists. reflexivity.
Defined.

(** X22.  With [MAX_CONCURRENT_REQUESTS] at 0 or below the executor cannot be
    built: no adapter is called (the outcome does not depend on what the
    fetches would have done), nothing is persisted, and the run is logged as
    failed with the one error [ValueError]. *)
Theorem sync_without_workers (float_repr : Q -> list N) (e : env) (clk : clock)
    (d : db) (lg : list N) (progress_callback : option callback) :
  quiet progress_callback ->
  max_concurrent_requests e <= 0 ->
  let out := sync_league_data float_repr e clk d lg progress_callback in
  let d' := out.1 in
  let n := length (sync_history d) in
  exists r,
    out.2 = Ok r
    /\ players d' = players d
    /\ cache d' = cache d
    /\ sync_history d' = sync_history d ++
         [ledger_row n lg "started" 0 None (t_log_started clk);
          ledger_row (S n) lg "failed" 0 (Some ValueError) (t_log_failed clk)]
    /\ r_errors r = [SyncFailed ValueError]
    /\ r_sources r = []
    /\ r_total_players r = 0%nat
    /\ r_completed_at r = None.
Proof.
  intros Hq Hmax. cbv zeta. unfold sync_league_data, sync_try. cbn [log_sync fst snd].
  rewrite Hq.
  destruct (Z.leb_spec (max_concurrent_requests e) 0) as [_|?]; [|lia].
  rewrite (quiet_except _ _ _ _ _ _ Hq). eexists. split; [reflexivity|].
  cbn. rewrite <- app_assoc, length_app. cbn [length app].
  replace (length (sync_history d) + 1)%nat with (S (length (sync_history d))) by lia.
  repeat split.
Qed.

Lemma sync_without_workers_witness :
  let out := sync_league_data sample_repr no_worker_env sample_clock sample_table (u "MLS")
               (Some silent_callback) in
  let n := length (sync_history sample_table) in
  exists r,
    out.2 = Ok r
    /\ players out.1 = players sample_table
    /\ cache out.1 = cache sample_table
    /\ sync_history out.1 = sync_history sample_table ++
         [ledger_row n (u "MLS") "started" 0 None (t_log_started sample_clock);
          ledger_row (S n) (u "MLS") "failed" 0 (Some ValueError) (t_log_failed sample_clock)]
    /\ r_errors r = [SyncFailed ValueError]
    /\ r_sources r = []
    /\ r_total_players r = 0%nat
    /\ r_completed_at r = None.
Proof.
  apply (sync_without_workers sample_repr no_worker_env sample_clock sample_table (u "MLS")
           (Some silent_callback)).
  - intros p. reflexivity.
  - vm_compute. discriminate.
Defined.

Lemma sync_fetch_results (float_repr : Q -> list N) (e : env) (clk : clock) (d : db)
    (lg : list N) (cb : option callback) :
  quiet cb ->
  0 < max_concurrent_requests e ->
  exists r,
    (sync_league_data float_repr e clk d lg cb).2 = Ok r
    /\ r_sources r = source_counts e
    /\ (r_errors r = fetch_errors e (adapters e)
        \/ exists x, r_errors r = fetch_errors e (adapters e) ++ [SyncFailed x]).
Proof.
  intros Hq Hmax.
  rewrite (quiet_after_fetch float_repr e clk d lg cb Hq Hmax). cbv zeta.
  destruct (merge_player_data (fetched_data e) lg (t_merge clk)) as [mp|x].
  - destruct (close_driver e) as [x|]; rewrite ?(quiet_except _ _ _ _ _ _ Hq);
      eexists; (split; [reflexivity|]); cbn; eauto.
  - rewrite (quiet_except _ _ _ _ _ _ Hq). eexists. split; [reflexivity|]. cbn. eauto.
Qed.

Lemma source_counts_get (e : env) (l : list (string * string)) (a : string * string) :
  NoDup (List.map fst l) -> a ∈ l ->
  dict_get a.1
    (List.map (fun sp : string * list player => (sp.1, length sp.2))
       (omap (fun a => match scrape_league e a.1 with
                       | Fetched data => Some (a.1, data)
                       | FetchRaised _ => None
                       end) l))
  = match scrape_league e a.1 with
    | Fetched data => Some (length data)
    | FetchRaised _ => None
    end.
Proof.
  induction l as [|b l IH]; intros Hnd Hin; [inversion Hin|].
  cbn [List.map] in Hnd. apply NoDup_cons in Hnd as [Hb Hnd].
  cbn [omap list_omap].
  destruct (decide (a.1 = b.1)) as [E|Hne].
  - rewrite <- E.
    assert (Hrest : dict_get a.1
              (List.map (fun sp : string * list player => (sp.1, length sp.2))
                 (omap (fun a => match scrape_league e a.1 with
                                 | Fetched data => Some (a.1, data)
                                 | FetchRaised _ => None
                                 end) l)) = None).
    { clear -Hb E. rewrite <- E in Hb. induction l as [|c l IH]; [reflexivity|].
      cbn [List.map] in Hb. apply not_elem_of_cons in Hb as [Hc Hb].
      cbn [omap list_omap]. destruct (scrape_league e c.1); cbn; [|exact (IH Hb)].
      destruct (decide (a.1 = c.1)); [contradiction | exact (IH Hb)]. }
    destruct (scrape_league e a.1); cbn; [|exact Hrest].
    destruct (decide (a.1 = a.1)); [reflexivity | contradiction].
  - apply elem_of_cons in Hin as [->|Hin]; [contradiction|].
    destruct (scrape_league e b.1); cbn; [|exact (IH Hnd Hin)].
    destruct (decide (a.1 = b.1)); [contradiction | exact (IH Hnd Hin)].
Qed.

Lemma fetch_errors_elem (e : env) (l : list (string * string)) (m : message) :
  m ∈ fetch_errors e l <->
  exists a msg, a ∈ l /\ scrape_league e a.1 = FetchRaised msg
                /\ m = FetchError a.1 a.2 msg.
Proof.
  unfold fetch_errors. rewrite list_elem_of_omap. split.
  - intros (a & Ha & E). destruct (scrape_league e a.1) as [|msg] eqn:Es; [discriminate|].
    injection E as <-. eauto.
  - intros (a & msg & Ha & Es & ->). exists a. rewrite Es. auto.
Qed.

(** X23.  Every adapter is accounted for exactly once, however the sync ends
    after the fetch stage: an adapter whose fetch returned has its record
    count in [sources] and no fetch error, and one whose fetch raised has no
    entry in [sources] and its error message in [errors]. *)
Theorem sync_accounts_for_each_source (float_repr : Q -> list N) (e : env)
    (clk : clock) (d : db) (lg : list N) (progress_callback : option callback)
    (a : string * string) :
  quiet progress_callback ->
  0 < max_concurrent_requests e ->
  a ∈ adapters e ->
  exists r,
    (sync_league_data float_repr e clk d lg progress_callback).2 = Ok r
    /\ match scrape_league e a.1 with
       | Fetched data =>
           dict_get a.1 (r_sources r) = Some (length data)
           /\ forall name msg, FetchError a.1 name msg ∉ r_errors r
       | FetchRaised msg =>
           dict_get a.1 (r_sources r) = None
           /\ FetchError a.1 a.2 msg ∈ r_errors r
       end.
Proof.
  intros Hq Hmax Ha.
  destruct (sync_fetch_results float_repr e clk d lg progress_callback Hq Hmax)
    as (r & H0 & Hs & He).
  exists r. split; [exact H0|]. rewrite Hs. unfold source_counts, fetched_data.
  rewrite (source_counts_get e (adapters e) a (adapters_keys_NoDup e) Ha).
  destruct (scrape_league e a.1) as [data|msg] eqn:E; (split; [reflexivity|]).
  - intros name msg Hin.
    assert (Hf : FetchError a.1 name msg ∈ fetch_errors e (adapters e)).
    { destruct He as [He|[x He]]; rewrite He in Hin; [exact Hin|].
      apply elem_of_app in Hin as [Hin|Hin]; [exact Hin|].
      apply list_elem_of_singleton in Hin. discriminate. }
    apply fetch_errors_elem in Hf as (b & msg' & Hb & Eb & [= E1 _ _]).
    rewrite <- E1 in Eb. rewrite E in Eb. discriminate.
  - assert (Hf : FetchError a.1 a.2 msg ∈ fetch_errors e (adapters e))
      by (apply fetch_errors_elem; eauto).
    destruct He as [He|[x He]]; rewrite He; [exact Hf | apply elem_of_app; auto].
Qed.

Lemma sync_accounts_for_each_source_witness :
  let e := one_failure_env (Some WebDriverException) in
  exists r,
    (sync_league_data sample_repr e sample_clock empty_db (u "MLS") None).2 = Ok r
    /\ match scrape_league e "fbref" with
       | Fetched data =>
           dict_get "fbref"%string (r_sources r) = Some (length data)
           /\ forall name msg, FetchError "fbref" name msg ∉ r_errors r
       | FetchRaised msg =>
           dict_get "fbref"%string (r_sources r) = None
           /\ FetchError "fbref" "FBref" msg ∈ r_errors r
       end.
Proof.
  apply (sync_accounts_for_each_source sample_repr
           (one_failure_env (Some WebDriverException)) sample_clock empty_db (u "MLS")
           None ("fbref", "FBref")%string).
  - intros p. reflexivity.
  - reflexivity.
  - apply (bool_decide_unpack _). vm_compute. reflexivity.
Defined.

(** *** From candidates to stored rows *)



(** X25.  After a sync that completes, every merged record that
    [_save_players_to_db] stores has a row in [players] under its
    identifier, holding the league of the sync and the columns of a merged
    record with that identifier, and every row stored before under an
    identifier that no stored merged record has is still there, unchanged.
    Identifiers are compared as the code compares them, by the text
    [f"{name}_{club}_{league}"] that is hashed. *)
Theorem sync_completed_stores_merged (float_repr : Q -> list N) (e : env)
    (clk : clock) (d : db) (lg : list N) (progress_callback : option callback)
    (merged_players : list merged) :
  quiet progress_callback ->
  0 < max_concurrent_requests e ->
  close_driver e = None ->
  merge_player_data (fetched_data e) lg (t_merge clk) = Ok merged_players ->
  let d' := (sync_league_data float_repr e clk d lg progress_callback).1 in
  (forall m, m ∈ merged_players -> insertable float_repr lg m = true ->
     exists row p,
       (ext_id_of float_repr lg m, row) ∈ players d'
       /\ p ∈ merged_players
       /\ ext_id_text float_repr lg p = ext_id_text float_repr lg m
       /\ columns row = player_columns p /\ player_league row = lg)
  /\ (forall text row, (Md5 text, row) ∈ players d ->
       (forall p, p ∈ merged_players -> insertable float_repr lg p = true ->
                  ext_id_text float_repr lg p <> text) ->
       (Md5 text, row) ∈ players d').
Proof.
  intros Hq Hmax Hclose Hmerge.
  destruct (sync_completed float_repr e clk d lg progress_callback merged_players
              Hq Hmax Hclose Hmerge) as (_ & _ & _ & _ & _ & _ & Hp & _).
  cbn zeta. rewrite Hp, save_players_to_db_unfold. cbn [fst players].
  destruct (save_players_from_spec float_repr lg (t_save clk) merged_players 0%nat
              (players d) 0%nat) as (_ & H2 & _ & H4).
  cbn zeta in *. split.
  - intros m Hm Hins.
    assert (Hk : ext_id_of float_repr lg m
                 ∈ List.map fst (save_players_from float_repr 0 (t_save clk) lg
                                   merged_players (players d) 0).1)
      by (apply H2; right; eauto).
    apply list_elem_of_In, in_map_iff in Hk as ([k row] & Ek & Hin). cbn in Ek. subst k.
    apply list_elem_of_In in Hin.
    destruct (H4 _ _ Hin) as [[_ Hnone]|(p & Hp1 & Hp2 & Hp3 & Hp4 & Hp5)].
    + exfalso. exact (Hnone m Hm Hins eq_refl).
    + exists row, p. injection Hp3 as Hp3. auto.
  - intros text row Hin Hk.
    apply (save_players_from_keeps float_repr lg (t_save clk) merged_players
             (Md5 text) row); [|exact Hin].
    intros p Hp1 Hp2 E. injection E as E. exact (Hk p Hp1 Hp2 E).
Qed.

Lemma sync_completed_stores_merged_witness :
  let e := one_failure_env None in
  let d' := (sync_league_data sample_repr e sample_clock sample_table (u "MLS")
               (Some silent_callback)).1 in
  (forall m, m ∈ surviving_merged -> insertable sample_repr (u "MLS") m = true ->
     exists row p,
       (ext_id_of sample_repr (u "MLS") m, row) ∈ players d'
       /\ p ∈ surviving_merged
       /\ ext_id_text sample_repr (u "MLS") p = ext_id_text sample_repr (u "MLS") m
       /\ columns row = player_columns p /\ player_league row = u "MLS")
  /\ (forall text row, (Md5 text, row) ∈ players sample_table ->
       (forall p, p ∈ surviving_merged -> insertable sample_repr (u "MLS") p = true ->
                  ext_id_text sample_repr (u "MLS") p <> text) ->
       (Md5 text, row) ∈ players d').
Proof.
  apply (sync_completed_stores_merged sample_repr (one_failure_env None) sample_clock
           sample_table (u "MLS") (Some silent_callback) surviving_merged).
  - intros p. reflexivity.
  - reflexivity.
  - reflexivity.
  - vm_compute. reflexivity.
Defined.
